(** * niri-transcribe: the voice-activity detector and its audio-analysis helpers

    A shallow embedding of [src/services/voice-activity-detector.js] and of
    [src/utils/audio-analysis.js].

    - JavaScript numbers are IEEE-754 binary64 values: Rocq's primitive
      [float], whose operations are the hardware ones.  Sample counts,
      array lengths and millisecond timestamps are integers far below 2^53
      and are kept in [Z]/[nat]; they are converted with [Z2F] where the
      source mixes them into floating-point arithmetic.
    - A [Float32Array] is a list of [float]s; building one from a list
      rounds every element to binary32 ([fround]).
    - The Node timer queue ([setTimeout]/[clearTimeout]) and the clock
      ([Date.now]) are an explicit [Runtime]; the detector's methods are
      written in a small state-and-output monad over the runtime and the
      instance fields.
    - A spread call [f(...xs)] is refused by the engine, with a
      [RangeError], when [xs] has more elements than the engine takes as
      arguments: the limit is the parameter [maxArguments] of an [Engine],
      and a call ends in an [Outcome]. *)

From Stdlib Require Import ZArith List Bool Lia Floats.
Import ListNotations.

Set Implicit Arguments.
Open Scope Z_scope.

(* ================================================================== *)
(** * JavaScript numbers *)
(* ================================================================== *)

Module JS.

(** An integer used as a JS number (round to nearest even, which is exact
    below 2^53). *)
Definition Z2F (z : Z) : float :=
  SF2Prim (binary_normalize prec emax z 0 false).

Definition N2F (n : nat) : float := Z2F (Z.of_nat n).

(** [Number.isNaN], [Number.isFinite]. *)
Definition isNaN (x : float) : bool :=
  match Prim2SF x with S754_nan => true | _ => false end.

Definition isFinite (x : float) : bool :=
  match Prim2SF x with
  | S754_nan | S754_infinity _ => false
  | _ => true
  end.

(** [x > y], [x >= y] *)
Definition gt (x y : float) : bool := PrimFloat.ltb y x.
Definition ge (x y : float) : bool := PrimFloat.leb y x.

(** [Math.max(x, y)]: NaN if either argument is NaN, and +0 above -0. *)
Definition Math_max (x y : float) : float :=
  if isNaN x || isNaN y then nan
  else if PrimFloat.ltb x y then y
  else if PrimFloat.ltb y x then x
  else match Prim2SF x with S754_zero true => y | _ => x end.

(** [Math.floor] of a finite number, as the integer it denotes.  (The
    constructor applies it to [sampleRate * 0.03], finite for every
    sample rate that is a finite number.) *)
Definition Math_floor (x : float) : Z :=
  match Prim2SF x with
  | S754_finite s m e =>
      let z := cond_Zopp s (Zpos m) in
      if (0 <=? e)%Z then (z * 2 ^ e)%Z else (z / 2 ^ (- e))%Z
  | _ => 0%Z
  end.

(** [Math.fround]: the binary32 value nearest to [x], as a binary64. *)
Definition fround (x : float) : float :=
  match Prim2SF x with
  | S754_finite s m e =>
      match binary_round 24 128 s m e with
      | S754_finite s' m' e' =>
          SF2Prim (binary_normalize prec emax (cond_Zopp s' (Zpos m')) e' s')
      | r => SF2Prim r
      end
  | _ => x
  end.

(** Truthiness of a number: everything but 0, -0 and NaN. *)
Definition truthy (x : float) : bool :=
  match Prim2SF x with
  | S754_zero _ | S754_nan => false
  | _ => true
  end.

End JS.

Arguments JS.Z2F : simpl never.
Arguments JS.N2F : simpl never.
Arguments JS.Math_floor : simpl never.
Arguments JS.Math_max : simpl never.
Arguments JS.fround : simpl never.
Arguments JS.isNaN : simpl never.
Arguments JS.isFinite : simpl never.
Arguments JS.truthy : simpl never.
Arguments JS.gt : simpl never.
Arguments JS.ge : simpl never.

(** A [Float32Array] holds binary32 values. *)
Definition Float32Array := list float.

Definition isFloat32 (x : float) : Prop := JS.fround x = x.

(** [new Float32Array(arr)] *)
Definition newFloat32Array (arr : list float) : Float32Array :=
  map JS.fround arr.


(* ================================================================== *)
(** * src/utils/audio-analysis.js *)
(* ================================================================== *)

Module AudioAnalysis.

(** The [for] loop of [calculateSpectralCentroid]: [i] is the index of the
    head of [frame]; the accumulators are the two running sums. *)
Fixpoint centroidLoop (frame : list float) (i : Z)
         (weightedSum magnitudeSum : float) : float * float :=
  match frame with
  | [] => (weightedSum, magnitudeSum)
  | x :: rest =>
      let magnitude := abs x in
      centroidLoop rest (i + 1)
                   (weightedSum + magnitude * JS.Z2F i)%float
                   (magnitudeSum + magnitude)%float
  end.

Definition calculateSpectralCentroid (frame : Float32Array) (sampleRate : float)
  : float :=
  let '(weightedSum, magnitudeSum) := centroidLoop frame 0 0%float 0%float in
  if JS.gt magnitudeSum 0
  then ((weightedSum / magnitudeSum) * (sampleRate / 2) / JS.N2F (length frame))%float
  else 0%float.

(** [(frame[i] >= 0) !== (frame[i - 1] >= 0)] *)
Definition signChange (prev x : float) : bool :=
  negb (Bool.eqb (JS.ge x 0) (JS.ge prev 0)).

(** The [for] loop of [calculateZeroCrossingRate], from index 1 on:
    [prev] is [frame[i - 1]]. *)
Fixpoint crossingsLoop (prev : float) (rest : list float) (crossings : Z) : Z :=
  match rest with
  | [] => crossings
  | x :: rest' =>
      crossingsLoop x rest' (if signChange prev x then crossings + 1 else crossings)
  end.

Definition countCrossings (frame : Float32Array) : Z :=
  match frame with
  | [] => 0
  | x0 :: rest => crossingsLoop x0 rest 0
  end.

Definition calculateZeroCrossingRate (frame : Float32Array) : float :=
  (JS.Z2F (countCrossings frame) / JS.N2F (length frame))%float.

(** [applyPreEmphasis]: the result is a [Float32Array] of the frame's
    length; storing into it rounds to binary32, and the store
    [result[0] = frame[0]] into an empty array is ignored. *)
Fixpoint preEmphasisLoop (coefficient prev : float) (rest : list float)
  : list float :=
  match rest with
  | [] => []
  | x :: rest' =>
      JS.fround (x - coefficient * prev)%float :: preEmphasisLoop coefficient x rest'
  end.

Definition applyPreEmphasis (frame : Float32Array) (coefficient : float)
  : Float32Array :=
  match frame with
  | [] => []
  | x0 :: rest => JS.fround x0 :: preEmphasisLoop coefficient x0 rest
  end.

(** [calculateFrameEnergy]; [applyPreEmphasis] is called with its default
    coefficient 0.97. *)
Definition calculateFrameEnergy (frame : Float32Array) (usePreEmphasis : bool)
  : float :=
  let processedFrame :=
    if usePreEmphasis then applyPreEmphasis frame 0.97%float else frame in
  let sum := fold_left (fun sum x => (sum + x * x)%float) processedFrame 0%float in
  sqrt (sum / JS.N2F (length processedFrame)).

(** ['silence'], ['unvoiced'], ['voiced'] *)
Inductive FrameClass := Silence | Unvoiced | Voiced.

Definition classifyFrame (frame : Float32Array) (energy : float) : FrameClass :=
  let zcr := calculateZeroCrossingRate frame in
  let energyThreshold := 0.01%float in
  let zcrThreshold := 0.1%float in
  if PrimFloat.ltb energy energyThreshold then Silence
  else if JS.gt zcr zcrThreshold then Unvoiced
  else Voiced.

(** The inner loop of [autocorrelation]: the sum of [frame[i] * frame[i + lag]]
    over [i < frame.length - lag]. *)
Definition lagSum (frame : Float32Array) (lag : nat) : float :=
  fold_left (fun sum p => (sum + fst p * snd p)%float)
            (combine frame (skipn lag frame)) 0%float.

Definition autocorrelation (frame : Float32Array) (maxLag : nat) : Float32Array :=
  map (fun lag =>
         JS.fround (lagSum frame lag
                    / JS.Z2F (Z.of_nat (length frame) - Z.of_nat lag))%float)
      (seq 0 maxLag).

(** [Math.max(...values)]; of no values it is [-Infinity]. *)
Definition Math_maxOf (values : list float) : float :=
  fold_left JS.Math_max values neg_infinity.

(** The object [extractVADFeatures] returns. *)
Record VADFeatures := mkVADFeatures {
  f_energy : float;
  f_zcr : float;
  f_spectralCentroid : float;
  f_frameClass : FrameClass;
  f_periodicity : float;
  f_isSpeechLikely : bool
}.

(** [Math.floor(frame.length / 2)] is the integer quotient: the length is
    an integer below 2^53, whose half is a double. *)
Definition extractVADFeatures (frame : Float32Array) (sampleRate : float)
  : VADFeatures :=
  let energy := calculateFrameEnergy frame false in
  let zcr := calculateZeroCrossingRate frame in
  let spectralCentroid := calculateSpectralCentroid frame sampleRate in
  let frameClass := classifyFrame frame energy in
  let autocorr := autocorrelation frame (Nat.div (length frame) 2) in
  let maxAutocorr := Math_maxOf (skipn 20 autocorr) in
  {| f_energy := energy;
     f_zcr := zcr;
     f_spectralCentroid := spectralCentroid;
     f_frameClass := frameClass;
     f_periodicity := maxAutocorr;
     f_isSpeechLikely :=
       JS.gt energy 0.01%float
       && match frameClass with Voiced | Unvoiced => true | Silence => false end |}.

End AudioAnalysis.

(* ================================================================== *)
(** * The runtime: clock and timer queue *)
(* ================================================================== *)

(** The three closures the detector hands to [setTimeout]. *)
Inductive Callback := OnSpeechStartTimer | OnSpeechEndTimer | OnSilenceTimer.

Definition Callback_eqb (a b : Callback) : bool :=
  match a, b with
  | OnSpeechStartTimer, OnSpeechStartTimer
  | OnSpeechEndTimer, OnSpeechEndTimer
  | OnSilenceTimer, OnSilenceTimer => true
  | _, _ => false
  end.

(** A pending timer: its handle, the clock value at which it is due, and
    the closure to run. *)
Record Timer := mkTimer { tid : nat; due : Z; cb : Callback }.

(** [queue] is kept in creation order; [nextId] is the next fresh handle. *)
Record Runtime := mkRuntime { now : Z; queue : list Timer; nextId : nat }.

(** Node coerces the delay of [setTimeout]: below 1 ms or above 2^31-1 ms
    it becomes 1 ms. *)
Definition TIMEOUT_MAX : Z := 2147483647.

Definition timerDelay (delay : Z) : Z :=
  if (delay <? 1)%Z || (TIMEOUT_MAX <? delay)%Z then 1%Z else delay.

(** The pending timer that fires first: least [due], the oldest among
    equals. *)
Fixpoint earliest (q : list Timer) : option Timer :=
  match q with
  | [] => None
  | t :: q' =>
      match earliest q' with
      | Some t' => if (due t' <? due t)%Z then Some t' else Some t
      | None => Some t
      end
  end.

Definition dropTimer (id : nat) (q : list Timer) : list Timer :=
  filter (fun t => negb (Nat.eqb (tid t) id)) q.

(* ================================================================== *)
(** * The engine: spread calls *)
(* ================================================================== *)

(** [f(...xs)] passes every element of [xs] as an argument of its own, on
    the stack.  An engine takes only so many arguments: with more, the call
    throws a [RangeError] before [f] has run.  The limit is no part of the
    language; it depends on the engine and on the stack it was started
    with. *)
Class Engine := { maxArguments : Z }.

(** Node.js with its default stack: about 125 000 arguments (the number
    moves with the version and with [--stack-size]). *)
#[global] Instance node : Engine := {| maxArguments := 125000 |}.

Inductive Exception := RangeError.

(** How a call ends: it returns, it throws, or it never comes back. *)
Inductive Outcome (A : Type) :=
| Returned (a : A)
| Thrown (e : Exception)
| Hangs.

Arguments Returned {A} a.
Arguments Thrown {A} e.
Arguments Hangs {A}.

(* ================================================================== *)
(** * src/services/voice-activity-detector.js: data *)
(* ================================================================== *)

(** [config.audio] as the constructor reads it. *)
Record AudioConfig := mkAudioConfig {
  cfg_sampleRate : Z;
  cfg_vadThreshold : float;
  cfg_silenceTimeout : Z
}.

(** The argument of [updateConfig]; an absent property is [None]. *)
Record ConfigUpdate := mkConfigUpdate {
  upd_vadThreshold : option float;
  upd_silenceTimeout : option Z
}.

(** The fields of a [VoiceActivityDetector] instance, in constructor order.
    [null] is [None]; a timer field holds the handle [setTimeout] returned. *)
Record VAD := mkVAD {
  sampleRate : Z;
  frameSize : Z;
  energyThreshold : float;
  speechStartDelay : Z;
  speechEndDelay : Z;
  maxChunkDuration : Z;
  minChunkDuration : Z;
  silenceTimeout : Z;
  isSpeaking : bool;
  speechStartTime : option Z;
  speechEndTime : option Z;
  lastSpeechTime : option Z;
  audioBuffer : list float;
  frameBuffer : list float;
  noiseFloor : float;
  adaptiveThreshold : float;
  speechStartTimer : option nat;
  speechEndTimer : option nat;
  silenceTimer : option nat
}.

Inductive Reason := silence | max_duration.

(** The payload of ['speechEnd']. *)
Record SpeechEndData := mkSpeechEndData {
  audio : Float32Array;
  duration : Z;
  timestamp : option Z;
  reason : Reason
}.

(** What the detector emits.  ['speechStart'] carries [{reason: 'continued'}]
    after a forced cut ([SpeechStart true]) and nothing otherwise. *)
Inductive Event :=
| SpeechStart (continued : bool)
| SpeechEnd (data : SpeechEndData)
| SilenceTimeout.

(** The object [getStatus] returns. *)
Record Status := mkStatus {
  st_isSpeaking : bool;
  st_bufferLength : nat;
  st_bufferDuration : float;
  st_noiseFloor : float;
  st_adaptiveThreshold : float;
  st_frameBufferLength : nat
}.

(** Field assignment [this.f = x]. *)
Definition set_energyThreshold (x : float) (v : VAD) : VAD :=
  mkVAD (sampleRate v) (frameSize v) x (speechStartDelay v)
        (speechEndDelay v) (maxChunkDuration v) (minChunkDuration v)
        (silenceTimeout v) (isSpeaking v) (speechStartTime v) (speechEndTime v)
        (lastSpeechTime v) (audioBuffer v) (frameBuffer v) (noiseFloor v)
        (adaptiveThreshold v) (speechStartTimer v) (speechEndTimer v)
        (silenceTimer v).

Definition set_silenceTimeout (x : Z) (v : VAD) : VAD :=
  mkVAD (sampleRate v) (frameSize v) (energyThreshold v) (speechStartDelay v)
        (speechEndDelay v) (maxChunkDuration v) (minChunkDuration v)
        x (isSpeaking v) (speechStartTime v) (speechEndTime v)
        (lastSpeechTime v) (audioBuffer v) (frameBuffer v) (noiseFloor v)
        (adaptiveThreshold v) (speechStartTimer v) (speechEndTimer v)
        (silenceTimer v).

Definition set_isSpeaking (x : bool) (v : VAD) : VAD :=
  mkVAD (sampleRate v) (frameSize v) (energyThreshold v) (speechStartDelay v)
        (speechEndDelay v) (maxChunkDuration v) (minChunkDuration v)
        (silenceTimeout v) x (speechStartTime v) (speechEndTime v)
        (lastSpeechTime v) (audioBuffer v) (frameBuffer v) (noiseFloor v)
        (adaptiveThreshold v) (speechStartTimer v) (speechEndTimer v)
        (silenceTimer v).

Definition set_speechStartTime (x : option Z) (v : VAD) : VAD :=
  mkVAD (sampleRate v) (frameSize v) (energyThreshold v) (speechStartDelay v)
        (speechEndDelay v) (maxChunkDuration v) (minChunkDuration v)
        (silenceTimeout v) (isSpeaking v) x (speechEndTime v)
        (lastSpeechTime v) (audioBuffer v) (frameBuffer v) (noiseFloor v)
        (adaptiveThreshold v) (speechStartTimer v) (speechEndTimer v)
        (silenceTimer v).

Definition set_speechEndTime (x : option Z) (v : VAD) : VAD :=
  mkVAD (sampleRate v) (frameSize v) (energyThreshold v) (speechStartDelay v)
        (speechEndDelay v) (maxChunkDuration v) (minChunkDuration v)
        (silenceTimeout v) (isSpeaking v) (speechStartTime v) x
        (lastSpeechTime v) (audioBuffer v) (frameBuffer v) (noiseFloor v)
        (adaptiveThreshold v) (speechStartTimer v) (speechEndTimer v)
        (silenceTimer v).

Definition set_lastSpeechTime (x : option Z) (v : VAD) : VAD :=
  mkVAD (sampleRate v) (frameSize v) (energyThreshold v) (speechStartDelay v)
        (speechEndDelay v) (maxChunkDuration v) (minChunkDuration v)
        (silenceTimeout v) (isSpeaking v) (speechStartTime v) (speechEndTime v)
        x (audioBuffer v) (frameBuffer v) (noiseFloor v)
        (adaptiveThreshold v) (speechStartTimer v) (speechEndTimer v)
        (silenceTimer v).

Definition set_audioBuffer (x : list float) (v : VAD) : VAD :=
  mkVAD (sampleRate v) (frameSize v) (energyThreshold v) (speechStartDelay v)
        (speechEndDelay v) (maxChunkDuration v) (minChunkDuration v)
        (silenceTimeout v) (isSpeaking v) (speechStartTime v) (speechEndTime v)
        (lastSpeechTime v) x (frameBuffer v) (noiseFloor v)
        (adaptiveThreshold v) (speechStartTimer v) (speechEndTimer v)
        (silenceTimer v).

Definition set_frameBuffer (x : list float) (v : VAD) : VAD :=
  mkVAD (sampleRate v) (frameSize v) (energyThreshold v) (speechStartDelay v)
        (speechEndDelay v) (maxChunkDuration v) (minChunkDuration v)
        (silenceTimeout v) (isSpeaking v) (speechStartTime v) (speechEndTime v)
        (lastSpeechTime v) (audioBuffer v) x (noiseFloor v)
        (adaptiveThreshold v) (speechStartTimer v) (speechEndTimer v)
        (silenceTimer v).

Definition set_noiseFloor (x : float) (v : VAD) : VAD :=
  mkVAD (sampleRate v) (frameSize v) (energyThreshold v) (speechStartDelay v)
        (speechEndDelay v) (maxChunkDuration v) (minChunkDuration v)
        (silenceTimeout v) (isSpeaking v) (speechStartTime v) (speechEndTime v)
        (lastSpeechTime v) (audioBuffer v) (frameBuffer v) x
        (adaptiveThreshold v) (speechStartTimer v) (speechEndTimer v)
        (silenceTimer v).

Definition set_adaptiveThreshold (x : float) (v : VAD) : VAD :=
  mkVAD (sampleRate v) (frameSize v) (energyThreshold v) (speechStartDelay v)
        (speechEndDelay v) (maxChunkDuration v) (minChunkDuration v)
        (silenceTimeout v) (isSpeaking v) (speechStartTime v) (speechEndTime v)
        (lastSpeechTime v) (audioBuffer v) (frameBuffer v) (noiseFloor v)
        x (speechStartTimer v) (speechEndTimer v)
        (silenceTimer v).

Definition set_speechStartTimer (x : option nat) (v : VAD) : VAD :=
  mkVAD (sampleRate v) (frameSize v) (energyThreshold v) (speechStartDelay v)
        (speechEndDelay v) (maxChunkDuration v) (minChunkDuration v)
        (silenceTimeout v) (isSpeaking v) (speechStartTime v) (speechEndTime v)
        (lastSpeechTime v) (audioBuffer v) (frameBuffer v) (noiseFloor v)
        (adaptiveThreshold v) x (speechEndTimer v)
        (silenceTimer v).

Definition set_speechEndTimer (x : option nat) (v : VAD) : VAD :=
  mkVAD (sampleRate v) (frameSize v) (energyThreshold v) (speechStartDelay v)
        (speechEndDelay v) (maxChunkDuration v) (minChunkDuration v)
        (silenceTimeout v) (isSpeaking v) (speechStartTime v) (speechEndTime v)
        (lastSpeechTime v) (audioBuffer v) (frameBuffer v) (noiseFloor v)
        (adaptiveThreshold v) (speechStartTimer v) x
        (silenceTimer v).

Definition set_silenceTimer (x : option nat) (v : VAD) : VAD :=
  mkVAD (sampleRate v) (frameSize v) (energyThreshold v) (speechStartDelay v)
        (speechEndDelay v) (maxChunkDuration v) (minChunkDuration v)
        (silenceTimeout v) (isSpeaking v) (speechStartTime v) (speechEndTime v)
        (lastSpeechTime v) (audioBuffer v) (frameBuffer v) (noiseFloor v)
        (adaptiveThreshold v) (speechStartTimer v) (speechEndTimer v)
        x.

(* ================================================================== *)
(** * The method monad *)
(* ================================================================== *)

(** A detector instance living in a runtime. *)
Record World := mkWorld { rt : Runtime; self : VAD }.

(** A method body: it reads and writes the world and emits events, in
    order, to the instance's listeners. *)
Definition M (A : Type) : Type := World -> A * World * list Event.

Definition ret {A} (a : A) : M A := fun w => (a, w, []).

Definition bind {A B} (m : M A) (k : A -> M B) : M B :=
  fun w =>
    let '(a, w1, out1) := m w in
    let '(b, w2, out2) := k a w1 in
    (b, w2, out1 ++ out2).

Notation "x <- m ;; k" := (bind m (fun x => k))
  (at level 61, m at next level, right associativity).
Notation "m ;; k" := (bind m (fun _ => k))
  (at level 61, right associativity).

(** [this.f] *)
Definition this {A} (f : VAD -> A) : M A := fun w => (f (self w), w, []).

(** [this.f = x], or any pure update of the fields *)
Definition assign (upd : VAD -> VAD) : M unit :=
  fun w => (tt, mkWorld (rt w) (upd (self w)), []).

(** [this.emit(...)] *)
Definition emit (e : Event) : M unit := fun w => (tt, w, [e]).

(** [Date.now()] *)
Definition Date_now : M Z := fun w => (now (rt w), w, []).

(** [setTimeout(callback, delay)] *)
Definition setTimeout (callback : Callback) (delay : Z) : M nat :=
  fun w =>
    let r := rt w in
    let t := mkTimer (nextId r) (now r + timerDelay delay) callback in
    (nextId r, mkWorld (mkRuntime (now r) (queue r ++ [t]) (S (nextId r))) (self w), []).

(** [clearTimeout(handle)] *)
Definition clearTimeout (handle : nat) : M unit :=
  fun w =>
    let r := rt w in
    (tt, mkWorld (mkRuntime (now r) (dropTimer handle (queue r)) (nextId r)) (self w), []).

Definition skip : M unit := ret tt.

(** Running a method: final world and emitted events. *)
Definition exec {A} (m : M A) (w : World) : World * list Event :=
  let '(_, w', out) := m w in (w', out).

Definition result {A} (m : M A) (w : World) : A := fst (fst (m w)).
Definition after {A} (m : M A) (w : World) : World := snd (fst (m w)).
Definition events {A} (m : M A) (w : World) : list Event := snd (m w).

(** A timestamp field in arithmetic ([null] converts to 0) and in a
    condition ([null] and 0 are falsy). *)
Definition toNumber (t : option Z) : Z :=
  match t with Some z => z | None => 0 end.

Definition truthyTime (t : option Z) : bool :=
  match t with Some z => negb (z =? 0)%Z | None => false end.

(* ================================================================== *)
(** * src/services/voice-activity-detector.js: methods *)
(* ================================================================== *)

Definition constructor (config : AudioConfig) : VAD :=
  let sampleRate := cfg_sampleRate config in
  {| sampleRate := sampleRate;
     frameSize := JS.Math_floor (JS.Z2F sampleRate * 0.03)%float;
     energyThreshold := cfg_vadThreshold config;
     speechStartDelay := 300;
     speechEndDelay := 1000;
     maxChunkDuration := 3000;
     minChunkDuration := 1000;
     silenceTimeout := cfg_silenceTimeout config;
     isSpeaking := false;
     speechStartTime := None;
     speechEndTime := None;
     lastSpeechTime := None;
     audioBuffer := [];
     frameBuffer := [];
     noiseFloor := 0.001%float;
     adaptiveThreshold := cfg_vadThreshold config;
     speechStartTimer := None;
     speechEndTimer := None;
     silenceTimer := None |}.

(** Root-mean-square energy. *)
Definition calculateEnergy (frame : Float32Array) : float :=
  let sum := fold_left (fun sum x => (sum + x * x)%float) frame 0%float in
  sqrt (sum / JS.N2F (length frame)).

Definition detectSpeech (v : VAD) (energy : float) : bool :=
  let threshold := JS.Math_max (adaptiveThreshold v) (noiseFloor v * 3)%float in
  JS.gt energy threshold.

Definition updateNoiseFloor (energy : float) (isSpeech : bool) (v : VAD) : VAD :=
  if negb isSpeech then
    let alpha := 0.01%float in
    let v1 := set_noiseFloor (alpha * energy + (1 - alpha) * noiseFloor v)%float v in
    set_adaptiveThreshold (noiseFloor v1 * 5)%float v1
  else v.

(** [if (this.timer) { clearTimeout(this.timer); this.timer = null; }] *)
Definition cancel (field : VAD -> option nat) (setField : option nat -> VAD -> VAD)
  : M unit :=
  handle <- this field ;;
  match handle with
  | Some id => clearTimeout id ;; assign (setField None)
  | None => skip
  end.

(** [if (!this.timer) { this.timer = setTimeout(callback, this.delay); }] *)
Definition arm (field : VAD -> option nat) (setField : option nat -> VAD -> VAD)
           (callback : Callback) (delayField : VAD -> Z) : M unit :=
  handle <- this field ;;
  match handle with
  | None =>
      delay <- this delayField ;;
      id <- setTimeout callback delay ;;
      assign (setField (Some id))
  | Some _ => skip
  end.

(** The closure passed to [setTimeout] in [handleSpeechStart]. *)
Definition onSpeechStartTimer : M unit :=
  assign (set_isSpeaking true) ;;
  t <- Date_now ;;
  assign (set_speechStartTime (Some t)) ;;
  t' <- Date_now ;;
  assign (set_lastSpeechTime (Some t')) ;;
  sr <- this sampleRate ;;
  let preSpeechSamples := JS.Math_floor (JS.Z2F sr * 0.3)%float in
  buf <- this audioBuffer ;;
  let startIndex := Z.max 0 (Z.of_nat (length buf) - preSpeechSamples) in
  assign (set_audioBuffer (skipn (Z.to_nat startIndex) buf)) ;;
  emit (SpeechStart false).

Definition handleSpeechStart : M unit :=
  cancel speechEndTimer set_speechEndTimer ;;
  speaking <- this isSpeaking ;;
  if speaking then skip
  else arm speechStartTimer set_speechStartTimer OnSpeechStartTimer speechStartDelay.

Definition handleSpeechEnd : M unit :=
  cancel speechStartTimer set_speechStartTimer ;;
  speaking <- this isSpeaking ;;
  if speaking
  then arm speechEndTimer set_speechEndTimer OnSpeechEndTimer speechEndDelay
  else skip.

Definition endSpeech (reason : Reason) : M unit :=
  speaking <- this isSpeaking ;;
  if negb speaking then skip
  else
    assign (set_isSpeaking false) ;;
    t <- Date_now ;;
    assign (set_speechEndTime (Some t)) ;;
    endTime <- this speechEndTime ;;
    startTime <- this speechStartTime ;;
    let duration := toNumber endTime - toNumber startTime in
    minimum <- this minChunkDuration ;;
    (if (minimum <=? duration)%Z then
       buf <- this audioBuffer ;;
       let audioChunk := newFloat32Array buf in
       emit (SpeechEnd (mkSpeechEndData audioChunk duration startTime reason))
     else skip) ;;
    assign (set_audioBuffer []) ;;
    assign (set_speechStartTime None).

Definition forceEndSpeech : M unit :=
  endSpeech max_duration ;;
  assign (set_isSpeaking true) ;;
  t <- Date_now ;;
  assign (set_speechStartTime (Some t)) ;;
  emit (SpeechStart true).

(** The closure passed to [setTimeout] in [handleSilenceTimeout]. *)
Definition onSilenceTimer : M unit :=
  emit SilenceTimeout ;;
  assign (set_silenceTimer None).

Definition handleSilenceTimeout (isSpeech : bool) : M unit :=
  if isSpeech then
    t <- Date_now ;;
    assign (set_lastSpeechTime (Some t)) ;;
    cancel silenceTimer set_silenceTimer
  else
    last <- this lastSpeechTime ;;
    if truthyTime last
    then arm silenceTimer set_silenceTimer OnSilenceTimer silenceTimeout
    else skip.

(** [processFrame] returns nothing in the source; here it hands back the
    decision [isSpeech] it computed, so that runs can be observed.
    [this.audioBuffer.push(...frame)] spreads one frame: [frameSize] samples
    when the frame comes from [processAudio], 30 ms of audio (480 samples at
    16 kHz), far below what an engine takes; it is the append. *)
Definition processFrame (frame : Float32Array) : M bool :=
  let energy := calculateEnergy frame in
  isSpeech <- this (fun v => detectSpeech v energy) ;;
  assign (updateNoiseFloor energy isSpeech) ;;
  assign (fun v => set_audioBuffer (audioBuffer v ++ frame) v) ;;
  speaking <- this isSpeaking ;;
  (if isSpeech && negb speaking then handleSpeechStart
   else if isSpeech && speaking then cancel speechEndTimer set_speechEndTimer
   else if negb isSpeech && speaking then handleSpeechEnd
   else skip) ;;
  speaking' <- this isSpeaking ;;
  startTime <- this speechStartTime ;;
  (if speaking' && truthyTime startTime then
     t <- Date_now ;;
     let duration := t - toNumber startTime in
     maximum <- this maxChunkDuration ;;
     if (maximum <=? duration)%Z then forceEndSpeech else skip
   else skip) ;;
  handleSilenceTimeout isSpeech ;;
  ret isSpeech.

(** [arr.splice(0, n)]: the removed prefix and what is left. *)
Definition splice0 (n : Z) (arr : list float) : list float * list float :=
  (firstn (Z.to_nat n) arr, skipn (Z.to_nat n) arr).

(** The [while] loop of [processAudio].  It returns the frames it passed to
    [processFrame] with their decisions, or [None] when [fuel] iterations
    did not reach the loop's exit. *)
Fixpoint processLoop (fuel : nat) : M (option (list (Float32Array * bool))) :=
  match fuel with
  | O => ret None
  | S fuel' =>
      buf <- this frameBuffer ;;
      size <- this frameSize ;;
      if (size <=? Z.of_nat (length buf))%Z then
        let '(head, rest) := splice0 size buf in
        assign (set_frameBuffer rest) ;;
        let frame := newFloat32Array head in
        isSpeech <- processFrame frame ;;
        more <- processLoop fuel' ;;
        ret (option_map (cons (frame, isSpeech)) more)
      else ret (Some [])
  end.

Definition processAudioFuel (fuel : nat) (audioData : Float32Array)
  : M (option (list (Float32Array * bool))) :=
  assign (fun v => set_frameBuffer (frameBuffer v ++ audioData) v) ;;
  processLoop fuel.

(** The body of [processAudio] once the engine has taken the spread.  With
    a positive frame size the loop runs at most once per buffered sample, so
    this much fuel always reaches the exit (see [processAccepted_returns]);
    with [frameSize <= 0] no amount does. *)
Definition processAccepted (audioData : Float32Array)
  : M (option (list (Float32Array * bool))) :=
  buf <- this frameBuffer ;;
  processAudioFuel (S (length buf + length audioData)) audioData.

(** [this.frameBuffer.push(...audioData)] spreads the block: a block with
    more samples than the engine takes arguments makes the call throw, with
    nothing pushed and no frame processed. *)
Definition processAudio {engine : Engine} (audioData : Float32Array)
  : M (Outcome (list (Float32Array * bool))) :=
  if (maxArguments <? Z.of_nat (length audioData))%Z then ret (Thrown RangeError)
  else
    r <- processAccepted audioData ;;
    ret (match r with
         | Some frames => Returned frames
         | None => Hangs
         end).

Definition reset : M unit :=
  cancel speechStartTimer set_speechStartTimer ;;
  cancel speechEndTimer set_speechEndTimer ;;
  cancel silenceTimer set_silenceTimer ;;
  assign (set_isSpeaking false) ;;
  assign (set_speechStartTime None) ;;
  assign (set_speechEndTime None) ;;
  assign (set_lastSpeechTime None) ;;
  assign (set_audioBuffer []) ;;
  assign (set_frameBuffer []).

(** [x || y] on an optional number and on an optional millisecond count. *)
Definition orElseF (x : option float) (y : float) : float :=
  match x with
  | Some a => if JS.truthy a then a else y
  | None => y
  end.

Definition orElseZ (x : option Z) (y : Z) : Z :=
  match x with
  | Some a => if (a =? 0)%Z then y else a
  | None => y
  end.

Definition updateConfig (config : ConfigUpdate) (v : VAD) : VAD :=
  let v1 := set_energyThreshold (orElseF (upd_vadThreshold config) (energyThreshold v)) v in
  let v2 := set_silenceTimeout (orElseZ (upd_silenceTimeout config) (silenceTimeout v1)) v1 in
  set_adaptiveThreshold (energyThreshold v2) v2.

Definition getStatus (v : VAD) : Status :=
  {| st_isSpeaking := isSpeaking v;
     st_bufferLength := length (audioBuffer v);
     st_bufferDuration := (JS.N2F (length (audioBuffer v)) / JS.Z2F (sampleRate v))%float;
     st_noiseFloor := noiseFloor v;
     st_adaptiveThreshold := adaptiveThreshold v;
     st_frameBufferLength := length (frameBuffer v) |}.

(* ================================================================== *)
(** * The event loop *)
(* ================================================================== *)

Definition runCallback (c : Callback) : M unit :=
  match c with
  | OnSpeechStartTimer => onSpeechStartTimer
  | OnSpeechEndTimer => endSpeech silence
  | OnSilenceTimer => onSilenceTimer
  end.

(** The runtime takes timer [t] off the queue and runs its closure; the
    clock has reached the timer's due time by then. *)
Definition fire (t : Timer) : M unit :=
  (fun w =>
     let r := rt w in
     (tt, mkWorld (mkRuntime (Z.max (now r) (due t)) (dropTimer (tid t) (queue r)) (nextId r))
                  (self w), [])) ;;
  runCallback (cb t).

(** Time passes up to [target] with no call into the detector: the due
    timers fire in order, each at its due time.  No closure of the detector
    schedules a timer, so one round per queued timer is enough. *)
Fixpoint advanceLoop (rounds : nat) (target : Z) : M unit :=
  match rounds with
  | O => skip
  | S rounds' =>
      fun w =>
        match earliest (queue (rt w)) with
        | Some t =>
            if (due t <=? target)%Z
            then (fire t ;; advanceLoop rounds' target) w
            else skip w
        | None => skip w
        end
  end.

Definition advanceTimersByTime (ms : Z) : M unit :=
  fun w =>
    let target := now (rt w) + Z.max 0 ms in
    (advanceLoop (length (queue (rt w))) target ;;
     (fun w' => (tt, mkWorld (mkRuntime target (queue (rt w')) (nextId (rt w'))) (self w'), [])))
      w.

(** What a client does with a detector, and what it can observe. *)
Inductive Action :=
| ProcessAudio (audioData : Float32Array)
| ProcessFrame (frame : Float32Array)
| AdvanceTime (ms : Z)
| Reset
| UpdateConfig (config : ConfigUpdate)
| GetStatus.

Inductive Obs :=
| Decided (isSpeech : bool)
| Emitted (e : Event)
| Reported (s : Status).

(** One action; [None] when the call does not return (it throws, or it
    never comes back). *)
Definition step {engine : Engine} (a : Action) (w : World) : option (World * list Obs) :=
  match a with
  | ProcessAudio audioData =>
      let '(r, w', out) := processAudio audioData w in
      match r with
      | Returned frames =>
          Some (w', map (fun fd => Decided (snd fd)) frames ++ map Emitted out)
      | _ => None
      end
  | ProcessFrame frame =>
      let '(d, w', out) := processFrame frame w in
      Some (w', Decided d :: map Emitted out)
  | AdvanceTime ms =>
      let '(_, w', out) := advanceTimersByTime ms w in
      Some (w', map Emitted out)
  | Reset =>
      let '(_, w', out) := reset w in
      Some (w', map Emitted out)
  | UpdateConfig config =>
      Some (mkWorld (rt w) (updateConfig config (self w)), [])
  | GetStatus => Some (w, [Reported (getStatus (self w))])
  end.

Fixpoint run {engine : Engine} (script : list Action) (w : World)
  : option (World * list Obs) :=
  match script with
  | [] => Some (w, [])
  | a :: rest =>
      match step a w with
      | Some (w1, o1) =>
          match run rest w1 with
          | Some (w2, o2) => Some (w2, o1 ++ o2)
          | None => None
          end
      | None => None
      end
  end.

(** A detector freshly constructed in a runtime whose clock reads [t0]. *)
Definition boot (t0 : Z) (config : AudioConfig) : World :=
  mkWorld (mkRuntime t0 [] 0%nat) (constructor config).


(* ================================================================== *)
(** * Vocabulary of the properties *)
(* ================================================================== *)

(** The frame [+A, -A, +A, ...] of [n] samples ([plus] tells the sign of
    the first one). *)
Fixpoint alternatingFrom (plus : bool) (n : nat) (A : float) : Float32Array :=
  match n with
  | O => []
  | S k => (if plus then A else (- A)%float) :: alternatingFrom (negb plus) k A
  end.

Definition alternating (n : nat) (A : float) : Float32Array :=
  alternatingFrom true n A.

(** The adjacent pairs [(frame[i-1], frame[i])] of a frame, and how many of
    them have samples whose sign tests differ. *)
Definition adjacentPairs (frame : Float32Array) : list (float * float) :=
  combine frame (tl frame).

Definition differingPairs (frame : Float32Array) : nat :=
  length (filter (fun p => AudioAnalysis.signChange (fst p) (snd p))
                 (adjacentPairs frame)).

(** A frame of zeros, each +0 or -0. *)
Definition zeroFrame (signs : list bool) : Float32Array :=
  map (fun s : bool => if s then neg_zero else zero) signs.

(** [0 <= z <= 1] as JavaScript evaluates it. *)
Definition inUnitInterval (z : float) : bool := JS.ge z 0 && JS.ge 1 z.

(** The instance field that keeps the handle of the timer running a given
    closure, and its assignment. *)
Definition handleFor (c : Callback) (v : VAD) : option nat :=
  match c with
  | OnSpeechStartTimer => speechStartTimer v
  | OnSpeechEndTimer => speechEndTimer v
  | OnSilenceTimer => silenceTimer v
  end.

Definition setHandleFor (c : Callback) : option nat -> VAD -> VAD :=
  match c with
  | OnSpeechStartTimer => set_speechStartTimer
  | OnSpeechEndTimer => set_speechEndTimer
  | OnSilenceTimer => set_silenceTimer
  end.

(** Every pending timer is the one its field points to: no timer is
    pending that the instance has lost track of. *)
Definition owned (w : World) : Prop :=
  Forall (fun t => handleFor (cb t) (self w) = Some (tid t)) (queue (rt w)).

(** The fields the constructor derives or fixes and no method assigns. *)
Definition configured (v : VAD) : Prop :=
  frameSize v = JS.Math_floor (JS.Z2F (sampleRate v) * 0.03)%float
  /\ speechStartDelay v = 300
  /\ speechEndDelay v = 1000
  /\ maxChunkDuration v = 3000
  /\ minChunkDuration v = 1000.

(** Handles are allocated in increasing order, and the three timer fields
    never hold the same handle. *)
Definition freshHandles (w : World) : Prop :=
  forall c id, handleFor c (self w) = Some id -> (id < nextId (rt w))%nat.

Definition distinctHandles (v : VAD) : Prop :=
  forall c c' id, handleFor c v = Some id -> handleFor c' v = Some id -> c = c'.

Definition handlesOk (w : World) : Prop :=
  freshHandles w /\ distinctHandles (self w).

(** [v'] has the constructor-given fields of [v]. *)
Definition sameSettings (v v' : VAD) : Prop :=
  sampleRate v' = sampleRate v
  /\ frameSize v' = frameSize v
  /\ speechStartDelay v' = speechStartDelay v
  /\ speechEndDelay v' = speechEndDelay v
  /\ maxChunkDuration v' = maxChunkDuration v
  /\ minChunkDuration v' = minChunkDuration v.

(** What holds of every world reached from a constructed instance. *)
Definition wellFormed (w : World) : Prop :=
  owned w /\ handlesOk w /\ configured (self w).

(** An update that leaves the three timer fields alone. *)
Definition keepsHandles (upd : VAD -> VAD) : Prop :=
  forall c v, handleFor c (upd v) = handleFor c v.

(** A property of the instance fields alone. *)
Definition onSelf (Pv : VAD -> Prop) (w : World) : Prop := Pv (self w).

(** [P] is an invariant of the method [m]. *)
Definition preserves {A} (P : World -> Prop) (m : M A) : Prop :=
  forall w, P w -> P (after m w).

(** The pending timers that run a given closure. *)
Definition pendingFor (c : Callback) (w : World) : list Timer :=
  filter (fun t => Callback_eqb (cb t) c) (queue (rt w)).

(** A property of the fields that no assignment to the segmentation state
    (speaking flag, timestamps, segment buffer, timer handles) can break. *)
Definition stable (Pv : VAD -> Prop) : Prop :=
  forall v, Pv v ->
    (forall x, Pv (set_isSpeaking x v))
    /\ (forall x, Pv (set_speechStartTime x v))
    /\ (forall x, Pv (set_speechEndTime x v))
    /\ (forall x, Pv (set_lastSpeechTime x v))
    /\ (forall x, Pv (set_audioBuffer x v))
    /\ (forall x, Pv (set_speechStartTimer x v))
    /\ (forall x, Pv (set_speechEndTimer x v))
    /\ (forall x, Pv (set_silenceTimer x v)).

(** A client feeding sample blocks: before each block some time passes, in
    which due timers fire.  The result lists the frames [processFrame]
    received, in order, with the final world and everything emitted;
    [None] when a call does not return. *)
Fixpoint feed {engine : Engine} (calls : list (Z * Float32Array)) (w : World)
  : option (list Float32Array * World * list Event) :=
  match calls with
  | [] => Some ([], w, [])
  | (ms, audioData) :: rest =>
      let '(_, w1, o1) := advanceTimersByTime ms w in
      let '(r, w2, o2) := processAudio audioData w1 in
      match r with
      | Returned frames =>
          match feed rest w2 with
          | Some (more, w', o3) => Some (map fst frames ++ more, w', o1 ++ o2 ++ o3)
          | None => None
          end
      | _ => None
      end
  end.

(** The first [n] runs of [size] elements of [l]. *)
Fixpoint chunks {A} (size n : nat) (l : list A) : list (list A) :=
  match n with
  | O => []
  | S n' => firstn size l :: chunks size n' (skipn size l)
  end.

(** A stream of samples cut into frames of [size] samples: the complete
    frames, as Float32Arrays, and the samples behind the last of them. *)
Definition framesOf (size : Z) (stream : list float) : list Float32Array :=
  let k := Z.to_nat size in
  map newFloat32Array (chunks k (length stream / k)%nat stream).

Definition leftover (size : Z) (stream : list float) : list float :=
  let k := Z.to_nat size in
  skipn (k * (length stream / k))%nat stream.

(** [processFrame] called on each frame in turn; the frames come back with
    their decisions. *)
Fixpoint eachFrame (frames : list Float32Array) : M (list (Float32Array * bool)) :=
  match frames with
  | [] => ret []
  | frame :: rest =>
      isSpeech <- processFrame frame ;;
      more <- eachFrame rest ;;
      ret ((frame, isSpeech) :: more)
  end.

(** What feeding blocks amounts to, said without a frame buffer: the stream
    is cut into frames of [frameSize] samples, and [processFrame] is called
    on each frame during the call whose block completes it.  [carry] holds
    the samples that are in no frame yet.  The result lists the frames, the
    samples left over, the final world and everything emitted. *)
Fixpoint framed (calls : list (Z * Float32Array)) (carry : list float) (w : World)
  : list Float32Array * list float * World * list Event :=
  match calls with
  | [] => ([], carry, w, [])
  | (ms, audioData) :: rest =>
      let '(_, w1, o1) := advanceTimersByTime ms w in
      let size := frameSize (self w1) in
      let stream := carry ++ audioData in
      let '(_, w2, o2) := eachFrame (framesOf size stream) w1 in
      let '(more, carry', w', o3) := framed rest (leftover size stream) w2 in
      (framesOf size stream ++ more, carry', w', o1 ++ o2 ++ o3)
  end.

(** A block the engine takes in one spread call. *)
Definition accepted {engine : Engine} (audioData : Float32Array) : Prop :=
  Z.of_nat (length audioData) <= maxArguments.

(** The fields of the frame assembler. *)
Definition assemblerIs (b : list float) (size : Z) (v : VAD) : Prop :=
  frameBuffer v = b /\ frameSize v = size.

(** The noise floor is [c]. *)
Definition noiseFloorIs (c : float) (v : VAD) : Prop := noiseFloor v = c.

(** Every frame of the trace was decided speech. *)
Definition allSpeech (tr : list Obs) : Prop := ~ In (Decided false) tr.

(** The configuration and the frames of the repository's test-suite:
    30 ms of a constant amplitude at 16 kHz. *)
Definition testConfig : AudioConfig := mkAudioConfig 16000 0.01%float 10000.

Definition speechFrame : Float32Array := repeat 0.5%float 480.
Definition silenceFrame : Float32Array := repeat 0%float 480.

(** [new Float32Array(480).fill(0.006)]: above the threshold a detector has
    adapted to after one silent frame, below the configured one. *)
Definition faintFrame : Float32Array := repeat (JS.fround 0.006%float) 480.

(** [new Float32Array(480).fill(NaN)] *)
Definition nanFrame : Float32Array := repeat nan 480.

(** A value [updateConfig] treats as supplied. *)
Definition supplied {A} (truthy : A -> bool) (x : option A) (a : A) : Prop :=
  x = Some a /\ truthy a = true.

(** A value [updateConfig] treats as not supplied: absent, or falsy. *)
Definition notSupplied {A} (truthy : A -> bool) (x : option A) : Prop :=
  x = None \/ exists a, x = Some a /\ truthy a = false.

Definition nonZero (z : Z) : bool := negb (z =? 0).

(** Some sample of the frame is NaN or an infinity. *)
Definition hasNonFinite (frame : Float32Array) : Prop :=
  Exists (fun x => JS.isFinite x = false) frame.

(** What the silence alarm depends on: the pending silence timers, the
    handle field, the time of the last speech frame, the clock and the
    configured timeout. *)
Record SilenceView := mkSilenceView {
  sv_pending : list Timer;
  sv_handle : option nat;
  sv_lastSpeech : option Z;
  sv_now : Z;
  sv_timeout : Z
}.

Definition silenceView (w : World) : SilenceView :=
  mkSilenceView (pendingFor OnSilenceTimer w) (silenceTimer (self w))
                (lastSpeechTime (self w)) (now (rt w)) (silenceTimeout (self w)).

(** The invariant carried through the part of [processFrame] that comes
    before [handleSilenceTimeout]. *)
Definition alarmUntouched (view : SilenceView) (w : World) : Prop :=
  owned w /\ handlesOk w /\ silenceView w = view.

(** An update that leaves alone what the silence alarm reads. *)
Definition keepsAlarm (upd : VAD -> VAD) : Prop :=
  keepsHandles upd
  /\ forall v, lastSpeechTime (upd v) = lastSpeechTime v
             /\ silenceTimeout (upd v) = silenceTimeout v.

(** [m] takes a world satisfying [P] to one satisfying [Q]. *)
Definition establishes {A} (P : World -> Prop) (m : M A) (Q : World -> Prop) : Prop :=
  forall w, P w -> Q (after m w).

(** A trace in which the silence alarm sounds at most once between two
    frames decided speech ([alarmed]: it has sounded since the last one). *)
Fixpoint oncePerEpisode (alarmed : bool) (tr : list Obs) : bool :=
  match tr with
  | [] => true
  | Decided true :: rest => oncePerEpisode false rest
  | Emitted SilenceTimeout :: rest =>
      if alarmed then false else oncePerEpisode true rest
  | _ :: rest => oncePerEpisode alarmed rest
  end.

(** How often ['silenceTimeout'] was emitted, and how many frames were
    decided speech. *)
Definition alarms (tr : list Obs) : nat :=
  length (filter (fun o => match o with Emitted SilenceTimeout => true | _ => false end) tr).

Definition speechFrames (tr : list Obs) : nat :=
  length (filter (fun o => match o with Decided true => true | _ => false end) tr).

(** The test that makes [processFrame] cut the segment: speech confirmed,
    a (truthy) start time recorded, and [maxChunkDuration] reached. *)
Definition forcedCut (w : World) : bool :=
  isSpeaking (self w)
  && truthyTime (speechStartTime (self w))
  && (maxChunkDuration (self w) <=? now (rt w) - toNumber (speechStartTime (self w))).

(** The first two steps of [processFrame]: threshold update, and the frame
    appended to the segment buffer. *)
Definition buffered (frame : Float32Array) (w : World) : World :=
  let energy := calculateEnergy frame in
  let v := updateNoiseFloor energy (detectSpeech (self w) energy) (self w) in
  mkWorld (rt w) (set_audioBuffer (audioBuffer v ++ frame) v).

(** The state transition [processFrame] selects. *)
Definition transition (isSpeech speaking : bool) : M unit :=
  if isSpeech && negb speaking then handleSpeechStart
  else if isSpeech && speaking then cancel speechEndTimer set_speechEndTimer
  else if negb isSpeech && speaking then handleSpeechEnd
  else skip.

(** The four situations of the segmentation, read off the speaking flag
    and the handle field the flag makes relevant: waiting for speech, onset
    being confirmed, inside a segment, end of segment being confirmed. *)
Inductive Phase := Idle | ConfirmingStart | Active | ConfirmingEnd.

Definition phase (v : VAD) : Phase :=
  if isSpeaking v
  then match speechEndTimer v with Some _ => ConfirmingEnd | None => Active end
  else match speechStartTimer v with Some _ => ConfirmingStart | None => Idle end.

(** The phase after a frame with decision [isSpeech]. *)
Definition nextPhase (isSpeech : bool) (p : Phase) : Phase :=
  match p, isSpeech with
  | Idle, true => ConfirmingStart
  | Idle, false => Idle
  | ConfirmingStart, _ => ConfirmingStart
  | Active, true => Active
  | Active, false => ConfirmingEnd
  | ConfirmingEnd, true => Active
  | ConfirmingEnd, false => ConfirmingEnd
  end.

(** The phase agrees with what is pending: an onset timer is pending
    exactly in [ConfirmingStart], an offset timer exactly in
    [ConfirmingEnd], and the handle of the other confirmation is then
    empty. *)
Definition backedOn (onset offset : list Timer) (v : VAD) : Prop :=
  (onset <> [] <-> phase v = ConfirmingStart)
  /\ (offset <> [] <-> phase v = ConfirmingEnd)
  /\ (phase v = ConfirmingStart -> speechEndTimer v = None)
  /\ (phase v = ConfirmingEnd -> speechStartTimer v = None).

Definition backed (w : World) : Prop :=
  backedOn (pendingFor OnSpeechStartTimer w) (pendingFor OnSpeechEndTimer w) (self w).

Definition coherent (w : World) : Prop := owned w /\ handlesOk w /\ backed w.

(** The world with the frame assembler's buffer replaced. *)
Definition withBuffer (b : list float) (w : World) : World :=
  mkWorld (rt w) (set_frameBuffer b (self w)).

(** The frames of two consecutive calls of [processAudio]; no result when
    one of the calls does not return. *)
Definition joinFrames (r1 r2 : option (list (Float32Array * bool)))
  : option (list (Float32Array * bool)) :=
  match r1, r2 with
  | Some a, Some b => Some (a ++ b)
  | _, _ => None
  end.

(** The world with one field assigned, and a method that neither reads nor
    writes that field: it runs the same whatever the field holds. *)
Definition lift (set : VAD -> VAD) (w : World) : World :=
  mkWorld (rt w) (set (self w)).

Definition ignores {A} (set : VAD -> VAD) (m : M A) : Prop :=
  forall w, m (lift set w) = (result m w, lift set (after m w), events m w).

(** [m] neither reads nor writes the assembler's buffer: it runs the same
    whatever that buffer holds. *)
Definition ignoresBuffer {A} (m : M A) : Prop :=
  forall b w,
    m (withBuffer b w) = (result m w, withBuffer b (after m w), events m w).

(** [m] keeps the invariant [P] and emits only events satisfying [Q]. *)
Definition guards {A} (P : World -> Prop) (Q : Event -> Prop) (m : M A) : Prop :=
  forall w, P w -> P (after m w) /\ Forall Q (events m w).

(** The speaking flag is set exactly while a segment start is recorded, and
    the minimum duration is the constructor's. *)
Definition bookkept (w : World) : Prop :=
  minChunkDuration (self w) = 1000
  /\ (isSpeaking (self w) = true <-> speechStartTime (self w) <> None).

(** A ['speechEnd'] event as a listener expects it: at least the minimum
    duration long, with the time the segment started. *)
Definition properChunk (e : Event) : Prop :=
  match e with
  | SpeechEnd d => 1000 <= duration d /\ timestamp d <> None
  | _ => True
  end.

(** Pending timers have distinct handles, all handed out already. *)
Definition uniqueIds (w : World) : Prop :=
  NoDup (map tid (queue (rt w)))
  /\ Forall (fun t => (tid t < nextId (rt w))%nat) (queue (rt w)).

(** Two worlds that differ at most in [energyThreshold]. *)
Definition sameButThreshold (w1 w2 : World) : Prop :=
  rt w2 = rt w1 /\ exists x, self w2 = set_energyThreshold x (self w1).

(** An action that does not bring [energyThreshold] back into play: any
    action but an [updateConfig] without a (truthy) [vadThreshold]. *)
Definition keepsThreshold (a : Action) : bool :=
  match a with
  | UpdateConfig config =>
      match upd_vadThreshold config with
      | Some x => JS.truthy x
      | None => false
      end
  | _ => true
  end.

(** A client that only feeds blocks, lets time pass and looks at the
    status or the configuration; and the blocks it feeds. *)
Definition feedsOnly (a : Action) : bool :=
  match a with
  | Reset | ProcessFrame _ => false
  | _ => true
  end.

Fixpoint blocksOf (script : list Action) : list float :=
  match script with
  | [] => []
  | ProcessAudio audioData :: rest => audioData ++ blocksOf rest
  | _ :: rest => blocksOf rest
  end.

(** A detector that has heard no speech: not speaking, no speech time
    recorded, nothing scheduled. *)
Definition unheard (w : World) : Prop :=
  isSpeaking (self w) = false
  /\ lastSpeechTime (self w) = None
  /\ queue (rt w) = [].

(** All the samples the instance holds, in stream order. *)
Definition held (w : World) : list float :=
  audioBuffer (self w) ++ newFloat32Array (frameBuffer (self w)).

(** What a listener can tell from the events so far: no segment open, a
    segment open, or a segment just cut at the maximum duration (its
    continuation not yet announced).  [hear] is the listener's step; it has
    no result when the event cannot come in that situation. *)
Inductive Listening := Closed | Opened | Cut.

Definition hear (s : Listening) (e : Event) : option Listening :=
  match e, s with
  | SpeechStart false, (Closed | Opened) => Some Opened
  | SpeechStart true, Cut => Some Opened
  | SpeechEnd d, Opened =>
      Some (match reason d with max_duration => Cut | silence => Closed end)
  | SilenceTimeout, (Closed | Opened) => Some s
  | _, _ => None
  end.

Fixpoint hearAll (s : Listening) (evs : list Event) : option Listening :=
  match evs with
  | [] => Some s
  | e :: rest =>
      match hear s e with
      | Some s' => hearAll s' rest
      | None => None
      end
  end.

(** The events of a trace, in order. *)
Definition eventsOf (tr : list Obs) : list Event :=
  flat_map (fun o => match o with Emitted e => [e] | _ => [] end) tr.

(** The listener's situation fits the detector's state. *)
Definition attuned (w : World) (s : Listening) : Prop :=
  s <> Cut
  /\ (isSpeaking (self w) = true -> s = Opened)
  /\ minChunkDuration (self w) = 1000
  /\ maxChunkDuration (self w) = 3000.

(** The events of [m] are ones the listener can follow. *)
Definition respects {A} (m : M A) : Prop :=
  forall w s, attuned w s ->
    exists s', hearAll s (events m w) = Some s' /\ attuned (after m w) s'.

(** The configuration an instance currently runs with. *)
Definition configOf (v : VAD) : AudioConfig :=
  mkAudioConfig (sampleRate v) (energyThreshold v) (silenceTimeout v).

(** A freshly constructed instance with the configuration of [w], placed in
    the runtime of [w] with nothing pending. *)
Definition freshLike (w : World) : World :=
  mkWorld (mkRuntime (now (rt w)) [] (nextId (rt w)))
          (constructor (configOf (self w))).

(** The same, but starting from the threshold calibration [w] has reached
    ([noiseFloor] and [adaptiveThreshold]) instead of the constructor's
    seeds. *)
Definition freshCalibrated (w : World) : World :=
  mkWorld (rt (freshLike w))
          (set_adaptiveThreshold (adaptiveThreshold (self w))
             (set_noiseFloor (noiseFloor (self w)) (self (freshLike w)))).

(** What a listener sees of a run. *)
Definition observations (r : option (World * list Obs)) : option (list Obs) :=
  option_map snd r.

(* ================================================================== *)
(** * Facts about JavaScript numbers *)
(* ================================================================== *)

Section FloatFacts.

Lemma Prim2SF_zero : Prim2SF 0%float = S754_zero false.
Proof. reflexivity. Qed.

Lemma Prim2SF_nan : Prim2SF nan = S754_nan.
Proof. reflexivity. Qed.

Lemma isNaN_eq (x : float) : JS.isNaN x = true -> x = nan.
Proof.
  unfold JS.isNaN; intros H.
  apply Prim2SF_inj. rewrite Prim2SF_nan.
  destruct (Prim2SF x); try discriminate; reflexivity.
Qed.

(** [x > 0] holds only for positive finite numbers and +Infinity. *)
Lemma gt_zero_inv (x : float) :
  JS.gt x 0 = true ->
  (exists m e, Prim2SF x = S754_finite false m e) \/ Prim2SF x = S754_infinity false.
Proof.
  unfold JS.gt. rewrite ltb_spec, Prim2SF_zero.
  destruct (Prim2SF x) as [s|s| |s m e]; cbn; try discriminate.
  - destruct s; [discriminate | now right].
  - destruct s; [discriminate | left; eauto].
Qed.

Lemma gt_zero_truthy (x : float) : JS.gt x 0 = true -> JS.truthy x = true.
Proof.
  intros H. unfold JS.truthy.
  destruct (gt_zero_inv H) as [(m & e & ->) | ->]; reflexivity.
Qed.

Lemma gt_zero_ge (x : float) : JS.gt x 0 = true -> JS.ge x 0 = true.
Proof.
  intros H. unfold JS.ge. rewrite leb_spec, Prim2SF_zero.
  destruct (gt_zero_inv H) as [(m & e & ->) | ->]; reflexivity.
Qed.

Lemma gt_zero_opp_ge (x : float) : JS.gt x 0 = true -> JS.ge (- x) 0 = false.
Proof.
  intros H. unfold JS.ge. rewrite leb_spec, opp_spec, Prim2SF_zero.
  destruct (gt_zero_inv H) as [(m & e & ->) | ->]; reflexivity.
Qed.

(** Non-finite values are absorbing for the operations of the energy
    computation. *)
Lemma nonfinite_add_l (x y : float) :
  JS.isFinite x = false -> JS.isFinite (x + y) = false.
Proof.
  unfold JS.isFinite. rewrite add_spec.
  destruct (Prim2SF x) as [s|s| |s m e]; try discriminate; intros _;
    destruct (Prim2SF y) as [s'|s'| |s' m' e']; try destruct s; try destruct s';
    reflexivity.
Qed.

Lemma nonfinite_add_r (x y : float) :
  JS.isFinite y = false -> JS.isFinite (x + y) = false.
Proof.
  unfold JS.isFinite. rewrite add_spec.
  destruct (Prim2SF y) as [s'|s'| |s' m' e']; try discriminate; intros _;
    destruct (Prim2SF x) as [s|s| |s m e]; try destruct s; try destruct s';
    reflexivity.
Qed.

Lemma nonfinite_square (x : float) :
  JS.isFinite x = false -> JS.isFinite (x * x) = false.
Proof.
  unfold JS.isFinite. rewrite mul_spec.
  destruct (Prim2SF x) as [s|s| |s m e]; try discriminate; reflexivity.
Qed.

Lemma nonfinite_div_l (x y : float) :
  JS.isFinite x = false -> JS.isFinite (x / y) = false.
Proof.
  unfold JS.isFinite. rewrite div_spec.
  destruct (Prim2SF x) as [s|s| |s m e]; try discriminate; intros _;
    destruct (Prim2SF y) as [s'|s'| |s' m' e']; reflexivity.
Qed.

Lemma nonfinite_sqrt (x : float) :
  JS.isFinite x = false -> JS.isFinite (sqrt x) = false.
Proof.
  unfold JS.isFinite. rewrite sqrt_spec.
  destruct (Prim2SF x) as [s|s| |s m e]; try discriminate; intros _;
    try destruct s; reflexivity.
Qed.

Lemma float_neq (x y : float) : Prim2SF x <> Prim2SF y -> x <> y.
Proof. intros H E; apply H; now rewrite E. Qed.

End FloatFacts.

(* ================================================================== *)
(** * audio-analysis.js: spectral centroid and zero-crossing rate *)
(* ================================================================== *)

Section AudioAnalysisFacts.
Import AudioAnalysis.

Lemma centroidLoop_zeroFrame (signs : list bool) :
  forall i ws, snd (centroidLoop (zeroFrame signs) i ws 0%float) = 0%float.
Proof.
  induction signs as [|s signs IH]; intros i ws; cbn [zeroFrame map centroidLoop].
  - reflexivity.
  - replace (0 + abs (if s then neg_zero else zero))%float with 0%float
      by (destruct s; reflexivity).
    apply IH.
Qed.

Lemma crossingsLoop_acc (rest : list float) :
  forall prev c, crossingsLoop prev rest c = c + crossingsLoop prev rest 0.
Proof.
  induction rest as [|x rest IH]; intros prev c; cbn [crossingsLoop].
  - lia.
  - destruct (signChange prev x).
    + rewrite (IH x (c + 1)), (IH x (0 + 1)). lia.
    + apply IH.
Qed.

Lemma differingPairs_cons (prev x : float) (rest : list float) :
  differingPairs (prev :: x :: rest)
  = ((if signChange prev x then 1 else 0) + differingPairs (x :: rest))%nat.
Proof.
  unfold differingPairs, adjacentPairs.
  change (combine (prev :: x :: rest) (tl (prev :: x :: rest)))
    with ((prev, x) :: combine (x :: rest) (tl (x :: rest))).
  cbn [filter fst snd]. destruct (signChange prev x); reflexivity.
Qed.

Lemma crossingsLoop_differing (rest : list float) :
  forall prev,
    crossingsLoop prev rest 0 = Z.of_nat (differingPairs (prev :: rest)).
Proof.
  induction rest as [|x rest IH]; intros prev.
  - reflexivity.
  - rewrite differingPairs_cons. cbn [crossingsLoop].
    destruct (signChange prev x).
    + rewrite crossingsLoop_acc, IH. lia.
    + rewrite IH. lia.
Qed.

Lemma differingPairs_bound (frame : Float32Array) :
  (differingPairs frame <= length frame - 1)%nat.
Proof.
  unfold differingPairs, adjacentPairs.
  etransitivity; [apply filter_length_le|].
  rewrite length_combine. destruct frame; cbn [tl length]; lia.
Qed.

Lemma crossings_alternatingFrom (A : float) :
  JS.gt A 0 = true ->
  forall (k : nat) (plus : bool),
    crossingsLoop (if plus then A else (- A)%float)
                  (alternatingFrom (negb plus) k A) 0 = Z.of_nat k.
Proof.
  intros HA. pose proof (gt_zero_ge HA) as Hp. pose proof (gt_zero_opp_ge HA) as Hn.
  induction k as [|k IH]; intros plus; cbn [alternatingFrom crossingsLoop].
  - reflexivity.
  - assert (signChange (if plus then A else (- A)%float)
                       (if negb plus then A else (- A)%float) = true) as ->.
    { unfold signChange. destruct plus; cbn [negb]; rewrite Hp, Hn; reflexivity. }
    rewrite crossingsLoop_acc, IH. lia.
Qed.

End AudioAnalysisFacts.

(** C10. [calculateSpectralCentroid] is a total function of the frame, and it
    never divides by zero: when the sum of magnitudes is not greater than 0
    (for every all-zero frame in particular, and for the empty frame) it
    returns 0 without dividing; when it divides, the divisor [magnitudeSum]
    is neither zero nor NaN and the divisor [frame.length] is not 0. *)
Theorem calculateSpectralCentroid_zero_guard
        (frame : Float32Array) (sampleRate : float) (signs : list bool) :
  let sums := AudioAnalysis.centroidLoop frame 0 0%float 0%float in
  (if JS.gt (snd sums) 0
   then JS.truthy (snd sums) = true
        /\ length frame <> 0%nat
        /\ AudioAnalysis.calculateSpectralCentroid frame sampleRate
           = (fst sums / snd sums * (sampleRate / 2) / JS.N2F (length frame))%float
   else AudioAnalysis.calculateSpectralCentroid frame sampleRate = 0%float)
  /\ AudioAnalysis.calculateSpectralCentroid (zeroFrame signs) sampleRate = 0%float.
Proof.
  cbv zeta. split.
  - unfold AudioAnalysis.calculateSpectralCentroid.
    destruct (AudioAnalysis.centroidLoop frame 0 0%float 0%float) as [ws ms] eqn:E.
    cbn [fst snd]. destruct (JS.gt ms 0) eqn:G; [|reflexivity].
    repeat split.
    + now apply gt_zero_truthy.
    + intros L. destruct frame; [|discriminate].
      cbn in E. injection E as <- <-. discriminate G.
  - unfold AudioAnalysis.calculateSpectralCentroid.
    pose proof (centroidLoop_zeroFrame signs 0 0%float) as Z.
    destruct (AudioAnalysis.centroidLoop (zeroFrame signs) 0 0%float 0%float) as [ws ms].
    cbn [snd] in Z. subst ms. reflexivity.
Qed.

(** X18 ([calculateZeroCrossingRate]).  For every non-empty frame of [n]
    samples the result is the double quotient [crossings / n] of two
    integers, where [crossings] is the number of adjacent pairs whose sign
    tests ([x >= 0]) differ and lies between 0 and [n - 1]; for the frame
    that alternates between +A and -A (A > 0) every pair differs, so the
    result is the double quotient [(n - 1) / n]. *)
Theorem calculateZeroCrossingRate_nonempty
        (x0 : float) (rest : list float) (A : float) (k : nat) :
  let frame := x0 :: rest in
  let n := length frame in
  AudioAnalysis.countCrossings frame = Z.of_nat (differingPairs frame)
  /\ 0 <= AudioAnalysis.countCrossings frame <= Z.of_nat n - 1
  /\ AudioAnalysis.calculateZeroCrossingRate frame
     = (JS.Z2F (Z.of_nat (differingPairs frame)) / JS.Z2F (Z.of_nat n))%float
  /\ (JS.gt A 0 = true ->
      AudioAnalysis.calculateZeroCrossingRate (alternating (S k) A)
      = (JS.Z2F (Z.of_nat (S k) - 1) / JS.Z2F (Z.of_nat (S k)))%float).
Proof.
  cbv zeta.
  assert (E : AudioAnalysis.countCrossings (x0 :: rest)
              = Z.of_nat (differingPairs (x0 :: rest))).
  { cbn [AudioAnalysis.countCrossings]. apply crossingsLoop_differing. }
  split; [exact E|]. split; [|split].
  - rewrite E. pose proof (differingPairs_bound (x0 :: rest)).
    cbn [length] in *. lia.
  - unfold AudioAnalysis.calculateZeroCrossingRate, JS.N2F. now rewrite E.
  - intros HA. unfold AudioAnalysis.calculateZeroCrossingRate, JS.N2F, alternating.
    cbn [alternatingFrom AudioAnalysis.countCrossings].
    rewrite (crossings_alternatingFrom HA k true).
    replace (length (A :: alternatingFrom (negb true) k A)) with (S k).
    + do 2 f_equal. lia.
    + cbn [length]. f_equal. clear. generalize (negb true).
      induction k as [|k IH]; intros b; cbn [alternatingFrom length]; [reflexivity|].
      f_equal. apply IH.
Qed.

Lemma calculateZeroCrossingRate_nonempty_witness :
  AudioAnalysis.calculateZeroCrossingRate (alternating 6 1%float)
  = (JS.Z2F 5 / JS.Z2F 6)%float.
Proof.
  apply (calculateZeroCrossingRate_nonempty 1%float [] 1%float 5).
  reflexivity.
Defined.

(** C9.  The code at the empty frame: the loop finds no crossing and the
    function returns [0 / 0], which is NaN and lies outside [0, 1], against
    its own documentation ("Zero-crossing rate (0-1)").  Its sibling
    [calculateSpectralCentroid] guards the zero denominator and returns 0 on
    the same frame. *)
Theorem calculateZeroCrossingRate_empty_frame :
  AudioAnalysis.countCrossings [] = 0
  /\ AudioAnalysis.calculateZeroCrossingRate [] = (0 / 0)%float
  /\ AudioAnalysis.calculateZeroCrossingRate [] = nan
  /\ inUnitInterval (AudioAnalysis.calculateZeroCrossingRate []) = false
  /\ AudioAnalysis.calculateSpectralCentroid [] 16000%float = 0%float.
Proof. repeat split. Qed.

(** The repository's own test vectors. *)
Example zcr_six : AudioAnalysis.calculateZeroCrossingRate [1; -1; 1; -1; 1; -1]%float
                  = (5 / 6)%float.
Proof. reflexivity. Qed.

Example zcr_constant :
  AudioAnalysis.calculateZeroCrossingRate (repeat 0.5%float 100) = 0%float.
Proof. reflexivity. Qed.

Example centroid_silent :
  AudioAnalysis.calculateSpectralCentroid (repeat 0%float 100) 16000%float = 0%float.
Proof. reflexivity. Qed.

(* ================================================================== *)
(** * The method monad: equations and invariant rules *)
(* ================================================================== *)

Section MonadFacts.
Context {A B : Type}.

Lemma bind_run (m : M A) (k : A -> M B) (w : World) :
  bind m k w =
  (result (k (result m w)) (after m w),
   after (k (result m w)) (after m w),
   events m w ++ events (k (result m w)) (after m w)).
Proof.
  unfold bind, result, after, events.
  destruct (m w) as [[a w1] o1]; cbn.
  destruct (k a w1) as [[b w2] o2]; reflexivity.
Qed.

Lemma after_bind (m : M A) (k : A -> M B) (w : World) :
  after (bind m k) w = after (k (result m w)) (after m w).
Proof. unfold after at 1. now rewrite bind_run. Qed.

Lemma result_bind (m : M A) (k : A -> M B) (w : World) :
  result (bind m k) w = result (k (result m w)) (after m w).
Proof. unfold result at 1. now rewrite bind_run. Qed.

Lemma events_bind (m : M A) (k : A -> M B) (w : World) :
  events (bind m k) w = events m w ++ events (k (result m w)) (after m w).
Proof. unfold events at 1. now rewrite bind_run. Qed.

Lemma preserves_bind (P : World -> Prop) (m : M A) (k : A -> M B) :
  preserves P m -> (forall a, preserves P (k a)) -> preserves P (bind m k).
Proof.
  intros Hm Hk w Hw. rewrite after_bind. apply Hk, Hm, Hw.
Qed.

End MonadFacts.

Section PreservesFacts.
Variable P : World -> Prop.

Lemma preserves_ret {A} (a : A) : preserves P (ret a).
Proof. intros w Hw; exact Hw. Qed.

Lemma preserves_skip : preserves P skip.
Proof. intros w Hw; exact Hw. Qed.

Lemma preserves_this {A} (f : VAD -> A) : preserves P (this f).
Proof. intros w Hw; exact Hw. Qed.

Lemma preserves_emit (e : Event) : preserves P (emit e).
Proof. intros w Hw; exact Hw. Qed.

Lemma preserves_Date_now : preserves P Date_now.
Proof. intros w Hw; exact Hw. Qed.

Lemma preserves_if {A} (b : bool) (m1 m2 : M A) :
  preserves P m1 -> preserves P m2 -> preserves P (if b then m1 else m2).
Proof. destruct b; auto. Qed.

End PreservesFacts.

(** Decompose a method body along its binds and conditionals; [leaf]
    closes the assignments and timer operations. *)
Ltac pres_with leaf :=
  cbv zeta;
  repeat lazymatch goal with
    | |- preserves _ (bind _ _) => apply preserves_bind; [|intros ?]
    | |- preserves _ (ret _) => apply preserves_ret
    | |- preserves _ skip => apply preserves_skip
    | |- preserves _ (this _) => apply preserves_this
    | |- preserves _ (emit _) => apply preserves_emit
    | |- preserves _ Date_now => apply preserves_Date_now
    | |- preserves _ (match ?x with _ => _ end) => destruct x
    | |- preserves _ _ => leaf
    end.

(* ================================================================== *)
(** * Timers: the instance never loses track of a pending timer *)
(* ================================================================== *)

Section Owned.

Lemma handleFor_set_same (c : Callback) (h : option nat) (v : VAD) :
  handleFor c (setHandleFor c h v) = h.
Proof. destruct c; reflexivity. Qed.

Lemma handleFor_set_other (c c' : Callback) (h : option nat) (v : VAD) :
  c' <> c -> handleFor c' (setHandleFor c h v) = handleFor c' v.
Proof. destruct c, c'; intros N; try reflexivity; now contradict N. Qed.

Lemma owned_assign (upd : VAD -> VAD) :
  keepsHandles upd -> preserves owned (assign upd).
Proof.
  intros K w Hw. unfold owned, after, assign in *; cbn.
  eapply Forall_impl; [|exact Hw]. intros t Ht; cbn in *. now rewrite K.
Qed.

Lemma In_dropTimer (id : nat) (q : list Timer) (t : Timer) :
  In t (dropTimer id q) <-> In t q /\ tid t <> id.
Proof.
  unfold dropTimer. rewrite filter_In, negb_true_iff, Nat.eqb_neq. tauto.
Qed.

(** After [cancel] no timer for that closure is pending. *)
Lemma owned_cancel (c : Callback) :
  preserves owned (cancel (handleFor c) (setHandleFor c)).
Proof.
  intros w Hw. unfold cancel.
  rewrite after_bind. change (result (this (handleFor c)) w) with (handleFor c (self w)).
  change (after (this (handleFor c)) w) with w.
  destruct (handleFor c (self w)) as [id|] eqn:E; [|exact Hw].
  unfold owned in *. rewrite Forall_forall in *. intros t Ht.
  cbn in Ht. apply In_dropTimer in Ht as [Ht Hne].
  specialize (Hw t Ht). cbn.
  destruct (Callback_eqb (cb t) c) eqn:Q.
  - assert (cb t = c) as Ec by (destruct (cb t), c; (discriminate || reflexivity)).
    rewrite Ec, E in Hw. now injection Hw as ->.
  - rewrite handleFor_set_other; [exact Hw|].
    intros Ec; rewrite Ec in Q; destruct c; discriminate.
Qed.

(** [arm] schedules a timer only when the field is empty, and stores the
    new handle in it. *)
Lemma owned_arm (c : Callback) (delayField : VAD -> Z) :
  preserves owned (arm (handleFor c) (setHandleFor c) c delayField).
Proof.
  intros w Hw. unfold arm.
  rewrite after_bind. change (result (this (handleFor c)) w) with (handleFor c (self w)).
  change (after (this (handleFor c)) w) with w.
  destruct (handleFor c (self w)) as [id|] eqn:E; [exact Hw|].
  unfold owned in *. rewrite Forall_forall in *. intros t Ht.
  cbn in Ht. apply in_app_or in Ht as [Ht|[<-|[]]]; cbn.
  - specialize (Hw t Ht).
    rewrite handleFor_set_other; [exact Hw|].
    intros Ec; rewrite Ec, E in Hw; discriminate.
  - apply handleFor_set_same.
Qed.

End Owned.

Section OnSelf.
Variable Pv : VAD -> Prop.

Lemma onSelf_assign (upd : VAD -> VAD) :
  (forall v, Pv v -> Pv (upd v)) -> preserves (onSelf Pv) (assign upd).
Proof. intros H w Hw. apply H, Hw. Qed.

Lemma onSelf_setTimeout (c : Callback) (delay : Z) :
  preserves (onSelf Pv) (setTimeout c delay).
Proof. intros w Hw. exact Hw. Qed.

Lemma onSelf_clearTimeout (id : nat) : preserves (onSelf Pv) (clearTimeout id).
Proof. intros w Hw. exact Hw. Qed.

Lemma onSelf_cancel field setField :
  (forall v, Pv v -> Pv (setField None v)) ->
  preserves (onSelf Pv) (cancel field setField).
Proof.
  intros H. unfold cancel.
  pres_with ltac:(first [apply onSelf_clearTimeout | apply onSelf_assign; exact H]).
Qed.

Lemma onSelf_arm field setField (c : Callback) (delayField : VAD -> Z) :
  (forall id v, Pv v -> Pv (setField (Some id) v)) ->
  preserves (onSelf Pv) (arm field setField c delayField).
Proof.
  intros H. unfold arm.
  pres_with ltac:(first [apply onSelf_setTimeout | apply onSelf_assign; apply H]).
Qed.

End OnSelf.

(** Closing the leaves of a method body for a property of the fields:
    [solve_upd] must prove that each assignment keeps the property. *)
Ltac self_leaf solve_upd :=
  idtac;
  lazymatch goal with
  | |- preserves _ (cancel _ _) => apply onSelf_cancel; intros; solve_upd
  | |- preserves _ (arm _ _ _ _) => apply onSelf_arm; intros; solve_upd
  | |- preserves _ (assign _) => apply onSelf_assign; intros; solve_upd
  | |- preserves _ (setTimeout _ _) => apply onSelf_setTimeout
  | |- preserves _ (clearTimeout _) => apply onSelf_clearTimeout
  end.

Ltac unfold_methods :=
  unfold processFrame, handleSilenceTimeout, forceEndSpeech, endSpeech,
    handleSpeechEnd, handleSpeechStart, onSpeechStartTimer, onSilenceTimer,
    reset, runCallback.

Ltac keeps_handles :=
  idtac;
  intros [] ?;
  try match goal with
      | |- context [updateNoiseFloor _ ?d _] => is_var d; destruct d
      end; reflexivity.

Ltac owned_leaf :=
  idtac;
  lazymatch goal with
  | |- preserves _ (cancel speechStartTimer _) => exact (owned_cancel OnSpeechStartTimer)
  | |- preserves _ (cancel speechEndTimer _) => exact (owned_cancel OnSpeechEndTimer)
  | |- preserves _ (cancel silenceTimer _) => exact (owned_cancel OnSilenceTimer)
  | |- preserves _ (arm speechStartTimer _ _ _) => exact (owned_arm OnSpeechStartTimer _)
  | |- preserves _ (arm speechEndTimer _ _ _) => exact (owned_arm OnSpeechEndTimer _)
  | |- preserves _ (arm silenceTimer _ _ _) => exact (owned_arm OnSilenceTimer _)
  | |- preserves _ (assign _) => apply owned_assign; keeps_handles
  end.

Section Loops.
Variable P : World -> Prop.

Lemma preserves_processLoop (fuel : nat) :
  (forall frame, preserves P (processFrame frame)) ->
  (forall b, preserves P (assign (set_frameBuffer b))) ->
  preserves P (processLoop fuel).
Proof.
  intros Hf Hb. induction fuel as [|fuel IH]; cbn [processLoop].
  - apply preserves_ret.
  - pres_with ltac:(first [apply Hf | exact IH | apply Hb]).
Qed.

Lemma preserves_processAccepted (audioData : Float32Array) :
  (forall frame, preserves P (processFrame frame)) ->
  (forall b, preserves P (assign (set_frameBuffer b))) ->
  preserves P (assign (fun v => set_frameBuffer (frameBuffer v ++ audioData) v)) ->
  preserves P (processAccepted audioData).
Proof.
  intros Hf Hb Ha. unfold processAccepted, processAudioFuel.
  pres_with ltac:(first [now apply preserves_processLoop | exact Ha]).
Qed.

Lemma after_advanceLoop_S (rounds : nat) (target : Z) (w : World) :
  after (advanceLoop (S rounds) target) w =
  match earliest (queue (rt w)) with
  | Some t =>
      if due t <=? target
      then after (advanceLoop rounds target) (after (fire t) w)
      else w
  | None => w
  end.
Proof.
  unfold after at 1. cbn [advanceLoop].
  destruct (earliest (queue (rt w))) as [t|]; [|reflexivity].
  destruct (due t <=? target); [|reflexivity].
  exact (after_bind (fire t) (fun _ => advanceLoop rounds target) w).
Qed.

Lemma events_advanceLoop_S (rounds : nat) (target : Z) (w : World) :
  events (advanceLoop (S rounds) target) w =
  match earliest (queue (rt w)) with
  | Some t =>
      if due t <=? target
      then events (fire t) w ++ events (advanceLoop rounds target) (after (fire t) w)
      else []
  | None => []
  end.
Proof.
  unfold events at 1. cbn [advanceLoop].
  destruct (earliest (queue (rt w))) as [t|]; [|reflexivity].
  destruct (due t <=? target); [|reflexivity].
  exact (events_bind (fire t) (fun _ => advanceLoop rounds target) w).
Qed.

Lemma earliest_In (q : list Timer) (t : Timer) :
  earliest q = Some t -> In t q.
Proof.
  revert t; induction q as [|t0 q IH]; intros t; cbn [earliest]; [discriminate|].
  destruct (earliest q) as [t'|].
  - destruct (due t' <? due t0); intros [= <-]; [right; now apply IH | now left].
  - intros [= <-]; now left.
Qed.

Lemma preserves_advanceLoop (rounds : nat) (target : Z) :
  (forall t w, P w -> In t (queue (rt w)) -> P (after (fire t) w)) ->
  preserves P (advanceLoop rounds target).
Proof.
  intros H. induction rounds as [|rounds IH]; intros w Hw.
  - exact Hw.
  - rewrite after_advanceLoop_S.
    destruct (earliest (queue (rt w))) as [t|] eqn:E; [|exact Hw].
    destruct (due t <=? target); [|exact Hw].
    apply IH, H; [exact Hw | now apply earliest_In].
Qed.

Lemma after_advanceTimersByTime (ms : Z) (w : World) :
  after (advanceTimersByTime ms) w =
  let target := now (rt w) + Z.max 0 ms in
  let w' := after (advanceLoop (length (queue (rt w))) target) w in
  mkWorld (mkRuntime target (queue (rt w')) (nextId (rt w'))) (self w').
Proof.
  unfold advanceTimersByTime, after at 1. cbv zeta. now rewrite bind_run.
Qed.

Lemma events_advanceTimersByTime (ms : Z) (w : World) :
  events (advanceTimersByTime ms) w =
  events (advanceLoop (length (queue (rt w))) (now (rt w) + Z.max 0 ms)) w.
Proof.
  unfold advanceTimersByTime, events at 1. cbv zeta. rewrite bind_run.
  cbn. apply app_nil_r.
Qed.

Lemma preserves_advanceTimersByTime (ms : Z) :
  (forall t w, P w -> In t (queue (rt w)) -> P (after (fire t) w)) ->
  (forall w n, P w -> P (mkWorld (mkRuntime n (queue (rt w)) (nextId (rt w))) (self w))) ->
  preserves P (advanceTimersByTime ms).
Proof.
  intros Hf Hn w Hw. rewrite after_advanceTimersByTime. cbv zeta.
  apply Hn. now apply preserves_advanceLoop.
Qed.

End Loops.

Section OwnedMethods.

Lemma owned_processFrame (frame : Float32Array) :
  preserves owned (processFrame frame).
Proof. unfold_methods. pres_with owned_leaf. Qed.

Lemma owned_reset : preserves owned reset.
Proof. unfold_methods. pres_with owned_leaf. Qed.

Lemma owned_processAccepted (audioData : Float32Array) :
  preserves owned (processAccepted audioData).
Proof.
  apply preserves_processAccepted;
    [apply owned_processFrame | intros b |]; owned_leaf.
Qed.

Lemma owned_fire (t : Timer) (w : World) :
  owned w -> In t (queue (rt w)) -> owned (after (fire t) w).
Proof.
  intros Hw Ht. unfold fire. rewrite after_bind.
  set (w1 := after _ w).
  assert (Hq : forall t', In t' (queue (rt w1)) -> In t' (queue (rt w)) /\ tid t' <> tid t).
  { intros t' H. subst w1; cbn in H. now apply In_dropTimer in H. }
  assert (Hself : self w1 = self w) by reflexivity.
  assert (H1 : owned w1).
  { unfold owned in *. rewrite Forall_forall in *. intros t' H'.
    rewrite Hself. apply Hw. now apply Hq. }
  unfold owned in Hw. rewrite Forall_forall in Hw.
  destruct (cb t) eqn:Ec; cbn [runCallback].
  - revert H1. generalize w1. change (preserves owned onSpeechStartTimer).
    unfold_methods. pres_with owned_leaf.
  - revert H1. generalize w1. change (preserves owned (endSpeech silence)).
    unfold_methods. pres_with owned_leaf.
  - unfold onSilenceTimer. rewrite after_bind. cbn.
    unfold owned. rewrite Forall_forall. intros t' H'.
    destruct (Hq t' H') as [Hin Hne]. cbn.
    pose proof (Hw t' Hin) as E'. pose proof (Hw t Ht) as E. rewrite Ec in E.
    destruct (cb t'); cbn in *; try exact E'.
    exfalso; apply Hne; congruence.
Qed.

Lemma owned_advanceTimersByTime (ms : Z) :
  preserves owned (advanceTimersByTime ms).
Proof.
  apply preserves_advanceTimersByTime; [apply owned_fire | intros w n H; exact H].
Qed.

End OwnedMethods.

Section HandlesOk.

Lemma handlesOk_assign (upd : VAD -> VAD) :
  keepsHandles upd -> preserves handlesOk (assign upd).
Proof.
  intros K w [Hf Hd]. split.
  - intros c id. cbn. rewrite K. apply Hf.
  - intros c c' id. cbn. rewrite !K. apply Hd.
Qed.

Lemma handlesOk_cancel (c : Callback) :
  preserves handlesOk (cancel (handleFor c) (setHandleFor c)).
Proof.
  intros w [Hf Hd]. unfold cancel. rewrite after_bind.
  change (result (this (handleFor c)) w) with (handleFor c (self w)).
  change (after (this (handleFor c)) w) with w.
  destruct (handleFor c (self w)) as [id|] eqn:E; [|now split].
  split.
  - intros c1 id1. cbn. destruct (Callback_eqb c1 c) eqn:Q.
    + assert (c1 = c) as -> by (destruct c1, c; (discriminate || reflexivity)).
      now rewrite handleFor_set_same.
    + rewrite handleFor_set_other; [apply Hf|].
      intros ->; destruct c; discriminate.
  - intros c1 c2 id1. cbn.
    destruct (Callback_eqb c1 c) eqn:Q1.
    { assert (c1 = c) as -> by (destruct c1, c; (discriminate || reflexivity)).
      now rewrite handleFor_set_same. }
    destruct (Callback_eqb c2 c) eqn:Q2.
    { assert (c2 = c) as -> by (destruct c2, c; (discriminate || reflexivity)).
      intros _. now rewrite handleFor_set_same. }
    rewrite !handleFor_set_other; [apply Hd| |];
      intros ->; destruct c; discriminate.
Qed.

Lemma handlesOk_arm (c : Callback) (delayField : VAD -> Z) :
  preserves handlesOk (arm (handleFor c) (setHandleFor c) c delayField).
Proof.
  intros w [Hf Hd]. unfold arm. rewrite after_bind.
  change (result (this (handleFor c)) w) with (handleFor c (self w)).
  change (after (this (handleFor c)) w) with w.
  destruct (handleFor c (self w)) as [id|] eqn:E; [now split|].
  split.
  - intros c1 id1. cbn. destruct (Callback_eqb c1 c) eqn:Q.
    + assert (c1 = c) as -> by (destruct c1, c; (discriminate || reflexivity)).
      rewrite handleFor_set_same. intros [= <-]. lia.
    + rewrite handleFor_set_other; [|intros ->; destruct c; discriminate].
      intros H. apply Hf in H. lia.
  - intros c1 c2 id1. cbn.
    destruct (Callback_eqb c1 c) eqn:Q1; destruct (Callback_eqb c2 c) eqn:Q2.
    + intros _ _. destruct c1, c2, c; (discriminate || reflexivity).
    + assert (c1 = c) as -> by (destruct c1, c; (discriminate || reflexivity)).
      rewrite handleFor_set_same.
      rewrite handleFor_set_other; [|intros ->; destruct c; discriminate].
      intros [= <-] H. apply Hf in H. lia.
    + assert (c2 = c) as -> by (destruct c2, c; (discriminate || reflexivity)).
      rewrite handleFor_set_same.
      rewrite handleFor_set_other; [|intros ->; destruct c; discriminate].
      intros H [= <-]. apply Hf in H. lia.
    + rewrite !handleFor_set_other; [apply Hd| |];
        intros ->; destruct c; discriminate.
Qed.

End HandlesOk.

Ltac handles_leaf :=
  idtac;
  lazymatch goal with
  | |- preserves _ (cancel speechStartTimer _) => exact (handlesOk_cancel OnSpeechStartTimer)
  | |- preserves _ (cancel speechEndTimer _) => exact (handlesOk_cancel OnSpeechEndTimer)
  | |- preserves _ (cancel silenceTimer _) => exact (handlesOk_cancel OnSilenceTimer)
  | |- preserves _ (arm speechStartTimer _ _ _) => exact (handlesOk_arm OnSpeechStartTimer _)
  | |- preserves _ (arm speechEndTimer _ _ _) => exact (handlesOk_arm OnSpeechEndTimer _)
  | |- preserves _ (arm silenceTimer _ _ _) => exact (handlesOk_arm OnSilenceTimer _)
  | |- preserves _ (assign _) => apply handlesOk_assign; keeps_handles
  end.

Section HandlesOkMethods.

Lemma handlesOk_processFrame (frame : Float32Array) :
  preserves handlesOk (processFrame frame).
Proof. unfold_methods. pres_with handles_leaf. Qed.

Lemma handlesOk_reset : preserves handlesOk reset.
Proof. unfold_methods. pres_with handles_leaf. Qed.

Lemma handlesOk_processAccepted (audioData : Float32Array) :
  preserves handlesOk (processAccepted audioData).
Proof.
  apply preserves_processAccepted;
    [apply handlesOk_processFrame | intros b |]; handles_leaf.
Qed.

Lemma handlesOk_fire (t : Timer) : preserves handlesOk (fire t).
Proof.
  unfold fire. apply preserves_bind.
  - intros w H; exact H.
  - intros _. destruct (cb t); cbn [runCallback]; unfold_methods.
    + pres_with handles_leaf.
    + pres_with handles_leaf.
    + pres_with ltac:(first [exact (handlesOk_cancel OnSilenceTimer) | handles_leaf]).
      intros w [Hf Hd]. split.
      * intros c id. destruct c; cbn; try apply (Hf OnSpeechStartTimer);
          try apply (Hf OnSpeechEndTimer); discriminate.
      * intros c c' id. destruct c, c'; cbn; try discriminate; try reflexivity;
          [apply (Hd OnSpeechStartTimer OnSpeechEndTimer)
          |apply (Hd OnSpeechEndTimer OnSpeechStartTimer)].
Qed.

Lemma handlesOk_advanceTimersByTime (ms : Z) :
  preserves handlesOk (advanceTimersByTime ms).
Proof.
  apply preserves_advanceTimersByTime.
  - intros t w H _. now apply handlesOk_fire.
  - intros w n H; exact H.
Qed.

End HandlesOkMethods.

(* ================================================================== *)
(** * Properties of the fields along the methods *)
(* ================================================================== *)

Section OnSelfMethods.
Variable Pv : VAD -> Prop.

Lemma onSelf_fire (t : Timer) :
  preserves (onSelf Pv) (runCallback (cb t)) -> preserves (onSelf Pv) (fire t).
Proof.
  intros H. unfold fire. apply preserves_bind; [|intros _; exact H].
  intros w Hw; exact Hw.
Qed.

Lemma onSelf_advanceTimersByTime (ms : Z) :
  (forall c, preserves (onSelf Pv) (runCallback c)) ->
  preserves (onSelf Pv) (advanceTimersByTime ms).
Proof.
  intros H. apply preserves_advanceTimersByTime.
  - intros t w Hw _. now apply onSelf_fire.
  - intros w n Hw; exact Hw.
Qed.

End OnSelfMethods.

(** An assignment in a method body keeps a property that only reads fields
    the assignment does not write. *)
Ltac upd_solve :=
  repeat match goal with
         | |- context [updateNoiseFloor _ ?d _] => is_var d; destruct d
         end;
  cbn in *; auto.

Lemma configured_same (v v' : VAD) :
  sameSettings v v' -> configured v -> configured v'.
Proof.
  intros (E1 & E2 & E3 & E4 & E5 & E6). unfold configured.
  rewrite E1, E2, E3, E4, E5, E6. trivial.
Qed.

Ltac settings_kept :=
  idtac;
  match goal with
  | H : configured ?v |- configured _ =>
      apply (configured_same (v := v)); [|exact H];
      repeat match goal with
             | |- context [updateNoiseFloor _ ?d _] => is_var d; destruct d
             end;
      repeat split
  end.

Section Configured.

Lemma configured_processFrame (frame : Float32Array) :
  preserves (onSelf configured) (processFrame frame).
Proof.
  unfold_methods.
  pres_with ltac:(self_leaf settings_kept).
Qed.

Lemma configured_runCallback (c : Callback) :
  preserves (onSelf configured) (runCallback c).
Proof.
  destruct c; cbn [runCallback]; unfold_methods;
    pres_with ltac:(self_leaf settings_kept).
Qed.

Lemma configured_reset : preserves (onSelf configured) reset.
Proof.
  unfold_methods.
  pres_with ltac:(self_leaf settings_kept).
Qed.

Lemma configured_processAccepted (audioData : Float32Array) :
  preserves (onSelf configured) (processAccepted audioData).
Proof.
  apply preserves_processAccepted;
    [apply configured_processFrame | intros b |];
    self_leaf settings_kept.
Qed.

Lemma configured_updateConfig (config : ConfigUpdate) (v : VAD) :
  configured v -> configured (updateConfig config v).
Proof. intros H. apply (configured_same (v := v)); [repeat split | exact H]. Qed.

Lemma configured_constructor (config : AudioConfig) :
  configured (constructor config).
Proof. repeat split. Qed.

End Configured.

(* ================================================================== *)
(** * Blocks the engine takes, and blocks it refuses *)
(* ================================================================== *)

Section Spread.
Context {engine : Engine}.

Lemma processAudio_thrown (audioData : Float32Array) (w : World) :
  maxArguments < Z.of_nat (length audioData) ->
  processAudio audioData w = (Thrown RangeError, w, []).
Proof.
  intros Hover. unfold processAudio.
  now rewrite (proj2 (Z.ltb_lt _ _) Hover).
Qed.

Lemma processAudio_taken (audioData : Float32Array) (w : World) :
  accepted audioData ->
  processAudio audioData w
  = (match result (processAccepted audioData) w with
     | Some frames => Returned frames
     | None => Hangs
     end,
     after (processAccepted audioData) w,
     events (processAccepted audioData) w).
Proof.
  intros Hfits. unfold processAudio, accepted in *.
  rewrite (proj2 (Z.ltb_ge _ _) Hfits).
  unfold bind, ret, result, after, events.
  destruct (processAccepted audioData w) as [[r w'] out]. cbn [fst snd].
  now rewrite app_nil_r.
Qed.

Lemma step_ProcessAudio (audioData : Float32Array) (w : World) :
  step (ProcessAudio audioData) w
  = if (maxArguments <? Z.of_nat (length audioData))%Z then None
    else
      let '(r, w', out) := processAccepted audioData w in
      match r with
      | Some frames =>
          Some (w', map (fun fd => Decided (snd fd)) frames ++ map Emitted out)
      | None => None
      end.
Proof.
  cbn [step]. unfold processAudio.
  destruct (maxArguments <? Z.of_nat (length audioData))%Z; [reflexivity|].
  unfold bind, ret.
  destruct (processAccepted audioData w) as [[r w'] out].
  rewrite app_nil_r. now destruct r.
Qed.

(** A step that returned was given a block the engine takes. *)
Lemma step_ProcessAudio_accepted (audioData : Float32Array) (w w' : World)
      (tr : list Obs) :
  step (ProcessAudio audioData) w = Some (w', tr) -> accepted audioData.
Proof.
  rewrite step_ProcessAudio. unfold accepted.
  destruct (maxArguments <? Z.of_nat (length audioData))%Z eqn:C; [discriminate|].
  intros _. now apply Z.ltb_ge.
Qed.

End Spread.

(** The [ProcessAudio] case of a proof by cases on a step that returned. *)
Ltac taken_block :=
  rewrite step_ProcessAudio;
  destruct (maxArguments <? _)%Z; [discriminate|].

Section WellFormed.
Context {engine : Engine}.

Lemma wellFormed_boot (t0 : Z) (config : AudioConfig) :
  wellFormed (boot t0 config).
Proof.
  split; [constructor | split; [|apply configured_constructor]].
  split.
  - intros []; discriminate.
  - intros [] c' id; discriminate.
Qed.

Lemma wellFormed_preserved {A} (m : M A) :
  preserves owned m -> preserves handlesOk m -> preserves (onSelf configured) m ->
  preserves wellFormed m.
Proof.
  intros Ho Hh Hc w (H1 & H2 & H3).
  split; [|split]; [apply Ho | apply Hh | apply Hc]; assumption.
Qed.

Lemma wellFormed_processFrame (frame : Float32Array) :
  preserves wellFormed (processFrame frame).
Proof.
  apply wellFormed_preserved;
    [apply owned_processFrame | apply handlesOk_processFrame | apply configured_processFrame].
Qed.

Lemma wellFormed_processAccepted (audioData : Float32Array) :
  preserves wellFormed (processAccepted audioData).
Proof.
  apply wellFormed_preserved;
    [apply owned_processAccepted | apply handlesOk_processAccepted | apply configured_processAccepted].
Qed.

Lemma wellFormed_reset : preserves wellFormed reset.
Proof.
  apply wellFormed_preserved;
    [apply owned_reset | apply handlesOk_reset | apply configured_reset].
Qed.

Lemma wellFormed_advanceTimersByTime (ms : Z) :
  preserves wellFormed (advanceTimersByTime ms).
Proof.
  apply wellFormed_preserved;
    [apply owned_advanceTimersByTime | apply handlesOk_advanceTimersByTime |].
  apply onSelf_advanceTimersByTime, configured_runCallback.
Qed.

Lemma wellFormed_updateConfig (config : ConfigUpdate) (w : World) :
  wellFormed w -> wellFormed (mkWorld (rt w) (updateConfig config (self w))).
Proof.
  intros (Ho & [Hf Hd] & Hc). split; [|split; [split|]].
  - unfold owned in *; cbn. eapply Forall_impl; [|exact Ho].
    intros t Ht; cbn in Ht. destruct (cb t); exact Ht.
  - intros c id; destruct c; cbn; [apply (Hf OnSpeechStartTimer)
      | apply (Hf OnSpeechEndTimer) | apply (Hf OnSilenceTimer)].
  - intros c c' id H H'. apply (Hd c c' id); destruct c, c'; assumption.
  - apply configured_updateConfig, Hc.
Qed.

Lemma wellFormed_step (a : Action) (w w' : World) (tr : list Obs) :
  wellFormed w -> step a w = Some (w', tr) -> wellFormed w'.
Proof.
  intros Hw. destruct a; [taken_block | cbn [step] ..].
  - destruct (processAccepted audioData w) as [[r w1] out] eqn:E.
    destruct r; [|discriminate]. intros [= <- _].
    replace w1 with (after (processAccepted audioData) w) by (unfold after; now rewrite E).
    now apply wellFormed_processAccepted.
  - destruct (processFrame frame w) as [[r w1] out] eqn:E. intros [= <- _].
    replace w1 with (after (processFrame frame) w) by (unfold after; now rewrite E).
    now apply wellFormed_processFrame.
  - destruct (advanceTimersByTime ms w) as [[r w1] out] eqn:E. intros [= <- _].
    replace w1 with (after (advanceTimersByTime ms) w) by (unfold after; now rewrite E).
    now apply wellFormed_advanceTimersByTime.
  - destruct (reset w) as [[r w1] out] eqn:E. intros [= <- _].
    replace w1 with (after reset w) by (unfold after; now rewrite E).
    now apply wellFormed_reset.
  - intros [= <- _]. now apply wellFormed_updateConfig.
  - now intros [= <- _].
Qed.

Lemma wellFormed_run (script : list Action) :
  forall w w' tr, wellFormed w -> run script w = Some (w', tr) -> wellFormed w'.
Proof.
  induction script as [|a script IH]; intros w w' tr Hw; cbn [run].
  - now intros [= <- _].
  - destruct (step a w) as [[w1 o1]|] eqn:E; [|discriminate].
    destruct (run script w1) as [[w2 o2]|] eqn:R; [|discriminate].
    intros [= <- _]. eapply IH; [|exact R]. eapply wellFormed_step; eauto.
Qed.

End WellFormed.

(* ================================================================== *)
(** * reset() *)
(* ================================================================== *)

Section ResetFacts.

Lemma owned_no_handles (w : World) :
  owned w ->
  (forall c, handleFor c (self w) = None) ->
  queue (rt w) = [].
Proof.
  unfold owned. intros Ho Hn. destruct (queue (rt w)) as [|t q]; [reflexivity|].
  inversion Ho as [|? ? Ht _]; subst. now rewrite Hn in Ht.
Qed.

Lemma reset_fields (w : World) :
  let w' := after reset w in
  self w' =
  set_frameBuffer [] (set_audioBuffer [] (set_lastSpeechTime None
    (set_speechEndTime None (set_speechStartTime None (set_isSpeaking false
      (set_silenceTimer None (set_speechEndTimer None
        (set_speechStartTimer None (self w)))))))))
  /\ now (rt w') = now (rt w)
  /\ nextId (rt w') = nextId (rt w)
  /\ events reset w = [].
Proof.
  destruct w as [[n q i] v].
  destruct v as [sr fs et ssd sed maxd mind sto spk sst set_ lst ab fb nf at_ sstT seT siT].
  unfold reset, cancel, after, events, bind, this, assign, clearTimeout, skip, ret.
  destruct sstT, seT, siT; cbn; repeat split; reflexivity.
Qed.

Lemma reset_clears_queue (w : World) :
  owned w -> queue (rt (after reset w)) = [].
Proof.
  intros Ho. apply owned_no_handles; [now apply owned_reset|].
  destruct (reset_fields w) as (-> & _). intros []; reflexivity.
Qed.

Lemma reset_is_freshCalibrated (w : World) :
  wellFormed w -> after reset w = freshCalibrated w.
Proof.
  intros (Ho & _ & Hc).
  pose proof (reset_clears_queue Ho) as Hq.
  destruct (reset_fields w) as (Hs & Hn & Hi & _).
  destruct (after reset w) as [[n q i] v]. cbn in *. subst n q i v.
  unfold freshCalibrated, freshLike. cbn. f_equal.
  destruct Hc as (H1 & H2 & H3 & H4 & H5).
  destruct w as [r v]; destruct v; cbn in *. subst. reflexivity.
Qed.

End ResetFacts.

(** C2, as the code has it.  [reset()] emits nothing, leaves no timer
    pending, and puts a well-formed instance in exactly the state of a
    freshly constructed one with the same configuration except that
    [noiseFloor] and [adaptiveThreshold] keep the values reached before the
    reset; whatever is fed afterwards is therefore observed exactly as on
    such an instance. *)
Theorem reset_behaves_as_fresh_with_kept_calibration {engine : Engine}
        (w : World) (script : list Action) :
  wellFormed w ->
  events reset w = []
  /\ queue (rt (after reset w)) = []
  /\ after reset w = freshCalibrated w
  /\ run script (after reset w) = run script (freshCalibrated w).
Proof.
  intros Hw. pose proof (reset_is_freshCalibrated Hw) as E.
  repeat split.
  - apply reset_fields.
  - now rewrite E.
  - exact E.
  - now rewrite E.
Qed.

(* ================================================================== *)
(** * Symbolic execution of a method body *)
(* ================================================================== *)

(** Unfold the method down to the runtime primitives, keeping the numeric
    parts (energy, decision, typed-array conversion) folded. *)
Ltac symex :=
  unfold_methods;
  unfold cancel, arm, skip, bind, ret, this, assign, emit, Date_now,
    setTimeout, clearTimeout, after, events, result;
  cbn -[detectSpeech calculateEnergy newFloat32Array dropTimer timerDelay
        Z.sub Z.add Z.leb Z.eqb Z.max].

Ltac symex_more :=
  cbn -[detectSpeech calculateEnergy newFloat32Array dropTimer timerDelay
        Z.sub Z.add Z.leb Z.eqb Z.max].

(** Follow the branch the hypotheses select; split on the timer fields. *)
Ltac branch :=
  repeat (first
    [ match goal with
      | H : ?x = _ |- context [?x] => rewrite H
      end
    | match goal with
      | |- context [match ?x with Some _ => _ | None => _ end] =>
          is_var x; destruct x
      end
    | match goal with
      | |- context [truthyTime ?x] => is_var x; destruct x
      end
    | match goal with
      | |- context [if ?b then _ else _] =>
          lazymatch b with
          | true => fail
          | false => fail
          | _ => destruct b eqn:?
          end
      end ];
    symex_more).

Section PendingFacts.

Lemma Callback_eqb_eq (a b : Callback) : Callback_eqb a b = true <-> a = b.
Proof. destruct a, b; cbn; split; (discriminate || reflexivity). Qed.

Lemma In_pendingFor (c : Callback) (w : World) (t : Timer) :
  In t (pendingFor c w) <-> In t (queue (rt w)) /\ cb t = c.
Proof. unfold pendingFor. now rewrite filter_In, Callback_eqb_eq. Qed.

End PendingFacts.

(* ================================================================== *)
(** * Forced cut at the maximum duration, and the offset timer *)
(* ================================================================== *)

(** C3. While speech is confirmed ([isSpeaking], with a recorded, non-zero
    start time [t0]) and [maxChunkDuration] ms or more have passed since
    [t0], processing a frame -- whatever it is classified as -- emits
    ['speechEnd'] with reason [max_duration] (the minimum-duration test
    cannot fail, the minimum being at most the maximum), carrying
    everything buffered including this frame, and then ['speechStart']
    [{reason: 'continued'}]: the detector is speaking again at once, with
    the current time as the new start and an empty buffer, and no onset
    timer has been scheduled. *)
Theorem processFrame_forces_end_at_max_duration
        (w : World) (frame : Float32Array) (t0 : Z) :
  isSpeaking (self w) = true ->
  speechStartTime (self w) = Some t0 ->
  t0 <> 0 ->
  minChunkDuration (self w) <= maxChunkDuration (self w) ->
  maxChunkDuration (self w) <= now (rt w) - t0 ->
  let w' := after (processFrame frame) w in
  events (processFrame frame) w =
    [SpeechEnd (mkSpeechEndData (newFloat32Array (audioBuffer (self w) ++ frame))
                                (now (rt w) - t0) (Some t0) max_duration);
     SpeechStart true]
  /\ isSpeaking (self w') = true
  /\ speechStartTime (self w') = Some (now (rt w))
  /\ audioBuffer (self w') = []
  /\ (forall t, In t (pendingFor OnSpeechStartTimer w') ->
                In t (pendingFor OnSpeechStartTimer w)).
Proof.
  intros Hs Ht Hz Hmin Hmax.
  destruct w as [[n q i] v].
  destruct v as [sr fs et ssd sed maxd mind sto spk sst set_ lst ab fb nf at_ sstT seT siT].
  cbn in Hs, Ht, Hmin, Hmax. subst spk sst.
  assert (Hd : (maxd <=? n - t0) = true) by (apply Z.leb_le; lia).
  assert (Hm : (mind <=? n - t0) = true) by (apply Z.leb_le; lia).
  assert (Hz' : (t0 =? 0) = false) by (now apply Z.eqb_neq).
  cbv zeta. symex.
  destruct (detectSpeech _ _) eqn:D; symex_more; branch;
    (repeat split; try reflexivity; [idtac]);
    intros t; rewrite !filter_In; repeat rewrite in_app_iff;
    repeat rewrite In_dropTimer; cbn [In];
    intros [H Hc]; (split; [|exact Hc]);
    intuition auto; subst t; discriminate Hc.
Qed.

Lemma processFrame_forces_end_at_max_duration_witness :
  let w := mkWorld (mkRuntime 1003300 [] 1)
                   (set_speechStartTimer (Some 0%nat)
                      (set_speechStartTime (Some 1000300)
                         (set_isSpeaking true
                            (constructor (mkAudioConfig 16000 0.01%float 10000))))) in
  events (processFrame [0.5%float; 0.5%float]) w =
    [SpeechEnd (mkSpeechEndData [0.5%float; 0.5%float] 3000 (Some 1000300) max_duration);
     SpeechStart true].
Proof.
  cbv zeta.
  apply (processFrame_forces_end_at_max_duration
           (mkWorld (mkRuntime 1003300 [] 1)
                    (set_speechStartTimer (Some 0%nat)
                       (set_speechStartTime (Some 1000300)
                          (set_isSpeaking true
                             (constructor (mkAudioConfig 16000 0.01%float 10000))))))
           [0.5%float; 0.5%float] (t0 := 1000300));
    cbn; (reflexivity || lia).
Defined.

(** C4. When the offset timer fires while speech is confirmed, ['speechEnd']
    is emitted -- with the buffered samples as a Float32Array, the elapsed
    time since the recorded start as duration, that start as timestamp and
    reason [silence] -- exactly when the elapsed time is at least
    [minChunkDuration]; otherwise nothing is emitted.  Either way the
    buffer is emptied, the start time is cleared and the detector is no
    longer speaking. *)
Theorem offset_timer_finalizes_segment (w : World) (t : Timer) (t0 : Z) :
  cb t = OnSpeechEndTimer ->
  isSpeaking (self w) = true ->
  speechStartTime (self w) = Some t0 ->
  let elapsed := Z.max (now (rt w)) (due t) - t0 in
  let w' := after (fire t) w in
  events (fire t) w =
    (if minChunkDuration (self w) <=? elapsed
     then [SpeechEnd (mkSpeechEndData (newFloat32Array (audioBuffer (self w)))
                                      elapsed (Some t0) silence)]
     else [])
  /\ audioBuffer (self w') = []
  /\ isSpeaking (self w') = false
  /\ speechStartTime (self w') = None.
Proof.
  intros Hc Hs Ht.
  destruct w as [[n q i] v].
  destruct v as [sr fs et ssd sed maxd mind sto spk sst set_ lst ab fb nf at_ sstT seT siT].
  cbn in Hs, Ht. subst spk sst.
  cbv zeta. unfold fire. rewrite Hc. symex.
  destruct (mind <=? Z.max n (due t) - t0); symex_more; repeat split; reflexivity.
Qed.

Lemma offset_timer_finalizes_segment_witness :
  let w := mkWorld (mkRuntime 1000400 [mkTimer 1 1001400 OnSpeechEndTimer] 2)
                   (set_audioBuffer [0.5%float]
                      (set_speechEndTimer (Some 1%nat)
                         (set_speechStartTime (Some 1000300)
                            (set_isSpeaking true
                               (constructor (mkAudioConfig 16000 0.01%float 10000)))))) in
  events (fire (mkTimer 1 1001400 OnSpeechEndTimer)) w
  = [SpeechEnd (mkSpeechEndData [0.5%float] 1100 (Some 1000300) silence)]
  /\ isSpeaking (self (after (fire (mkTimer 1 1001400 OnSpeechEndTimer)) w)) = false.
Proof.
  cbv zeta.
  pose proof (offset_timer_finalizes_segment
                (mkWorld (mkRuntime 1000400 [mkTimer 1 1001400 OnSpeechEndTimer] 2)
                   (set_audioBuffer [0.5%float]
                      (set_speechEndTimer (Some 1%nat)
                         (set_speechStartTime (Some 1000300)
                            (set_isSpeaking true
                               (constructor (mkAudioConfig 16000 0.01%float 10000)))))))
                (mkTimer 1 1001400 OnSpeechEndTimer) (t0 := 1000300)
                eq_refl eq_refl eq_refl) as (He & _ & Hs & _).
  split; [exact He | exact Hs].
Defined.

(* ================================================================== *)
(** * What a frame and a timer can change *)
(* ================================================================== *)

Ltac stable_leaf Hst :=
  idtac;
  lazymatch goal with
  | |- preserves _ (cancel _ _) =>
      apply onSelf_cancel; intros ? Hv; apply (Hst _ Hv)
  | |- preserves _ (arm _ _ _ _) =>
      apply onSelf_arm; intros ? ? Hv; apply (Hst _ Hv)
  | |- preserves _ (assign (fun v => set_audioBuffer _ v)) =>
      apply onSelf_assign; intros ? Hv; apply (Hst _ Hv)
  | |- preserves _ (assign _) =>
      apply onSelf_assign; intros ? Hv; apply (Hst _ Hv)
  | |- preserves _ (setTimeout _ _) => apply onSelf_setTimeout
  | |- preserves _ (clearTimeout _) => apply onSelf_clearTimeout
  end.

Section Stable.
Variable Pv : VAD -> Prop.
Hypothesis Hst : stable Pv.

Lemma stable_runCallback (c : Callback) : preserves (onSelf Pv) (runCallback c).
Proof.
  destruct c; cbn [runCallback]; unfold_methods; pres_with ltac:(stable_leaf Hst).
Qed.

Lemma stable_fire (t : Timer) : preserves (onSelf Pv) (fire t).
Proof. apply onSelf_fire, stable_runCallback. Qed.

Lemma stable_advanceTimersByTime (ms : Z) :
  preserves (onSelf Pv) (advanceTimersByTime ms).
Proof. apply onSelf_advanceTimersByTime, stable_runCallback. Qed.

(** [processFrame] returns the decision it took on entry. *)
Lemma result_processFrame (frame : Float32Array) (w : World) :
  result (processFrame frame) w = detectSpeech (self w) (calculateEnergy frame).
Proof.
  unfold processFrame. cbv zeta. repeat rewrite result_bind. reflexivity.
Qed.

(** Apart from the threshold update, [processFrame] only assigns
    segmentation state. *)
Lemma stable_processFrame (frame : Float32Array) (w : World) :
  Pv (updateNoiseFloor (calculateEnergy frame)
        (detectSpeech (self w) (calculateEnergy frame)) (self w)) ->
  Pv (self (after (processFrame frame) w)).
Proof.
  intros H. unfold processFrame. cbv zeta.
  rewrite after_bind.
  change (result (this (fun v => detectSpeech v (calculateEnergy frame))) w)
    with (detectSpeech (self w) (calculateEnergy frame)).
  change (after (this (fun v => detectSpeech v (calculateEnergy frame))) w) with w.
  rewrite after_bind.
  match goal with
  | |- Pv (self (after ?m ?w1)) =>
      assert (Hp : preserves (onSelf Pv) m)
        by (unfold_methods; pres_with ltac:(stable_leaf Hst));
      apply (Hp w1)
  end.
  exact H.
Qed.

End Stable.

(* ================================================================== *)
(** * The frame assembler loop *)
(* ================================================================== *)

Section ProcessLoop.

Lemma processLoop_S (fuel : nat) (w : World) :
  processLoop (S fuel) w =
  if frameSize (self w) <=? Z.of_nat (length (frameBuffer (self w)))
  then
    let k := Z.to_nat (frameSize (self w)) in
    let frame := newFloat32Array (firstn k (frameBuffer (self w))) in
    let w1 := mkWorld (rt w) (set_frameBuffer (skipn k (frameBuffer (self w))) (self w)) in
    let w2 := after (processFrame frame) w1 in
    (option_map (cons (frame, result (processFrame frame) w1))
                (result (processLoop fuel) w2),
     after (processLoop fuel) w2,
     events (processFrame frame) w1 ++ events (processLoop fuel) w2)
  else (Some [], w, []).
Proof.
  cbn [processLoop]. unfold bind, this, assign, ret, splice0, result, after, events.
  cbn beta iota zeta.
  destruct (frameSize (self w) <=? Z.of_nat (length (frameBuffer (self w))));
    [|reflexivity].
  destruct (processFrame _ _) as [[d w2] o2]. cbn [fst snd].
  destruct (processLoop fuel w2) as [[more w3] o3]. cbn [fst snd app].
  now rewrite app_nil_r.
Qed.

End ProcessLoop.

Section Assembler.

Lemma assemblerIs_stable (b : list float) (size : Z) : stable (assemblerIs b size).
Proof. intros v H. repeat split; intros; apply H. Qed.

Lemma processFrame_keeps_assembler (frame : Float32Array) (w : World) :
  frameBuffer (self (after (processFrame frame) w)) = frameBuffer (self w)
  /\ frameSize (self (after (processFrame frame) w)) = frameSize (self w).
Proof.
  apply (@stable_processFrame _ (@assemblerIs_stable (frameBuffer (self w)) (frameSize (self w)))).
  destruct (detectSpeech _ _); split; reflexivity.
Qed.

Lemma advance_keeps_assembler (ms : Z) (w : World) :
  frameBuffer (self (after (advanceTimersByTime ms) w)) = frameBuffer (self w)
  /\ frameSize (self (after (advanceTimersByTime ms) w)) = frameSize (self w).
Proof.
  apply (@stable_advanceTimersByTime _ (@assemblerIs_stable (frameBuffer (self w)) (frameSize (self w)))).
  now split.
Qed.

Lemma Forall_firstn_skipn {A} (P : A -> Prop) (n : nat) (l : list A) :
  Forall P l -> Forall P (firstn n l) /\ Forall P (skipn n l).
Proof.
  intros H. rewrite <- (firstn_skipn n l) in H. now apply Forall_app in H.
Qed.

Lemma map_fround_float32 (l : list float) :
  Forall isFloat32 l -> map JS.fround l = l.
Proof.
  induction 1 as [|x l Hx _ IH]; cbn [map]; [reflexivity|].
  unfold isFloat32 in Hx. now rewrite Hx, IH.
Qed.

(** Enough fuel reaches the exit of the loop when frames are not empty; the
    frames handed over are the Float32Array conversions of consecutive
    chunks of the buffer, and fewer than [frameSize] samples stay behind. *)
Lemma processLoop_returns (fuel : nat) :
  forall w,
    1 <= frameSize (self w) ->
    (length (frameBuffer (self w)) < fuel)%nat ->
    exists frames cut,
      result (processLoop fuel) w = Some frames
      /\ concat (map fst frames) = newFloat32Array (firstn cut (frameBuffer (self w)))
      /\ frameBuffer (self (after (processLoop fuel) w)) = skipn cut (frameBuffer (self w))
      /\ Z.of_nat (length (frameBuffer (self (after (processLoop fuel) w))))
         < frameSize (self w)
      /\ frameSize (self (after (processLoop fuel) w)) = frameSize (self w).
Proof.
  induction fuel as [|fuel IH]; intros w Hsize Hfuel; [lia|].
  unfold result, after. rewrite processLoop_S.
  destruct (frameSize (self w) <=? Z.of_nat (length (frameBuffer (self w)))) eqn:C.
  - apply Z.leb_le in C. cbv zeta. cbn [fst snd].
    set (k := Z.to_nat (frameSize (self w))).
    set (frame := newFloat32Array (firstn k (frameBuffer (self w)))).
    set (w1 := mkWorld (rt w) (set_frameBuffer (skipn k (frameBuffer (self w))) (self w))).
    destruct (processFrame_keeps_assembler frame w1) as [Hb Hs].
    change (frameBuffer (self w1)) with (skipn k (frameBuffer (self w))) in Hb.
    change (frameSize (self w1)) with (frameSize (self w)) in Hs.
    assert (Hk : (1 <= k <= length (frameBuffer (self w)))%nat) by (subst k; lia).
    destruct (IH (after (processFrame frame) w1)) as (frames & cut & Hr & Hc & Hrem & Hlt & Hfs).
    { now rewrite Hs. }
    { rewrite Hb, length_skipn. lia. }
    exists ((frame, result (processFrame frame) w1) :: frames), (k + cut)%nat.
    rewrite Hb in Hc, Hrem. rewrite Hs in Hlt, Hfs.
    rewrite Hr, Hrem. repeat split.
    + cbn [map fst concat]. rewrite Hc. subst frame. unfold newFloat32Array.
      rewrite <- map_app. f_equal.
      rewrite <- (firstn_skipn k (frameBuffer (self w))) at 3.
      rewrite firstn_app, firstn_firstn, length_firstn.
      replace (Nat.min (k + cut) k) with k by lia.
      replace (k + cut - Nat.min k (length (frameBuffer (self w))))%nat with cut by lia.
      reflexivity.
    + rewrite skipn_skipn. f_equal. lia.
    + rewrite <- Hrem. exact Hlt.
    + exact Hfs.
  - apply Z.leb_gt in C. exists [], 0%nat. cbn [fst snd]. repeat split.
    exact C.
Qed.

(** With [frameSize <= 0] the loop never reaches its exit. *)
Lemma processLoop_diverges (fuel : nat) :
  forall w, frameSize (self w) <= 0 -> result (processLoop fuel) w = None.
Proof.
  induction fuel as [|fuel IH]; intros w Hsize; [reflexivity|].
  unfold result. rewrite processLoop_S.
  assert (C : (frameSize (self w) <=? Z.of_nat (length (frameBuffer (self w)))) = true)
    by (apply Z.leb_le; lia).
  rewrite C. cbv zeta. cbn [fst].
  rewrite IH; [reflexivity|].
  now rewrite (proj2 (processFrame_keeps_assembler _ _)).
Qed.

Lemma processAccepted_run (audioData : Float32Array) (w : World) :
  processAccepted audioData w =
  processLoop (S (length (frameBuffer (self w)) + length audioData))
    (mkWorld (rt w) (set_frameBuffer (frameBuffer (self w) ++ audioData) (self w))).
Proof.
  unfold processAccepted, processAudioFuel, bind, this, assign. cbn beta iota.
  destruct (processLoop _ _) as [[r w'] o]. reflexivity.
Qed.

Lemma processAccepted_returns (audioData : Float32Array) (w : World) :
  1 <= frameSize (self w) ->
  exists frames cut,
    result (processAccepted audioData) w = Some frames
    /\ concat (map fst frames)
       = newFloat32Array (firstn cut (frameBuffer (self w) ++ audioData))
    /\ frameBuffer (self (after (processAccepted audioData) w))
       = skipn cut (frameBuffer (self w) ++ audioData)
    /\ Z.of_nat (length (frameBuffer (self (after (processAccepted audioData) w))))
       < frameSize (self w)
    /\ frameSize (self (after (processAccepted audioData) w)) = frameSize (self w).
Proof.
  intros Hsize. unfold result, after. rewrite processAccepted_run.
  apply (processLoop_returns
           (fuel := S (length (frameBuffer (self w)) + length audioData))
           (mkWorld (rt w) (set_frameBuffer (frameBuffer (self w) ++ audioData) (self w)))).
  - exact Hsize.
  - cbn. rewrite length_app. lia.
Qed.

End Assembler.

(* ================================================================== *)
(** * Block boundaries *)
(* ================================================================== *)

Section Ignores.
Variable set : VAD -> VAD.

Lemma ignores_bind {A B} (m : M A) (k : A -> M B) :
  ignores set m -> (forall a, ignores set (k a)) -> ignores set (bind m k).
Proof.
  intros Hm Hk w. rewrite result_bind, after_bind, events_bind.
  unfold bind at 1. rewrite Hm. rewrite Hk. reflexivity.
Qed.

Lemma ignores_ret {A} (a : A) : ignores set (ret a).
Proof. intros w. reflexivity. Qed.

Lemma ignores_this {A} (f : VAD -> A) :
  (forall v, f (set v) = f v) -> ignores set (this f).
Proof. intros H w. unfold this, result, after, events. cbn. now rewrite H. Qed.

Lemma ignores_assign (upd : VAD -> VAD) :
  (forall v, upd (set v) = set (upd v)) -> ignores set (assign upd).
Proof.
  intros H w. unfold assign, result, after, events, lift. cbn. now rewrite H.
Qed.

Lemma ignores_emit (e : Event) : ignores set (emit e).
Proof. intros w. reflexivity. Qed.

Lemma ignores_Date_now : ignores set Date_now.
Proof. intros w. reflexivity. Qed.

Lemma ignores_setTimeout (c : Callback) (delay : Z) : ignores set (setTimeout c delay).
Proof. intros w. reflexivity. Qed.

Lemma ignores_clearTimeout (id : nat) : ignores set (clearTimeout id).
Proof. intros w. reflexivity. Qed.

End Ignores.

(** Decompose a method body; the side conditions on field reads and
    assignments hold by computation for a concrete field. *)
Ltac ignores_with leaf :=
  cbv zeta;
  repeat lazymatch goal with
    | |- ignores _ (bind _ _) => apply ignores_bind; [|intros ?]
    | |- ignores _ (ret _) => apply ignores_ret
    | |- ignores _ (emit _) => apply ignores_emit
    | |- ignores _ Date_now => apply ignores_Date_now
    | |- ignores _ (setTimeout _ _) => apply ignores_setTimeout
    | |- ignores _ (clearTimeout _) => apply ignores_clearTimeout
    | |- ignores _ (this _) => apply ignores_this; intros; reflexivity
    | |- ignores _ (assign (updateNoiseFloor _ ?d)) =>
        apply ignores_assign; intros; destruct d; reflexivity
    | |- ignores _ (assign _) => apply ignores_assign; intros; reflexivity
    | |- ignores _ (match ?x with _ => _ end) => destruct x
    | |- ignores _ _ => leaf
    end.

Ltac ignores_field := ignores_with fail.

Section Blocks.

Lemma processFrame_ignoresBuffer (frame : Float32Array) :
  ignoresBuffer (processFrame frame).
Proof.
  intros b. change (ignores (set_frameBuffer b) (processFrame frame)).
  unfold_methods. unfold cancel, arm, skip. ignores_field.
Qed.

Lemma withBuffer_withBuffer (b b' : list float) (w : World) :
  withBuffer b (withBuffer b' w) = withBuffer b w.
Proof. reflexivity. Qed.

Lemma withBuffer_self (w : World) : withBuffer (frameBuffer (self w)) w = w.
Proof. destruct w as [r v]; destruct v; reflexivity. Qed.

(** Fuel beyond the buffer length makes no difference. *)
Lemma processLoop_fuel (f : nat) :
  forall f' w,
    1 <= frameSize (self w) ->
    (length (frameBuffer (self w)) < f)%nat ->
    (length (frameBuffer (self w)) < f')%nat ->
    processLoop f w = processLoop f' w.
Proof.
  induction f as [|f IH]; intros f' w Hs Hf Hf'; [lia|].
  destruct f' as [|f']; [lia|].
  rewrite !processLoop_S.
  destruct (frameSize (self w) <=? Z.of_nat (length (frameBuffer (self w)))) eqn:C;
    [|reflexivity].
  apply Z.leb_le in C. cbv zeta.
  set (k := Z.to_nat (frameSize (self w))).
  set (frame := newFloat32Array (firstn k (frameBuffer (self w)))).
  set (w1 := mkWorld (rt w) (set_frameBuffer (skipn k (frameBuffer (self w))) (self w))).
  destruct (processFrame_keeps_assembler frame w1) as [Hb Hz].
  change (frameBuffer (self w1)) with (skipn k (frameBuffer (self w))) in Hb.
  change (frameSize (self w1)) with (frameSize (self w)) in Hz.
  assert (E : processLoop f (after (processFrame frame) w1)
              = processLoop f' (after (processFrame frame) w1)).
  { apply IH.
    - now rewrite Hz.
    - rewrite Hb, length_skipn. subst k. lia.
    - rewrite Hb, length_skipn. subst k. lia. }
  unfold result, after, events in *. now rewrite E.
Qed.

Lemma joinFrames_cons (x : Float32Array * bool)
      (r1 r2 : option (list (Float32Array * bool))) :
  joinFrames (option_map (cons x) r1) r2 = option_map (cons x) (joinFrames r1 r2).
Proof. destruct r1, r2; reflexivity. Qed.

(** Samples appended to the buffer behind the ones being framed can as well
    be appended after the loop has run, and the loop run again. *)
Lemma processLoop_split (f1 : nat) :
  forall w extra f,
    1 <= frameSize (self w) ->
    (length (frameBuffer (self w)) < f1)%nat ->
    (length (frameBuffer (self w)) + length extra < f)%nat ->
    let w1 := after (processLoop f1) w in
    forall f2,
      (length (frameBuffer (self w1)) + length extra < f2)%nat ->
      let w1' := withBuffer (frameBuffer (self w1) ++ extra) w1 in
      processLoop f (withBuffer (frameBuffer (self w) ++ extra) w)
      = (joinFrames (result (processLoop f1) w) (result (processLoop f2) w1'),
         after (processLoop f2) w1',
         events (processLoop f1) w ++ events (processLoop f2) w1').
Proof.
  induction f1 as [|f1 IH]; intros w extra f Hs H1 Hf; [lia|].
  destruct f as [|f]; [lia|].
  cbv zeta. intros f2. unfold result, after, events.
  rewrite (processLoop_S f1 w).
  destruct (frameSize (self w) <=? Z.of_nat (length (frameBuffer (self w)))) eqn:C.
  - rewrite (processLoop_S f).
    change (frameSize (self (withBuffer (frameBuffer (self w) ++ extra) w)))
      with (frameSize (self w)).
    change (frameBuffer (self (withBuffer (frameBuffer (self w) ++ extra) w)))
      with (frameBuffer (self w) ++ extra).
    apply Z.leb_le in C.
    assert (C' : (frameSize (self w)
                  <=? Z.of_nat (length (frameBuffer (self w) ++ extra))) = true)
      by (apply Z.leb_le; rewrite length_app; lia).
    rewrite C'. cbv zeta.
    set (k := Z.to_nat (frameSize (self w))).
    assert (Hk : (1 <= k <= length (frameBuffer (self w)))%nat) by (subst k; lia).
    rewrite firstn_app, skipn_app.
    replace (k - length (frameBuffer (self w)))%nat with 0%nat by lia.
    cbn [firstn skipn]. rewrite app_nil_r.
    set (frame := newFloat32Array (firstn k (frameBuffer (self w)))).
    set (w1 := mkWorld (rt w) (set_frameBuffer (skipn k (frameBuffer (self w))) (self w))).
    change (mkWorld (rt (withBuffer (frameBuffer (self w) ++ extra) w))
              (set_frameBuffer (skipn k (frameBuffer (self w)) ++ extra)
                 (self (withBuffer (frameBuffer (self w) ++ extra) w))))
      with (withBuffer (skipn k (frameBuffer (self w)) ++ extra) w1).
    destruct (processFrame_keeps_assembler frame w1) as [Hb Hz].
    change (frameBuffer (self w1)) with (skipn k (frameBuffer (self w))) in Hb.
    change (frameSize (self w1)) with (frameSize (self w)) in Hz.
    assert (E := IH (after (processFrame frame) w1) extra f).
    cbv zeta in E.
    unfold result, after, events in *. cbn [fst snd] in *.
    rewrite (processFrame_ignoresBuffer frame).
    unfold result, after, events. cbn [fst snd].
    set (w2 := snd (fst (processFrame frame w1))) in *.
    intros H2. rewrite <- Hb.
    rewrite (E (eq_ind_r (fun z => 1 <= z) Hs Hz)) with (f2 := f2);
      [| rewrite Hb, length_skipn; lia | rewrite Hb, length_skipn; lia | exact H2].
    cbn [fst snd]. rewrite joinFrames_cons, app_assoc. reflexivity.
  - apply Z.leb_gt in C. cbn [fst snd]. intros H2.
    rewrite (@processLoop_fuel (S f) f2); [| exact Hs | cbn; rewrite length_app; lia
                                           | cbn; rewrite length_app; exact H2].
    unfold result, after, events.
    destruct (processLoop f2 _) as [[r w'] o]. cbn. now destruct r.
Qed.

End Blocks.

Section Joined.

(** Two consecutive calls the engine takes, against one call on the joined
    block. *)
Lemma processAccepted_split (a b : Float32Array) (w : World) :
  1 <= frameSize (self w) ->
  let w1 := after (processAccepted a) w in
  (exists fa fb,
      result (processAccepted a) w = Some fa
      /\ result (processAccepted b) w1 = Some fb
      /\ result (processAccepted (a ++ b)) w = Some (fa ++ fb))
  /\ after (processAccepted (a ++ b)) w = after (processAccepted b) w1
  /\ events (processAccepted (a ++ b)) w
     = events (processAccepted a) w ++ events (processAccepted b) w1.
Proof.
  intros Hs. cbv zeta.
  destruct (processAccepted_returns a w Hs) as (fa & _ & Ha & _ & _ & _ & Hz).
  destruct (processAccepted_returns b (after (processAccepted a) w)) as (fb & _ & Hb & _);
    [now rewrite Hz|].
  assert (E : processAccepted (a ++ b) w
              = (joinFrames (result (processAccepted a) w)
                            (result (processAccepted b) (after (processAccepted a) w)),
                 after (processAccepted b) (after (processAccepted a) w),
                 events (processAccepted a) w
                 ++ events (processAccepted b) (after (processAccepted a) w))).
  { unfold result, after, events. rewrite !processAccepted_run.
    set (w0 := mkWorld (rt w) (set_frameBuffer (frameBuffer (self w) ++ a) (self w))).
    rewrite app_assoc.
    change (mkWorld (rt w)
              (set_frameBuffer ((frameBuffer (self w) ++ a) ++ b) (self w)))
      with (withBuffer (frameBuffer (self w0) ++ b) w0).
    assert (L := @processLoop_split (S (length (frameBuffer (self w)) + length a))
                   w0 b (S (length (frameBuffer (self w)) + length (a ++ b)))).
    cbv zeta in L. unfold result, after, events in L.
    apply L.
    - exact Hs.
    - cbn. rewrite length_app. lia.
    - cbn. rewrite !length_app. lia.
    - lia. }
  split; [|split].
  - exists fa, fb. split; [exact Ha|]. split; [exact Hb|].
    unfold result at 1. rewrite E. cbn [fst]. now rewrite Ha, Hb.
  - unfold after at 1. now rewrite E.
  - unfold events at 1. now rewrite E.
Qed.

End Joined.



(* ================================================================== *)
(** * The frame assembler *)
(* ================================================================== *)

Section Chunks.
Context {A : Type}.

Lemma div_step (n k : nat) :
  (1 <= k <= n)%nat -> (n / k = S ((n - k) / k))%nat.
Proof.
  intros Hk. replace n with ((n - k) + 1 * k)%nat at 1 by lia.
  rewrite Nat.div_add by lia. lia.
Qed.

Lemma chunks_length (k n : nat) :
  forall l : list A, (k * n <= length l)%nat ->
    Forall (fun c => length c = k) (chunks k n l).
Proof.
  induction n as [|n IH]; intros l Hl; cbn [chunks]; constructor.
  - rewrite length_firstn. lia.
  - apply IH. rewrite length_skipn. lia.
Qed.

Lemma chunks_concat (k n : nat) :
  forall l : list A, concat (chunks k n l) = firstn (k * n) l.
Proof.
  induction n as [|n IH]; intros l; cbn [chunks concat].
  - now rewrite Nat.mul_0_r.
  - rewrite IH. replace (k * S n)%nat with (k + k * n)%nat by lia.
    rewrite <- (firstn_skipn k l) at 3.
    destruct (Nat.le_gt_cases k (length l)) as [Hk | Hk].
    + rewrite firstn_app, length_firstn, Nat.min_l by exact Hk.
      replace (k + k * n - k)%nat with (k * n)%nat by lia.
      rewrite (firstn_all2 (n := k + k * n)); [reflexivity|].
      rewrite length_firstn. lia.
    + rewrite (skipn_all2 (n := k)) by lia.
      rewrite firstn_nil, !app_nil_r.
      rewrite !firstn_all2 by lia. reflexivity.
Qed.

End Chunks.

Section Framing.

Lemma framesOf_short (size : Z) (stream : list float) :
  Z.of_nat (length stream) < size ->
  framesOf size stream = [] /\ leftover size stream = stream.
Proof.
  intros Hshort. unfold framesOf, leftover. cbv zeta.
  rewrite Nat.div_small by lia. now rewrite Nat.mul_0_r.
Qed.

Lemma framesOf_step (size : Z) (stream : list float) :
  1 <= size <= Z.of_nat (length stream) ->
  let k := Z.to_nat size in
  framesOf size stream
  = newFloat32Array (firstn k stream) :: framesOf size (skipn k stream)
  /\ leftover size stream = leftover size (skipn k stream).
Proof.
  intros Hsize. unfold framesOf, leftover. cbv zeta.
  set (k := Z.to_nat size).
  assert (Hk : (1 <= k <= length stream)%nat) by (subst k; lia).
  rewrite (div_step Hk), length_skipn. cbn [chunks map]. split; [reflexivity|].
  rewrite skipn_skipn. f_equal. lia.
Qed.

(** The frames have [size] samples each; with what is left over, fewer than
    [size] samples, they are the stream, rounded to binary32. *)
Lemma framesOf_spec (size : Z) (stream : list float) :
  1 <= size ->
  Forall (fun frame => Z.of_nat (length frame) = size) (framesOf size stream)
  /\ concat (framesOf size stream) ++ newFloat32Array (leftover size stream)
     = newFloat32Array stream
  /\ Z.of_nat (length (leftover size stream)) < size.
Proof.
  intros Hsize. unfold framesOf, leftover. cbv zeta.
  set (k := Z.to_nat size). set (n := (length stream / k)%nat).
  assert (Hk : (1 <= k)%nat) by (subst k; lia).
  assert (Hn : (k * n <= length stream)%nat)
    by (subst n; apply Nat.Div0.mul_div_le).
  assert (Hr : (length stream < k * S n)%nat)
    by (subst n; apply Nat.mul_succ_div_gt; lia).
  split; [|split].
  - apply Forall_map. eapply Forall_impl; [|apply (chunks_length k n stream Hn)].
    intros c Hc. unfold newFloat32Array. rewrite length_map, Hc. subst k. lia.
  - unfold newFloat32Array.
    change (fun arr : list float => map JS.fround arr) with (map JS.fround).
    rewrite <- concat_map, <- map_app, chunks_concat.
    now rewrite firstn_skipn.
  - rewrite length_skipn. subst k. lia.
Qed.

Lemma eachFrame_ignoresBuffer (frames : list Float32Array) :
  ignoresBuffer (eachFrame frames).
Proof.
  intros b. change (ignores (set_frameBuffer b) (eachFrame frames)).
  induction frames as [|frame frames IH]; cbn [eachFrame].
  - apply ignores_ret.
  - ignores_with ltac:(first [exact (processFrame_ignoresBuffer frame b) | exact IH]).
Qed.

Lemma eachFrame_keeps_assembler (frames : list Float32Array) :
  forall w,
    frameBuffer (self (after (eachFrame frames) w)) = frameBuffer (self w)
    /\ frameSize (self (after (eachFrame frames) w)) = frameSize (self w).
Proof.
  induction frames as [|frame frames IH]; intros w; cbn [eachFrame].
  - now split.
  - rewrite after_bind, after_bind.
    change (after (ret _) ?w') with w'.
    destruct (IH (after (processFrame frame) w)) as [Hb Hs].
    destruct (processFrame_keeps_assembler frame w) as [Hb' Hs'].
    split; congruence.
Qed.

Lemma eachFrame_cons (frame : Float32Array) (frames : list Float32Array) (w : World) :
  eachFrame (frame :: frames) w
  = ((frame, result (processFrame frame) w)
       :: result (eachFrame frames) (after (processFrame frame) w),
     after (eachFrame frames) (after (processFrame frame) w),
     events (processFrame frame) w
     ++ events (eachFrame frames) (after (processFrame frame) w)).
Proof.
  cbn [eachFrame]. unfold bind, ret, result, after, events.
  destruct (processFrame frame w) as [[d w1] o1]. cbn [fst snd].
  destruct (eachFrame frames w1) as [[more w2] o2]. cbn [fst snd].
  now rewrite app_nil_r.
Qed.

(** The loop of [processAudio] calls [processFrame] on the complete frames
    of the buffer, one after the other, and leaves the rest in the
    buffer. *)
Lemma processLoop_framed (fuel : nat) :
  forall w,
    1 <= frameSize (self w) ->
    (length (frameBuffer (self w)) < fuel)%nat ->
    let frames := framesOf (frameSize (self w)) (frameBuffer (self w)) in
    processLoop fuel w
    = (Some (result (eachFrame frames) w),
       withBuffer (leftover (frameSize (self w)) (frameBuffer (self w)))
                  (after (eachFrame frames) w),
       events (eachFrame frames) w).
Proof.
  induction fuel as [|fuel IH]; intros w Hsize Hfuel; [lia|].
  cbv zeta. rewrite processLoop_S.
  destruct (frameSize (self w) <=? Z.of_nat (length (frameBuffer (self w)))) eqn:C.
  - apply Z.leb_le in C. cbv zeta.
    destruct (@framesOf_step (frameSize (self w)) (frameBuffer (self w)))
      as [Ef El]; [lia|]. cbv zeta in Ef, El.
    set (k := Z.to_nat (frameSize (self w))) in *.
    set (frame := newFloat32Array (firstn k (frameBuffer (self w)))) in *.
    rewrite Ef, El. unfold result, after, events. rewrite eachFrame_cons. cbn [fst snd].
    change (mkWorld (rt w) (set_frameBuffer (skipn k (frameBuffer (self w))) (self w)))
      with (withBuffer (skipn k (frameBuffer (self w))) w).
    rewrite (processFrame_ignoresBuffer frame). cbn [fst snd].
    set (w1 := after (processFrame frame) w).
    destruct (processFrame_keeps_assembler frame w) as [Hb Hs].
    fold w1 in Hb, Hs.
    assert (E := IH (withBuffer (skipn k (frameBuffer (self w))) w1)).
    cbv zeta in E.
    change (frameSize (self (withBuffer (skipn k (frameBuffer (self w))) w1)))
      with (frameSize (self w1)) in E.
    change (frameBuffer (self (withBuffer (skipn k (frameBuffer (self w))) w1)))
      with (skipn k (frameBuffer (self w))) in E.
    rewrite Hs in E.
    rewrite E; [| exact Hsize | rewrite length_skipn; subst k; lia].
    cbn [fst snd option_map]. unfold result, after, events.
    rewrite (eachFrame_ignoresBuffer _ (skipn k (frameBuffer (self w))) w1).
    unfold result, after, events. cbn [fst snd option_map].
    rewrite withBuffer_withBuffer. reflexivity.
  - apply Z.leb_gt in C.
    destruct (@framesOf_short (frameSize (self w)) (frameBuffer (self w)) C)
      as [Ef El].
    rewrite Ef, El. cbn [eachFrame]. unfold ret, result, after, events. cbn [fst snd].
    now rewrite withBuffer_self.
Qed.

(** A call the engine takes: the buffered samples and the block make the
    stream; [processFrame] is called on its complete frames, and the rest
    stays in the buffer. *)
Lemma processAccepted_framed (audioData : Float32Array) (w : World) :
  1 <= frameSize (self w) ->
  let stream := frameBuffer (self w) ++ audioData in
  let frames := framesOf (frameSize (self w)) stream in
  processAccepted audioData w
  = (Some (result (eachFrame frames) w),
     withBuffer (leftover (frameSize (self w)) stream) (after (eachFrame frames) w),
     events (eachFrame frames) w).
Proof.
  intros Hsize. cbv zeta. rewrite processAccepted_run.
  change (mkWorld (rt w) (set_frameBuffer (frameBuffer (self w) ++ audioData) (self w)))
    with (withBuffer (frameBuffer (self w) ++ audioData) w).
  rewrite processLoop_framed;
    [| exact Hsize | cbn; rewrite length_app; lia].
  cbv zeta.
  change (frameSize (self (withBuffer (frameBuffer (self w) ++ audioData) w)))
    with (frameSize (self w)).
  change (frameBuffer (self (withBuffer (frameBuffer (self w) ++ audioData) w)))
    with (frameBuffer (self w) ++ audioData).
  unfold result, after, events.
  rewrite (eachFrame_ignoresBuffer _ (frameBuffer (self w) ++ audioData) w).
  cbn [fst snd]. unfold result, after, events.
  now rewrite withBuffer_withBuffer.
Qed.

End Framing.

Section TimersIgnore.
Variable set : VAD -> VAD.
Hypothesis runCallback_ignores : forall c, ignores set (runCallback c).

Lemma fire_ignores (t : Timer) : ignores set (fire t).
Proof.
  unfold fire. apply ignores_bind; [|intros _; apply runCallback_ignores].
  intros w. reflexivity.
Qed.

Lemma advanceLoop_ignores (rounds : nat) (target : Z) :
  ignores set (advanceLoop rounds target).
Proof.
  induction rounds as [|rounds IH]; [apply ignores_ret|].
  intros w. unfold result, after, events. cbn [advanceLoop].
  change (queue (rt (lift set w))) with (queue (rt w)).
  destruct (earliest (queue (rt w))) as [t|]; [|reflexivity].
  destruct (due t <=? target); [|reflexivity].
  exact (@ignores_bind set _ _ (fire t) (fun _ => advanceLoop rounds target)
           (fire_ignores t) (fun _ => IH) w).
Qed.

Lemma advanceTimersByTime_ignores (ms : Z) : ignores set (advanceTimersByTime ms).
Proof.
  intros w. unfold result, after, events, advanceTimersByTime. cbv zeta.
  change (queue (rt (lift set w))) with (queue (rt w)).
  change (now (rt (lift set w))) with (now (rt w)).
  unfold bind. rewrite advanceLoop_ignores.
  unfold result, after, events.
  destruct (advanceLoop _ _ w) as [[r w'] o]. reflexivity.
Qed.

End TimersIgnore.

Section Feeding.
Context {engine : Engine}.

Lemma advanceTimersByTime_ignoresBuffer (ms : Z) :
  ignoresBuffer (advanceTimersByTime ms).
Proof.
  intros b. apply (@advanceTimersByTime_ignores (set_frameBuffer b)).
  intros c. destruct c; cbn [runCallback]; unfold_methods; unfold cancel, arm, skip;
    ignores_field.
Qed.

Lemma eachFrame_frames (frames : list Float32Array) :
  forall w, map fst (result (eachFrame frames) w) = frames.
Proof.
  induction frames as [|frame frames IH]; intros w; [reflexivity|].
  unfold result. rewrite eachFrame_cons. cbn [fst map]. now rewrite IH.
Qed.

(** A call the engine takes, on a world whose buffered samples are
    [carry]. *)
Lemma processAudio_framed (audioData : Float32Array) (carry : list float) (w : World) :
  1 <= frameSize (self w) ->
  accepted audioData ->
  let stream := carry ++ audioData in
  let frames := framesOf (frameSize (self w)) stream in
  processAudio audioData (withBuffer carry w)
  = (Returned (result (eachFrame frames) w),
     withBuffer (leftover (frameSize (self w)) stream) (after (eachFrame frames) w),
     events (eachFrame frames) w).
Proof.
  intros Hsize Hfits. cbv zeta.
  rewrite (processAudio_taken _ Hfits). unfold result, after, events.
  rewrite processAccepted_framed by exact Hsize. cbv zeta. cbn [fst snd].
  change (frameSize (self (withBuffer carry w))) with (frameSize (self w)).
  change (frameBuffer (self (withBuffer carry w))) with carry.
  unfold result, after, events.
  rewrite (eachFrame_ignoresBuffer _ carry w). cbn [fst snd].
  unfold result, after, events.
  now rewrite withBuffer_withBuffer.
Qed.

Lemma framed_cons (ms : Z) (audioData : Float32Array)
      (rest : list (Z * Float32Array)) (carry : list float) (w : World) :
  let w1 := after (advanceTimersByTime ms) w in
  let size := frameSize (self w) in
  let stream := carry ++ audioData in
  let frames := framesOf size stream in
  let w2 := after (eachFrame frames) w1 in
  framed ((ms, audioData) :: rest) carry w
  = (let '(more, carry', w', o3) := framed rest (leftover size stream) w2 in
     (frames ++ more, carry', w',
      events (advanceTimersByTime ms) w ++ events (eachFrame frames) w1 ++ o3)).
Proof.
  cbv zeta. cbn [framed]. unfold after, events.
  rewrite <- (proj2 (advance_keeps_assembler ms w)). unfold after.
  destruct (advanceTimersByTime ms w) as [[u w1] o1]. cbn [fst snd].
  destruct (eachFrame _ w1) as [[r w2] o2]. reflexivity.
Qed.

(** Feeding blocks is calling [processFrame] on the frames of the stream. *)
Lemma feed_framed (calls : list (Z * Float32Array)) :
  forall carry w,
    1 <= frameSize (self w) ->
    Forall accepted (map snd calls) ->
    feed calls (withBuffer carry w)
    = Some (let '(frames, carry', w', out) := framed calls carry w in
            (frames, withBuffer carry' w', out)).
Proof.
  induction calls as [|[ms audioData] calls IH]; intros carry w Hsize Hfit.
  - reflexivity.
  - cbn [map snd] in Hfit. inversion Hfit as [|? ? Hfits Hrest]; subst.
    rewrite framed_cons. cbv zeta. cbn [feed].
    rewrite (advanceTimersByTime_ignoresBuffer ms carry w).
    destruct (advance_keeps_assembler ms w) as [_ Hs1].
    set (w1 := after (advanceTimersByTime ms) w) in *.
    rewrite processAudio_framed; [| now rewrite Hs1 | exact Hfits].
    cbv zeta. rewrite Hs1.
    set (frames := framesOf (frameSize (self w)) (carry ++ audioData)).
    destruct (eachFrame_keeps_assembler frames w1) as [_ Hs2].
    set (w2 := after (eachFrame frames) w1) in *.
    rewrite IH; [| now rewrite Hs2, Hs1 | exact Hrest].
    destruct (framed calls _ w2) as [[[more carry'] w'] o3].
    now rewrite eachFrame_frames.
Qed.

(** The frames of the stream: each of [frameSize] samples; with the samples
    left over they are the stream rounded to binary32, and what is left over
    after a call is less than a frame. *)
Lemma framed_spec (calls : list (Z * Float32Array)) :
  forall carry w,
    1 <= frameSize (self w) ->
    let '(frames, carry', w', out) := framed calls carry w in
    Forall (fun frame => Z.of_nat (length frame) = frameSize (self w)) frames
    /\ concat frames ++ newFloat32Array carry'
       = newFloat32Array (carry ++ concat (map snd calls))
    /\ (exists k, carry' = skipn k (carry ++ concat (map snd calls)))
    /\ (calls <> [] \/ Z.of_nat (length carry) < frameSize (self w) ->
        Z.of_nat (length carry') < frameSize (self w))
    /\ frameSize (self w') = frameSize (self w).
Proof.
  induction calls as [|[ms audioData] calls IH]; intros carry w Hsize.
  - cbn [framed map concat]. rewrite app_nil_r. repeat split.
    + constructor.
    + now exists 0%nat.
    + intros [Hne | Hshort]; [congruence | exact Hshort].
  - rewrite framed_cons. cbv zeta.
    destruct (advance_keeps_assembler ms w) as [_ Hs1].
    set (w1 := after (advanceTimersByTime ms) w) in *.
    set (stream := carry ++ audioData).
    set (frames := framesOf (frameSize (self w)) stream).
    destruct (eachFrame_keeps_assembler frames w1) as [_ Hs2].
    set (w2 := after (eachFrame frames) w1) in *.
    assert (Hsize2 : 1 <= frameSize (self w2)) by (now rewrite Hs2, Hs1).
    specialize (IH (leftover (frameSize (self w)) stream) w2 Hsize2).
    destruct (framed calls _ w2) as [[[more carry'] w'] o3].
    destruct IH as (Hlen & Hcat & [k Hk] & Hshort & Hfs).
    destruct (framesOf_spec stream Hsize) as (Flen & Fcat & Fshort).
    fold frames in Flen, Fcat.
    rewrite Hs2, Hs1 in Hlen, Hshort, Hfs.
    cbn [map snd concat]. rewrite (app_assoc carry). fold stream.
    repeat split.
    + apply Forall_app. now split.
    + rewrite concat_app, <- app_assoc, Hcat.
      unfold newFloat32Array in *. rewrite !map_app in *.
      now rewrite app_assoc, Fcat.
    + set (m := (Z.to_nat (frameSize (self w))
                 * (length stream / Z.to_nat (frameSize (self w))))%nat).
      exists (k + m)%nat. rewrite Hk, <- skipn_skipn. f_equal.
      unfold leftover. cbv zeta. fold m. rewrite skipn_app.
      replace (m - length stream)%nat with 0%nat; [now rewrite app_nil_r || reflexivity|].
      pose proof (Nat.Div0.mul_div_le (length stream) (Z.to_nat (frameSize (self w)))).
      subst m. lia.
    + intros _. apply Hshort. now right.
    + exact Hfs.
Qed.

End Feeding.




(* ================================================================== *)
(** * The adaptive threshold *)
(* ================================================================== *)

Section NoiseFloor.
Context {engine : Engine}.

Lemma noiseFloorIs_stable (c : float) : stable (noiseFloorIs c).
Proof. intros v H. repeat split; intros; apply H. Qed.

Lemma processFrame_speech_keeps_noiseFloor (frame : Float32Array) (w : World) :
  result (processFrame frame) w = true ->
  noiseFloor (self (after (processFrame frame) w)) = noiseFloor (self w).
Proof.
  rewrite result_processFrame. intros D.
  apply (@stable_processFrame _ (@noiseFloorIs_stable (noiseFloor (self w)))).
  rewrite D. reflexivity.
Qed.

Lemma processLoop_speech_keeps_noiseFloor (fuel : nat) :
  forall w frames,
    result (processLoop fuel) w = Some frames ->
    Forall (fun fd => snd fd = true) frames ->
    noiseFloor (self (after (processLoop fuel) w)) = noiseFloor (self w).
Proof.
  induction fuel as [|fuel IH]; intros w frames; [discriminate|].
  unfold result, after. rewrite processLoop_S.
  destruct (frameSize (self w) <=? Z.of_nat (length (frameBuffer (self w))));
    [|reflexivity].
  cbv zeta. cbn [fst snd].
  set (frame := newFloat32Array _). set (w1 := mkWorld _ _).
  destruct (result (processLoop fuel) (after (processFrame frame) w1))
    as [more|] eqn:Hr; [|discriminate].
  cbn [option_map]. intros [= <-] Hall. inversion Hall as [|? ? Hd Hmore]; subst.
  cbn [snd] in Hd.
  rewrite (IH _ more Hr Hmore).
  now rewrite (processFrame_speech_keeps_noiseFloor frame w1 Hd).
Qed.

Lemma processAccepted_speech_keeps_noiseFloor
      (audioData : Float32Array) (w : World) (frames : list (Float32Array * bool)) :
  result (processAccepted audioData) w = Some frames ->
  Forall (fun fd => snd fd = true) frames ->
  noiseFloor (self (after (processAccepted audioData) w)) = noiseFloor (self w).
Proof.
  unfold result, after. rewrite processAccepted_run. intros Hr Hall.
  exact (processLoop_speech_keeps_noiseFloor _ _ Hr Hall).
Qed.

Lemma step_speech_keeps_noiseFloor (a : Action) (w w' : World) (tr : list Obs) :
  step a w = Some (w', tr) -> allSpeech tr ->
  noiseFloor (self w') = noiseFloor (self w).
Proof.
  unfold allSpeech. destruct a; [taken_block | cbn [step] ..].
  - destruct (processAccepted audioData w) as [[r w1] out] eqn:E.
    destruct r as [frames|]; [|discriminate]. intros [= <- <-] Hall.
    assert (Hw1 : w1 = after (processAccepted audioData) w) by (unfold after; now rewrite E).
    assert (Hr : result (processAccepted audioData) w = Some frames)
      by (unfold result; now rewrite E).
    rewrite Hw1. apply (processAccepted_speech_keeps_noiseFloor _ _ Hr).
    apply Forall_forall. intros fd Hin.
    destruct (snd fd) eqn:Hd; [reflexivity|]. exfalso. apply Hall.
    apply in_or_app. left. apply in_map_iff. exists fd. now rewrite Hd.
  - destruct (processFrame frame w) as [[d w1] out] eqn:E. intros [= <- <-] Hall.
    assert (Hw1 : w1 = after (processFrame frame) w) by (unfold after; now rewrite E).
    assert (Hd : result (processFrame frame) w = d) by (unfold result; now rewrite E).
    rewrite Hw1. apply processFrame_speech_keeps_noiseFloor.
    rewrite Hd. destruct d; [reflexivity|]. exfalso. apply Hall. now left.
  - destruct (advanceTimersByTime ms w) as [[r w1] out] eqn:E. intros [= <- _] _.
    replace w1 with (after (advanceTimersByTime ms) w) by (unfold after; now rewrite E).
    now apply (@stable_advanceTimersByTime _ (@noiseFloorIs_stable (noiseFloor (self w)))).
  - destruct (reset w) as [[r w1] out] eqn:E. intros [= <- _] _.
    replace w1 with (after reset w) by (unfold after; now rewrite E).
    destruct (reset_fields w) as (-> & _). reflexivity.
  - intros [= <- _] _. reflexivity.
  - intros [= <- _] _. reflexivity.
Qed.

Lemma run_speech_keeps_noiseFloor (script : list Action) :
  forall w w' tr,
    run script w = Some (w', tr) -> allSpeech tr ->
    noiseFloor (self w') = noiseFloor (self w).
Proof.
  unfold allSpeech.
  induction script as [|a script IH]; intros w w' tr; cbn [run].
  - now intros [= <- _].
  - destruct (step a w) as [[w1 o1]|] eqn:E; [|discriminate].
    destruct (run script w1) as [[w2 o2]|] eqn:R; [|discriminate].
    intros [= <- <-] Hall.
    rewrite (IH _ _ _ R), (step_speech_keeps_noiseFloor _ _ E); [reflexivity| |];
      intros Hin; apply Hall, in_or_app; auto.
Qed.

End NoiseFloor.

(** C6. [updateNoiseFloor] leaves [noiseFloor] and [adaptiveThreshold] as
    they are when the frame was decided speech; when it was decided
    non-speech it sets [noiseFloor] to [0.01 * energy + 0.99 * noiseFloor]
    (in double arithmetic, as the source evaluates it) and
    [adaptiveThreshold] to 5 times the new [noiseFloor].  Consequently, over
    any run of calls in which every frame is decided speech, [noiseFloor]
    does not change (so it does not increase). *)
Theorem updateNoiseFloor_adapts_only_on_non_speech {engine : Engine}
        (energy : float) (isSpeech : bool) (v : VAD)
        (script : list Action) (w w' : World) (tr : list Obs) :
  let v' := updateNoiseFloor energy isSpeech v in
  (if isSpeech
   then noiseFloor v' = noiseFloor v /\ adaptiveThreshold v' = adaptiveThreshold v
   else noiseFloor v' = (0.01 * energy + 0.99 * noiseFloor v)%float
        /\ adaptiveThreshold v' = (noiseFloor v' * 5)%float)
  /\ (run script w = Some (w', tr) -> allSpeech tr ->
      noiseFloor (self w') = noiseFloor (self w)).
Proof.
  cbv zeta. split.
  - destruct isSpeech; split; reflexivity.
  - apply run_speech_keeps_noiseFloor.
Qed.

Lemma updateNoiseFloor_adapts_only_on_non_speech_witness :
  match run [ProcessFrame [0.5; 0.5]%float; AdvanceTime 300; ProcessFrame [0.5; 0.5]%float]
            (boot 1000000 testConfig) with
  | Some (w', _) => noiseFloor (self w') = 0.001%float
  | None => False
  end.
Proof.
  destruct (run [ProcessFrame [0.5; 0.5]%float; AdvanceTime 300; ProcessFrame [0.5; 0.5]%float]
                (boot 1000000 testConfig)) as [[w' tr]|] eqn:R.
  - apply (proj2 (@updateNoiseFloor_adapts_only_on_non_speech node
                    0%float true (constructor testConfig) _ _ _ _) R).
    vm_compute in R. injection R as _ <-.
    intros H; cbn in H.
    repeat match goal with
           | H : _ \/ _ |- _ => destruct H as [H|H]
           end; (discriminate H || exact H).
  - vm_compute in R. discriminate R.
Defined.

(* ================================================================== *)
(** * updateConfig *)
(* ================================================================== *)

(** C7, as the code has it.  [updateConfig] replaces [energyThreshold] and
    [silenceTimeout] by the values supplied when these are truthy (a
    threshold other than 0 and NaN, a timeout other than 0); an absent or
    falsy value leaves the setting as it was.  [adaptiveThreshold] becomes
    the resulting [energyThreshold].  Nothing is emitted, the runtime
    (clock, pending timers) is untouched, and every other field keeps its
    value. *)
Theorem updateConfig_replaces_supplied_settings {engine : Engine}
        (config : ConfigUpdate) (w : World) (threshold : float) (timeout : Z) :
  let v := self w in
  let v' := updateConfig config v in
  step (UpdateConfig config) w = Some (mkWorld (rt w) v', [])
  /\ (supplied JS.truthy (upd_vadThreshold config) threshold ->
      energyThreshold v' = threshold)
  /\ (supplied nonZero (upd_silenceTimeout config) timeout ->
      silenceTimeout v' = timeout)
  /\ (notSupplied JS.truthy (upd_vadThreshold config) ->
      energyThreshold v' = energyThreshold v)
  /\ (notSupplied nonZero (upd_silenceTimeout config) ->
      silenceTimeout v' = silenceTimeout v)
  /\ adaptiveThreshold v' = energyThreshold v'
  /\ v' = set_adaptiveThreshold (energyThreshold v')
            (set_silenceTimeout (silenceTimeout v')
               (set_energyThreshold (energyThreshold v') v))
  /\ noiseFloor v' = noiseFloor v
  /\ audioBuffer v' = audioBuffer v
  /\ frameBuffer v' = frameBuffer v
  /\ isSpeaking v' = isSpeaking v
  /\ (forall c, handleFor c v' = handleFor c v).
Proof.
  cbv zeta. unfold supplied, notSupplied, nonZero.
  destruct config as [th to]; cbn [upd_vadThreshold upd_silenceTimeout].
  repeat split.
  - intros [-> Ht]. cbn. now rewrite Ht.
  - intros [-> Ht]. cbn. apply negb_true_iff in Ht. now rewrite Ht.
  - intros [->|(a & -> & Ha)]; cbn; [reflexivity | now rewrite Ha].
  - intros [->|(a & -> & Ha)]; cbn; [reflexivity|].
    apply negb_false_iff in Ha. now rewrite Ha.
Qed.

Lemma updateConfig_replaces_supplied_settings_witness :
  let v' := updateConfig (mkConfigUpdate (Some 0.05%float) (Some 5000))
                         (constructor testConfig) in
  energyThreshold v' = 0.05%float /\ silenceTimeout v' = 5000.
Proof.
  cbv zeta.
  pose proof (@updateConfig_replaces_supplied_settings node
                (mkConfigUpdate (Some 0.05%float) (Some 5000))
                (boot 1000000 testConfig) 0.05%float 5000) as (_ & H1 & H2 & _).
  split; [apply H1 | apply H2]; split; reflexivity.
Defined.

(** C7 as stated fails for a supplied 0: [updateConfig({vadThreshold: 0,
    silenceTimeout: 0})] keeps both settings. *)
Lemma updateConfig_ignores_zero :
  let v := constructor testConfig in
  let v' := updateConfig (mkConfigUpdate (Some 0%float) (Some 0)) v in
  energyThreshold v' = 0.01%float /\ energyThreshold v' <> 0%float
  /\ silenceTimeout v' = 10000 /\ silenceTimeout v' <> 0
  /\ adaptiveThreshold v' <> 0%float.
Proof.
  cbv zeta. repeat split; try reflexivity.
  - apply float_neq. vm_compute. discriminate.
  - discriminate.
  - apply float_neq. vm_compute. discriminate.
Qed.

(* ================================================================== *)
(** * Non-finite samples *)
(* ================================================================== *)

Section NonFinite.

Lemma nan_add_l (y : float) : (nan + y)%float = nan.
Proof.
  apply Prim2SF_inj. rewrite add_spec, Prim2SF_nan. reflexivity.
Qed.

Lemma nan_add_r (x : float) : (x + nan)%float = nan.
Proof.
  apply Prim2SF_inj. rewrite add_spec, Prim2SF_nan.
  destruct (Prim2SF x); reflexivity.
Qed.

Lemma nan_mul_r (x : float) : (x * nan)%float = nan.
Proof.
  apply Prim2SF_inj. rewrite mul_spec, Prim2SF_nan.
  destruct (Prim2SF x); reflexivity.
Qed.

Lemma nan_div_l (y : float) : (nan / y)%float = nan.
Proof.
  apply Prim2SF_inj. rewrite div_spec, Prim2SF_nan. reflexivity.
Qed.

Lemma gt_nan (y : float) : JS.gt nan y = false.
Proof.
  unfold JS.gt. rewrite ltb_spec, Prim2SF_nan.
  destruct (Prim2SF y); reflexivity.
Qed.

Lemma sumSquares_nonfinite (frame : list float) :
  forall sum, JS.isFinite sum = false ->
    JS.isFinite (fold_left (fun sum x => (sum + x * x)%float) frame sum) = false.
Proof.
  induction frame as [|x frame IH]; intros sum H; cbn [fold_left]; [exact H|].
  apply IH. now apply nonfinite_add_l.
Qed.

Lemma calculateEnergy_nonfinite (frame : Float32Array) :
  hasNonFinite frame -> JS.isFinite (calculateEnergy frame) = false.
Proof.
  intros H. unfold calculateEnergy. apply nonfinite_sqrt, nonfinite_div_l.
  generalize 0%float.
  induction H as [x frame Hx | x frame _ IH]; intros sum; cbn [fold_left].
  - apply sumSquares_nonfinite, nonfinite_add_r, nonfinite_square, Hx.
  - apply IH.
Qed.

Lemma sumSquares_nan (frame : list float) :
  fold_left (fun sum x => (sum + x * x)%float) frame nan = nan.
Proof.
  induction frame as [|x frame IH]; cbn [fold_left]; [reflexivity|].
  now rewrite nan_add_l.
Qed.

Lemma calculateEnergy_nan (frame : Float32Array) :
  In nan frame -> calculateEnergy frame = nan.
Proof.
  intros H. unfold calculateEnergy.
  assert (E : forall sum, fold_left (fun sum x => (sum + x * x)%float) frame sum = nan).
  { induction frame as [|x frame IH]; intros sum; [destruct H|].
    cbn [fold_left]. destruct H as [-> | H].
    - rewrite nan_mul_r, nan_add_r. apply sumSquares_nan.
    - now apply IH. }
  rewrite E, nan_div_l. reflexivity.
Qed.

End NonFinite.




(* ================================================================== *)
(** * reset(), on the test-suite's detector *)
(* ================================================================== *)

Lemma reset_behaves_as_fresh_with_kept_calibration_witness :
  let w := after (processFrame silenceFrame) (boot 1000000 testConfig) in
  after reset w = freshCalibrated w
  /\ queue (rt (after reset w)) = [].
Proof.
  cbv zeta.
  destruct (@reset_behaves_as_fresh_with_kept_calibration node
              (after (processFrame silenceFrame) (boot 1000000 testConfig)) [])
    as (_ & Hq & He & _).
  - apply wellFormed_processFrame, wellFormed_boot.
  - split; [exact He | exact Hq].
Defined.

(** C2 as stated fails: after one silent frame and [reset()], a faint frame
    is decided speech (and confirmed 300 ms later), while the freshly
    constructed detector with the same configuration decides it
    non-speech; the reported status differs as well. *)
Lemma reset_keeps_the_adapted_threshold :
  let w := after reset (after (processFrame silenceFrame) (boot 1000000 testConfig)) in
  let script := [ProcessFrame faintFrame; AdvanceTime 300] in
  observations (run script w) = Some [Decided true; Emitted (SpeechStart false)]
  /\ observations (run script (freshLike w)) = Some [Decided false]
  /\ freshLike w = boot 1000000 testConfig
  /\ st_noiseFloor (getStatus (self w)) = 0.00099%float
  /\ st_noiseFloor (getStatus (self (freshLike w))) = 0.001%float.
Proof. cbv zeta. vm_compute. repeat split. Qed.

(* ================================================================== *)
(** * The silence alarm *)
(* ================================================================== *)

Section Establishes.
Context {A B : Type}.

Lemma establishes_bind_inv (P Q : World -> Prop) (m : M A) (k : A -> M B) :
  preserves P m -> (forall a, establishes P (k a) Q) -> establishes P (bind m k) Q.
Proof. intros Hm Hk w Hw. rewrite after_bind. apply Hk, Hm, Hw. Qed.

Lemma establishes_bind_last (P Q : World -> Prop) (m : M A) (k : A -> M B) :
  establishes P m Q -> (forall a, preserves Q (k a)) -> establishes P (bind m k) Q.
Proof. intros Hm Hk w Hw. rewrite after_bind. apply Hk, Hm, Hw. Qed.

End Establishes.

Section SilenceAlarm.

Lemma dropTimer_filter (id : nat) (p : Timer -> bool) (q : list Timer) :
  filter p (dropTimer id q) = dropTimer id (filter p q).
Proof.
  unfold dropTimer. induction q as [|t q IH]; cbn [filter]; [reflexivity|].
  destruct (negb (tid t =? id)%nat) eqn:D, (p t) eqn:Pt; cbn [filter];
    rewrite ?D, ?Pt, IH; reflexivity.
Qed.

Lemma dropTimer_absent (id : nat) (q : list Timer) :
  Forall (fun t => tid t <> id) q -> dropTimer id q = q.
Proof.
  unfold dropTimer. induction 1 as [|t q Ht _ IH]; cbn [filter]; [reflexivity|].
  apply Nat.eqb_neq in Ht. now rewrite Ht, IH.
Qed.

(** With an empty handle field nothing is pending for that closure. *)
Lemma owned_none_pending (c : Callback) (w : World) :
  owned w -> handleFor c (self w) = None -> pendingFor c w = [].
Proof.
  unfold owned, pendingFor. intros Ho Hn.
  induction Ho as [|t q Ht _ IH]; cbn [filter]; [reflexivity|].
  destruct (Callback_eqb (cb t) c) eqn:Q; [|exact IH].
  apply Callback_eqb_eq in Q. rewrite Q, Hn in Ht. discriminate.
Qed.

(** Cancelling the timer of another closure leaves the pending timers of
    [c] alone. *)
Lemma pendingFor_cancel_other (c c' : Callback) (w : World) :
  c' <> c -> owned w -> handlesOk w ->
  pendingFor c (after (cancel (handleFor c') (setHandleFor c')) w) = pendingFor c w.
Proof.
  intros Hne Ho [_ Hd]. unfold cancel. rewrite after_bind.
  change (result (this (handleFor c')) w) with (handleFor c' (self w)).
  change (after (this (handleFor c')) w) with w.
  destruct (handleFor c' (self w)) as [id|] eqn:E; [|reflexivity].
  unfold pendingFor. cbn [after rt queue bind clearTimeout assign fst snd].
  change (queue (rt (after (clearTimeout id;; assign (setHandleFor c' None)) w)))
    with (dropTimer id (queue (rt w))).
  rewrite dropTimer_filter. apply dropTimer_absent.
  apply Forall_forall. intros t Ht. apply filter_In in Ht as [Hin Hc].
  apply Callback_eqb_eq in Hc. unfold owned in Ho. rewrite Forall_forall in Ho.
  specialize (Ho t Hin). rewrite Hc in Ho. intros Heq. rewrite Heq in Ho.
  apply Hne. exact (Hd c' c id E Ho).
Qed.

Lemma pendingFor_arm_other (c c' : Callback) (delayField : VAD -> Z) (w : World) :
  c' <> c ->
  pendingFor c (after (arm (handleFor c') (setHandleFor c') c' delayField) w)
  = pendingFor c w.
Proof.
  intros Hne. unfold arm. rewrite after_bind.
  change (result (this (handleFor c')) w) with (handleFor c' (self w)).
  change (after (this (handleFor c')) w) with w.
  destruct (handleFor c' (self w)) as [id|] eqn:E; [reflexivity|].
  unfold pendingFor. cbn. rewrite filter_app. cbn.
  destruct (Callback_eqb c' c) eqn:Q; [|apply app_nil_r].
  apply Callback_eqb_eq in Q. contradiction.
Qed.

Lemma self_after_cancel (c : Callback) (w : World) :
  self (after (cancel (handleFor c) (setHandleFor c)) w)
  = match handleFor c (self w) with
    | Some _ => setHandleFor c None (self w)
    | None => self w
    end
  /\ now (rt (after (cancel (handleFor c) (setHandleFor c)) w)) = now (rt w).
Proof.
  unfold cancel. rewrite after_bind.
  change (result (this (handleFor c)) w) with (handleFor c (self w)).
  change (after (this (handleFor c)) w) with w.
  destruct (handleFor c (self w)); split; reflexivity.
Qed.

Lemma self_after_arm (c : Callback) (delayField : VAD -> Z) (w : World) :
  self (after (arm (handleFor c) (setHandleFor c) c delayField) w)
  = match handleFor c (self w) with
    | Some _ => self w
    | None => setHandleFor c (Some (nextId (rt w))) (self w)
    end
  /\ now (rt (after (arm (handleFor c) (setHandleFor c) c delayField) w)) = now (rt w).
Proof.
  unfold arm. rewrite after_bind.
  change (result (this (handleFor c)) w) with (handleFor c (self w)).
  change (after (this (handleFor c)) w) with w.
  destruct (handleFor c (self w)); split; reflexivity.
Qed.

Lemma alarmUntouched_assign (view : SilenceView) (upd : VAD -> VAD) :
  keepsAlarm upd -> preserves (alarmUntouched view) (assign upd).
Proof.
  intros [Kh Kf] w (Ho & Hh & Hv). split; [|split].
  - now apply owned_assign.
  - now apply handlesOk_assign.
  - rewrite <- Hv. unfold silenceView, pendingFor. cbn.
    destruct (Kf (self w)) as [-> ->]. f_equal. exact (Kh OnSilenceTimer (self w)).
Qed.

Lemma alarmUntouched_cancel (view : SilenceView) (c : Callback) :
  c <> OnSilenceTimer ->
  preserves (alarmUntouched view) (cancel (handleFor c) (setHandleFor c)).
Proof.
  intros Hne w (Ho & Hh & Hv). split; [|split].
  - now apply owned_cancel.
  - now apply handlesOk_cancel.
  - rewrite <- Hv. unfold silenceView.
    rewrite pendingFor_cancel_other by assumption.
    destruct (self_after_cancel c w) as [-> ->].
    destruct c; try contradiction; destruct (handleFor _ (self w)); reflexivity.
Qed.

Lemma alarmUntouched_arm (view : SilenceView) (c : Callback) (delayField : VAD -> Z) :
  c <> OnSilenceTimer ->
  preserves (alarmUntouched view) (arm (handleFor c) (setHandleFor c) c delayField).
Proof.
  intros Hne w (Ho & Hh & Hv). split; [|split].
  - now apply owned_arm.
  - now apply handlesOk_arm.
  - rewrite <- Hv. unfold silenceView.
    rewrite pendingFor_arm_other by assumption.
    destruct (self_after_arm c delayField w) as [-> ->].
    destruct c; try contradiction; destruct (handleFor _ (self w)); reflexivity.
Qed.

End SilenceAlarm.

Ltac keeps_alarm :=
  idtac;
  split; [keeps_handles|];
  intros [];
  try match goal with
      | |- context [updateNoiseFloor _ ?d _] => is_var d; destruct d
      end; split; reflexivity.

Ltac alarm_leaf :=
  idtac;
  lazymatch goal with
  | |- preserves _ (cancel speechStartTimer _) =>
      apply (@alarmUntouched_cancel _ OnSpeechStartTimer); discriminate
  | |- preserves _ (cancel speechEndTimer _) =>
      apply (@alarmUntouched_cancel _ OnSpeechEndTimer); discriminate
  | |- preserves _ (arm speechStartTimer _ _ _) =>
      apply (@alarmUntouched_arm _ OnSpeechStartTimer); discriminate
  | |- preserves _ (arm speechEndTimer _ _ _) =>
      apply (@alarmUntouched_arm _ OnSpeechEndTimer); discriminate
  | |- preserves _ (assign _) => apply alarmUntouched_assign; keeps_alarm
  end.

Section ProcessFrameAlarm.

(** Up to [handleSilenceTimeout], [processFrame] leaves the silence alarm
    alone; what it establishes is what [handleSilenceTimeout] does. *)
Lemma processFrame_alarm (view : SilenceView) (Q : World -> Prop)
      (frame : Float32Array) (w : World) :
  alarmUntouched view w ->
  establishes (alarmUntouched view)
              (handleSilenceTimeout (detectSpeech (self w) (calculateEnergy frame))) Q ->
  Q (after (processFrame frame) w).
Proof.
  intros Hw HQ. unfold processFrame. cbv zeta.
  rewrite after_bind.
  change (result (this (fun v => detectSpeech v (calculateEnergy frame))) w)
    with (detectSpeech (self w) (calculateEnergy frame)).
  change (after (this (fun v => detectSpeech v (calculateEnergy frame))) w) with w.
  remember (detectSpeech (self w) (calculateEnergy frame)) as d eqn:Hd. clear Hd.
  revert w Hw.
  match goal with |- forall w0, _ -> Q (after ?m w0) =>
    change (establishes (alarmUntouched view) m Q)
  end.
  unfold handleSpeechStart, handleSpeechEnd, forceEndSpeech, endSpeech.
  repeat (apply establishes_bind_inv; [solve [pres_with alarm_leaf] | intros ?]).
  apply establishes_bind_last; [exact HQ | intros ?; apply preserves_ret].
Qed.

End ProcessFrameAlarm.

Section HandleSilenceTimeout.

Lemma handleSilenceTimeout_speech (view : SilenceView) :
  establishes (alarmUntouched view) (handleSilenceTimeout true)
    (fun w' => lastSpeechTime (self w') = Some (sv_now view)
               /\ silenceTimer (self w') = None
               /\ pendingFor OnSilenceTimer w' = []).
Proof.
  intros w (Ho & Hh & Hv). cbn [handleSilenceTimeout].
  rewrite after_bind, after_bind.
  change (result Date_now w) with (now (rt w)).
  change (after Date_now w) with w.
  set (w1 := after (assign (set_lastSpeechTime (Some (now (rt w))))) w).
  assert (Ho1 : owned w1) by (apply owned_assign; [keeps_handles | exact Ho]).
  pose proof (owned_cancel OnSilenceTimer Ho1) as Ho2.
  destruct (self_after_cancel OnSilenceTimer w1) as [Hs _].
  change (handleFor OnSilenceTimer) with silenceTimer in *.
  change (setHandleFor OnSilenceTimer) with set_silenceTimer in *.
  assert (Hnone : silenceTimer (self (after (cancel silenceTimer set_silenceTimer) w1)) = None).
  { rewrite Hs. destruct (silenceTimer (self w1)) eqn:E; [reflexivity | exact E]. }
  split; [|split].
  - rewrite Hs, <- Hv. destruct (silenceTimer (self w1)); reflexivity.
  - exact Hnone.
  - now apply owned_none_pending.
Qed.

Lemma handleSilenceTimeout_starts (view : SilenceView) :
  truthyTime (sv_lastSpeech view) = true ->
  sv_handle view = None ->
  establishes (alarmUntouched view) (handleSilenceTimeout false)
    (fun w' => exists id,
       silenceTimer (self w') = Some id
       /\ pendingFor OnSilenceTimer w'
          = [mkTimer id (sv_now view + timerDelay (sv_timeout view)) OnSilenceTimer]).
Proof.
  intros Ht Hn w (Ho & Hh & Hv). subst view. cbn in Ht, Hn |- *.
  cbn [handleSilenceTimeout]. rewrite after_bind.
  change (result (this lastSpeechTime) w) with (lastSpeechTime (self w)).
  change (after (this lastSpeechTime) w) with w.
  rewrite Ht.
  pose proof (owned_none_pending OnSilenceTimer Ho Hn) as Hp.
  exists (nextId (rt w)).
  unfold arm, after, bind, this, setTimeout, assign. cbn beta iota. rewrite Hn.
  cbn. split; [reflexivity|].
  unfold pendingFor in *. cbn. rewrite filter_app, Hp. reflexivity.
Qed.

Lemma handleSilenceTimeout_idle (w : World) :
  silenceTimer (self w) <> None \/ truthyTime (lastSpeechTime (self w)) = false ->
  after (handleSilenceTimeout false) w = w.
Proof.
  intros H. cbn [handleSilenceTimeout]. rewrite after_bind.
  change (result (this lastSpeechTime) w) with (lastSpeechTime (self w)).
  change (after (this lastSpeechTime) w) with w.
  destruct (truthyTime (lastSpeechTime (self w))) eqn:T; [|reflexivity].
  destruct H as [H|H]; [|discriminate].
  unfold arm. rewrite after_bind.
  change (result (this silenceTimer) w) with (silenceTimer (self w)).
  change (after (this silenceTimer) w) with w.
  destruct (silenceTimer (self w)); [reflexivity | contradiction].
Qed.

Lemma fire_silence_timer (t : Timer) (w : World) :
  owned w -> In t (queue (rt w)) -> cb t = OnSilenceTimer ->
  events (fire t) w = [SilenceTimeout]
  /\ silenceTimer (self (after (fire t) w)) = None
  /\ pendingFor OnSilenceTimer (after (fire t) w) = []
  /\ lastSpeechTime (self (after (fire t) w)) = lastSpeechTime (self w).
Proof.
  intros Ho Hin Hc.
  pose proof (@owned_fire t w Ho Hin) as Ho'.
  assert (E : events (fire t) w = [SilenceTimeout]
              /\ self (after (fire t) w) = set_silenceTimer None (self w)).
  { unfold fire. rewrite Hc. split; reflexivity. }
  destruct E as [Ee Es]. split; [exact Ee|]. split; [now rewrite Es|]. split.
  - apply owned_none_pending; [exact Ho'|]. now rewrite Es.
  - now rewrite Es.
Qed.

End HandleSilenceTimeout.

(** C1, as the code has it.  On a well-formed instance:
    - a frame decided speech records the current time as [lastSpeechTime]
      and cancels the silence timer: the countdown is reset, nothing is
      pending;
    - a frame decided non-speech, once a speech time is recorded and no
      silence timer is held, starts one, due [silenceTimeout] ms (as Node
      coerces the delay) after this frame;
    - a frame decided non-speech otherwise changes nothing of the alarm: a
      pending timer keeps its due time, and without recorded speech none
      is started;
    - when the silence timer fires, ['silenceTimeout'] is emitted once, the
      handle is cleared and [lastSpeechTime] stays: the next frame decided
      non-speech therefore starts a new countdown, and the notification is
      emitted again, without any speech frame in between. *)
Theorem silence_alarm_restarts_after_firing
        (w : World) (frame : Float32Array) (t : Timer) :
  owned w -> handlesOk w ->
  let isSpeech := detectSpeech (self w) (calculateEnergy frame) in
  let w' := after (processFrame frame) w in
  (isSpeech = true ->
   lastSpeechTime (self w') = Some (now (rt w))
   /\ silenceTimer (self w') = None
   /\ pendingFor OnSilenceTimer w' = [])
  /\ (isSpeech = false ->
      truthyTime (lastSpeechTime (self w)) = true ->
      silenceTimer (self w) = None ->
      exists id,
        silenceTimer (self w') = Some id
        /\ pendingFor OnSilenceTimer w'
           = [mkTimer id (now (rt w) + timerDelay (silenceTimeout (self w)))
                      OnSilenceTimer])
  /\ (isSpeech = false ->
      silenceTimer (self w) <> None \/ truthyTime (lastSpeechTime (self w)) = false ->
      silenceTimer (self w') = silenceTimer (self w)
      /\ pendingFor OnSilenceTimer w' = pendingFor OnSilenceTimer w
      /\ lastSpeechTime (self w') = lastSpeechTime (self w))
  /\ (In t (queue (rt w)) -> cb t = OnSilenceTimer ->
      events (fire t) w = [SilenceTimeout]
      /\ silenceTimer (self (after (fire t) w)) = None
      /\ pendingFor OnSilenceTimer (after (fire t) w) = []
      /\ lastSpeechTime (self (after (fire t) w)) = lastSpeechTime (self w)).
Proof.
  intros Ho Hh. cbv zeta.
  assert (Hw : alarmUntouched (silenceView w) w) by (split; [|split]; auto).
  split; [|split; [|split]].
  - intros D.
    apply (@processFrame_alarm (silenceView w)
             (fun w' => lastSpeechTime (self w') = Some (now (rt w))
                        /\ silenceTimer (self w') = None
                        /\ pendingFor OnSilenceTimer w' = [])
             frame w Hw).
    rewrite D. apply (@handleSilenceTimeout_speech (silenceView w)).
  - intros D Ht Hn.
    apply (@processFrame_alarm (silenceView w)
             (fun w' => exists id,
                silenceTimer (self w') = Some id
                /\ pendingFor OnSilenceTimer w'
                   = [mkTimer id (now (rt w) + timerDelay (silenceTimeout (self w)))
                              OnSilenceTimer])
             frame w Hw).
    rewrite D. now apply (@handleSilenceTimeout_starts (silenceView w)).
  - intros D Hidle.
    apply (@processFrame_alarm (silenceView w)
             (fun w' => silenceTimer (self w') = silenceTimer (self w)
                        /\ pendingFor OnSilenceTimer w' = pendingFor OnSilenceTimer w
                        /\ lastSpeechTime (self w') = lastSpeechTime (self w))
             frame w Hw).
    rewrite D. intros w1 (_ & _ & Hv).
    assert (E : silenceTimer (self w1) = silenceTimer (self w)
                /\ pendingFor OnSilenceTimer w1 = pendingFor OnSilenceTimer w
                /\ lastSpeechTime (self w1) = lastSpeechTime (self w)).
    { unfold silenceView in Hv. injection Hv as H1 H2 H3 _ _. auto. }
    rewrite handleSilenceTimeout_idle; [exact E|].
    destruct E as (-> & _ & ->). exact Hidle.
  - intros Hin Hc. now apply fire_silence_timer.
Qed.

Lemma silence_alarm_restarts_after_firing_witness :
  let w := boot 1000000 testConfig in
  let w' := after (processFrame [0.5; 0.5]%float) w in
  lastSpeechTime (self w') = Some 1000000
  /\ silenceTimer (self w') = None
  /\ pendingFor OnSilenceTimer w' = [].
Proof.
  cbv zeta.
  apply (proj1 (@silence_alarm_restarts_after_firing
                  (boot 1000000 testConfig) [0.5; 0.5]%float
                  (mkTimer 0 0 OnSilenceTimer)
                  (Forall_nil _)
                  (proj1 (proj2 (wellFormed_boot 1000000 testConfig))))).
  reflexivity.
Defined.

(** C1 as stated fails: one speech frame, then silence.  The alarm sounds
    10 s after the first silent frame, the next silent frame starts a new
    countdown, and it sounds again 10 s later -- twice in one silence
    episode, with no frame decided speech in between. *)
Lemma silence_alarm_sounds_twice_in_one_silence :
  let script := [ProcessFrame speechFrame; AdvanceTime 300;
                 ProcessFrame silenceFrame; AdvanceTime 10000;
                 ProcessFrame silenceFrame; AdvanceTime 10000] in
  let tr := observations (run script (boot 1000000 testConfig)) in
  option_map speechFrames tr = Some 1%nat
  /\ option_map alarms tr = Some 2%nat
  /\ option_map (oncePerEpisode false) tr = Some false.
Proof. cbv zeta. vm_compute. repeat split. Qed.

(* ================================================================== *)
(** * The repository's tests, replayed on the model *)
(* ================================================================== *)

Example test_frameSize : frameSize (constructor testConfig) = 480.
Proof. reflexivity. Qed.

Example test_rms_energy :
  calculateEnergy [0; 0; 0; 0]%float = 0%float
  /\ calculateEnergy [0.5; 0.5; 0.5; 0.5]%float = 0.5%float
  /\ calculateEnergy [1; -1; 1; -1]%float = 1%float.
Proof. repeat split. Qed.

Example test_detectSpeech_at_threshold :
  let v := set_noiseFloor 0.01%float
             (set_adaptiveThreshold 0.1%float
                (set_energyThreshold 0.1%float (constructor testConfig))) in
  detectSpeech v 0.05%float = false
  /\ detectSpeech v 0.15%float = true
  /\ detectSpeech v 0.1%float = false.
Proof. repeat split. Qed.

Example test_speech_start_delay :
  observations (run [ProcessFrame speechFrame; AdvanceTime 299]
                    (boot 1000000 testConfig))
  = Some [Decided true]
  /\ observations (run [ProcessFrame speechFrame; AdvanceTime 299; AdvanceTime 1]
                       (boot 1000000 testConfig))
     = Some [Decided true; Emitted (SpeechStart false)].
Proof. vm_compute. repeat split. Qed.

Example test_silence_timeout_after_10s :
  option_map alarms
    (observations
       (run ([ProcessFrame speechFrame; AdvanceTime 300]
               ++ repeat (ProcessFrame speechFrame) 10
               ++ [ProcessFrame silenceFrame; AdvanceTime 9900])
            (boot 1000000 testConfig)))
  = Some 0%nat
  /\ option_map alarms
       (observations
          (run ([ProcessFrame speechFrame; AdvanceTime 300]
                  ++ repeat (ProcessFrame speechFrame) 10
                  ++ [ProcessFrame silenceFrame; AdvanceTime 9900; AdvanceTime 100])
               (boot 1000000 testConfig)))
     = Some 1%nat.
Proof. vm_compute. repeat split. Qed.

Example test_partial_frames :
  option_map (fun r => length (frameBuffer (self (fst r))))
    (run [ProcessAudio (repeat 0%float 200); ProcessAudio (repeat 0%float 300)]
         (boot 1000000 testConfig))
  = Some 20%nat.
Proof. vm_compute. reflexivity. Qed.

(* ================================================================== *)
(** * The number layer, checked on known values *)
(* ================================================================== *)

Example fround_tenth : JS.fround 0.1%float = 0.10000000149011612%float.
Proof. reflexivity. Qed.

Example fround_half : JS.fround 0.5%float = 0.5%float.
Proof. reflexivity. Qed.

Example fround_overflow : JS.fround 1e300%float = infinity.
Proof. reflexivity. Qed.

Example fround_underflow : JS.fround 1e-46%float = 0%float.
Proof. reflexivity. Qed.

Example fround_subnormal : JS.fround 1e-40%float = 9.99994610111476e-41%float.
Proof. reflexivity. Qed.

Example fround_largest : JS.fround 3.4028235e38%float = 3.4028234663852886e+38%float.
Proof. reflexivity. Qed.

Example fround_not_identity : ~ isFloat32 0.1%float.
Proof. unfold isFloat32. apply float_neq. vm_compute. discriminate. Qed.

Example floor_frame_samples : JS.Math_floor (JS.Z2F 16000 * 0.03)%float = 480.
Proof. reflexivity. Qed.

Example floor_preroll_samples : JS.Math_floor (JS.Z2F 16000 * 0.3)%float = 4800.
Proof. reflexivity. Qed.

Example floor_negative : JS.Math_floor (-0.5)%float = -1.
Proof. reflexivity. Qed.

Example max_of_zeros : JS.Math_max neg_zero zero = zero.
Proof. reflexivity. Qed.

Example max_with_nan : JS.Math_max 1%float nan = nan.
Proof. reflexivity. Qed.

Example one_minus_alpha : (1 - 0.01)%float = 0.99%float.
Proof. reflexivity. Qed.

(* ================================================================== *)
(** * audio-analysis.js: the other frame features *)
(* ================================================================== *)

Example test_preEmphasis :
  AudioAnalysis.applyPreEmphasis [1; 0.5]%float 0.97%float
  = [1%float; JS.fround (0.5 - 0.97 * 1)%float].
Proof. reflexivity. Qed.

Example test_classify :
  AudioAnalysis.classifyFrame (repeat 0.001%float 100) 0.005%float = AudioAnalysis.Silence
  /\ AudioAnalysis.classifyFrame
       (map (fun i => if (Nat.modulo i 4 <? 2)%nat then 0.5%float else (-0.5)%float)
            (seq 0 100)) 0.5%float
     = AudioAnalysis.Unvoiced.
Proof. split; reflexivity. Qed.

Section FeatureFacts.
Import AudioAnalysis.

Lemma SFcompare_antisym (x y : spec_float) :
  SFcompare y x = option_map CompOpp (SFcompare x y).
Proof.
  destruct x as [sx|sx| |sx mx ex], y as [sy|sy| |sy my ey]; cbn;
    try reflexivity; try (destruct sx; reflexivity); try (destruct sy; reflexivity);
    try (destruct sx, sy; reflexivity).
  destruct sx, sy; cbn; try reflexivity.
  - rewrite (Z.compare_antisym ex ey). destruct (ex ?= ey); cbn; try reflexivity.
    rewrite (Pos.compare_cont_antisym mx my Eq). cbn.
    rewrite ?CompOpp_involutive. reflexivity.
  - rewrite (Z.compare_antisym ex ey). destruct (ex ?= ey); cbn; try reflexivity.
    rewrite (Pos.compare_cont_antisym mx my Eq). cbn.
    rewrite ?CompOpp_involutive. reflexivity.
Qed.

Lemma ltb_asym (x y : float) :
  PrimFloat.ltb x y = true -> PrimFloat.ltb y x = false.
Proof.
  rewrite !ltb_spec. unfold SFltb. rewrite (SFcompare_antisym (Prim2SF x) (Prim2SF y)).
  destruct (SFcompare (Prim2SF x) (Prim2SF y)) as [[]|]; cbn; congruence.
Qed.

Lemma length_preEmphasisLoop (coefficient : float) (rest : list float) :
  forall prev, length (preEmphasisLoop coefficient prev rest) = length rest.
Proof.
  induction rest as [|x rest IH]; intros prev; cbn [preEmphasisLoop length];
    [reflexivity | now rewrite IH].
Qed.

Lemma nth_preEmphasisLoop (coefficient : float) (rest : list float) :
  forall prev i,
    (i < length rest)%nat ->
    nth i (preEmphasisLoop coefficient prev rest) 0%float
    = JS.fround (nth i rest 0 - coefficient * nth i (prev :: rest) 0)%float.
Proof.
  induction rest as [|x rest IH]; intros prev i Hi; cbn [length] in Hi; [lia|].
  destruct i as [|i]; cbn [preEmphasisLoop nth]; [reflexivity|].
  rewrite IH by lia. reflexivity.
Qed.

Lemma length_autocorrelation (frame : Float32Array) (maxLag : nat) :
  length (autocorrelation frame maxLag) = maxLag.
Proof. unfold autocorrelation. now rewrite length_map, length_seq. Qed.

(** A square root is never negative. *)
Lemma sqrt_not_negative (x : float) :
  JS.isNaN (sqrt x) = true \/ JS.ge (sqrt x) 0 = true.
Proof.
  unfold JS.isNaN, JS.ge. rewrite leb_spec, sqrt_spec, Prim2SF_zero.
  unfold SF64sqrt, SFsqrt.
  destruct (Prim2SF x) as [s|[|]| |[|] m e]; cbn; auto.
  destruct (SFsqrt_core_binary prec emax (Zpos m) e) as [[mz ez] lz].
  unfold binary_round_aux.
  destruct (shr_fexp prec emax mz ez lz) as [mrs' e'].
  destruct (shr_fexp prec emax _ e' loc_Exact) as [mrs'' e''].
  destruct (shr_m mrs''); cbn; auto.
  match goal with |- context [if ?b then _ else _] => destruct b end; cbn; auto.
Qed.

End FeatureFacts.

(** X1. The "likely speech" flag of [extractVADFeatures] is exactly the test
    [energy > 0.01]: the class is ['silence'] exactly when [energy < 0.01],
    so the second half of the conjunction never decides. *)
Theorem isSpeechLikely_is_the_energy_test (frame : Float32Array) (sampleRate : float) :
  let f := AudioAnalysis.extractVADFeatures frame sampleRate in
  AudioAnalysis.f_isSpeechLikely f = JS.gt (AudioAnalysis.f_energy f) 0.01%float
  /\ (AudioAnalysis.f_frameClass f = AudioAnalysis.Silence
      <-> PrimFloat.ltb (AudioAnalysis.f_energy f) 0.01%float = true).
Proof.
  cbv zeta. unfold AudioAnalysis.extractVADFeatures.
  cbn [AudioAnalysis.f_isSpeechLikely AudioAnalysis.f_energy AudioAnalysis.f_frameClass].
  set (energy := AudioAnalysis.calculateFrameEnergy frame false).
  unfold AudioAnalysis.classifyFrame. cbv zeta.
  destruct (PrimFloat.ltb energy 0.01) eqn:L.
  - split; [|tauto]. unfold JS.gt. now rewrite (ltb_asym L).
  - split.
    + destruct (JS.gt (AudioAnalysis.calculateZeroCrossingRate frame) 0.1);
        now rewrite andb_true_r.
    + destruct (JS.gt (AudioAnalysis.calculateZeroCrossingRate frame) 0.1);
        split; discriminate.
Qed.

(** X2. For a frame of fewer than 42 samples [extractVADFeatures] reports a
    periodicity of -Infinity: the autocorrelation has at most 20 lags, all
    of which are skipped, and [Math.max()] of nothing is -Infinity. *)
Theorem periodicity_of_short_frames (frame : Float32Array) (sampleRate : float) :
  (length frame < 42)%nat ->
  AudioAnalysis.f_periodicity (AudioAnalysis.extractVADFeatures frame sampleRate)
  = neg_infinity.
Proof.
  intros H. unfold AudioAnalysis.extractVADFeatures.
  cbn [AudioAnalysis.f_periodicity].
  rewrite skipn_all2; [reflexivity|].
  rewrite length_autocorrelation.
  apply Nat.lt_succ_r. apply Nat.Div0.div_lt_upper_bound. lia.
Qed.

Lemma periodicity_of_short_frames_witness :
  AudioAnalysis.f_periodicity
    (AudioAnalysis.extractVADFeatures (repeat 0.5%float 41) 16000%float)
  = neg_infinity.
Proof.
  apply (@periodicity_of_short_frames (repeat 0.5%float 41) 16000%float).
  cbn. lia.
Defined.

(** X3. [applyPreEmphasis] returns a frame of the same length for every
    frame, the empty one included; its first sample is the frame's first
    sample and each later one is [frame[i] - coefficient * frame[i - 1]],
    rounded to binary32 by the store. *)
Theorem applyPreEmphasis_samples
        (frame : Float32Array) (coefficient : float) (i : nat) :
  length (AudioAnalysis.applyPreEmphasis frame coefficient) = length frame
  /\ nth 0 (AudioAnalysis.applyPreEmphasis frame coefficient) 0%float
     = match frame with [] => 0%float | x0 :: _ => JS.fround x0 end
  /\ ((1 <= i < length frame)%nat ->
      nth i (AudioAnalysis.applyPreEmphasis frame coefficient) 0%float
      = JS.fround (nth i frame 0 - coefficient * nth (i - 1) frame 0)%float).
Proof.
  destruct frame as [|x0 rest]; cbn [AudioAnalysis.applyPreEmphasis length].
  - repeat split. intros H; cbn in H; lia.
  - split; [now rewrite length_preEmphasisLoop|]. split; [reflexivity|].
    intros [H1 H2]. destruct i as [|i]; [lia|]. cbn [nth Nat.sub].
    rewrite Nat.sub_0_r. rewrite nth_preEmphasisLoop by lia. reflexivity.
Qed.

Lemma applyPreEmphasis_samples_witness :
  nth 1 (AudioAnalysis.applyPreEmphasis [1; 0.5]%float 0.97%float) 0%float
  = JS.fround (0.5 - 0.97 * 1)%float.
Proof.
  apply (proj2 (proj2 (@applyPreEmphasis_samples [1; 0.5]%float 0.97%float 1))).
  cbn. lia.
Defined.

(** X4. The energy of a frame -- the detector's [calculateEnergy] and the
    utility's [calculateFrameEnergy], with or without pre-emphasis -- is
    never negative: it is NaN (as for the empty frame, 0/0) or at least 0.
    Without pre-emphasis the two functions compute the same number. *)
Theorem energy_is_never_negative (frame : Float32Array) (usePreEmphasis : bool) :
  (JS.isNaN (calculateEnergy frame) = true \/ JS.ge (calculateEnergy frame) 0 = true)
  /\ (JS.isNaN (AudioAnalysis.calculateFrameEnergy frame usePreEmphasis) = true
      \/ JS.ge (AudioAnalysis.calculateFrameEnergy frame usePreEmphasis) 0 = true)
  /\ AudioAnalysis.calculateFrameEnergy frame false = calculateEnergy frame
  /\ JS.isNaN (calculateEnergy []) = true.
Proof.
  repeat split; try apply sqrt_not_negative.
Qed.

(* ================================================================== *)
(** * The shape of [processFrame] *)
(* ================================================================== *)

Section NormalForm.

(** [processFrame] is: update the threshold, buffer the frame, make the
    transition for the decision, cut the segment if it has reached the
    maximum duration, look after the silence alarm.  The test for the cut
    can be made on the state before the frame, since the transition changes
    neither the speaking flag nor the start time. *)
Lemma processFrame_normal_form (frame : Float32Array) (w : World) :
  let d := detectSpeech (self w) (calculateEnergy frame) in
  after (processFrame frame) w
  = after (transition d (isSpeaking (self w)) ;;
           (if forcedCut w then forceEndSpeech else skip) ;;
           handleSilenceTimeout d)
          (buffered frame w).
Proof.
  destruct w as [[n q i] v].
  destruct v as [sr fs et ssd sed maxd mind sto spk sst set_ lst ab fb nf at_ sstT seT siT].
  unfold forcedCut, buffered, transition.
  cbn [self rt now isSpeaking speechStartTime maxChunkDuration]. cbv zeta.
  destruct (detectSpeech _ _) eqn:D;
    destruct spk; cbn [andb negb];
    try (destruct sst as [t0|]; cbn [truthyTime toNumber andb];
         [destruct (t0 =? 0) eqn:Z0; cbn [negb andb];
          destruct (maxd <=? n - t0) eqn:Mx; destruct (mind <=? n - t0) eqn:Mn|]);
    symex; rewrite ?D; symex_more; branch; reflexivity.
Qed.

End NormalForm.

(* ================================================================== *)
(** * Frames and the phases of the segmentation *)
(* ================================================================== *)

(** X5 ([processFrame], [getStatus]).  A frame that does not reach the
    maximum segment duration is only recorded: nothing is emitted, the
    samples are appended to the segment buffer (the reported buffer length
    grows by the frame length), and the speaking flag and the recorded
    start time stay as they are.  Segments start and end in timers or in a
    forced cut, never in the frame itself. *)
Theorem frame_without_cut_is_only_buffered (frame : Float32Array) (w : World) :
  forcedCut w = false ->
  let w' := after (processFrame frame) w in
  events (processFrame frame) w = []
  /\ audioBuffer (self w') = audioBuffer (self w) ++ frame
  /\ st_bufferLength (getStatus (self w'))
     = (st_bufferLength (getStatus (self w)) + length frame)%nat
  /\ st_isSpeaking (getStatus (self w')) = st_isSpeaking (getStatus (self w))
  /\ speechStartTime (self w') = speechStartTime (self w).
Proof.
  destruct w as [[n q i] v].
  destruct v as [sr fs et ssd sed maxd mind sto spk sst set_ lst ab fb nf at_ sstT seT siT].
  unfold forcedCut, getStatus.
  cbn [self rt now isSpeaking speechStartTime maxChunkDuration st_bufferLength st_isSpeaking].
  intros H. cbv zeta.
  assert (L : forall x : list float, length (ab ++ x) = (length ab + length x)%nat)
    by (intros; apply length_app).
  destruct (detectSpeech
              (mkVAD sr fs et ssd sed maxd mind sto spk sst set_ lst ab fb nf at_ sstT seT siT)
              (calculateEnergy frame)) eqn:D;
    destruct spk; cbn [andb negb] in H;
    try (destruct sst as [t0|]; cbn [truthyTime toNumber andb] in H;
         [destruct (t0 =? 0) eqn:Z0; cbn [negb andb] in H|]);
    symex; rewrite ?D; symex_more; branch; rewrite ?L; repeat split; reflexivity.
Qed.

Lemma frame_without_cut_is_only_buffered_witness :
  let w := boot 0 testConfig in
  let w' := after (processFrame speechFrame) w in
  events (processFrame speechFrame) w = []
  /\ audioBuffer (self w') = audioBuffer (self w) ++ speechFrame
  /\ st_bufferLength (getStatus (self w'))
     = (st_bufferLength (getStatus (self w)) + length speechFrame)%nat
  /\ st_isSpeaking (getStatus (self w')) = st_isSpeaking (getStatus (self w))
  /\ speechStartTime (self w') = speechStartTime (self w).
Proof.
  apply (frame_without_cut_is_only_buffered speechFrame (boot 0 testConfig)).
  reflexivity.
Defined.

Lemma phase_after_processFrame (frame : Float32Array) (w : World) :
  phase (self (after (processFrame frame) w))
  = nextPhase (result (processFrame frame) w) (phase (self w)).
Proof.
  destruct w as [[n q i] v].
  destruct v as [sr fs et ssd sed maxd mind sto spk sst set_ lst ab fb nf at_ sstT seT siT].
  remember phase as ph eqn:Hph.
  destruct (detectSpeech
              (mkVAD sr fs et ssd sed maxd mind sto spk sst set_ lst ab fb nf at_ sstT seT siT)
              (calculateEnergy frame)) eqn:D;
    destruct spk;
    try (destruct sst as [t0|];
         [destruct (t0 =? 0) eqn:Z0;
          destruct (maxd <=? n - t0) eqn:Mx; destruct (mind <=? n - t0) eqn:Mn|]);
    symex; rewrite ?D; symex_more; branch; subst ph; reflexivity.
Qed.

(** X6 ([processFrame], [handleSpeechStart], [handleSpeechEnd]).  Whatever
    the state, a frame moves the detector through the phases as the table
    [nextPhase] says.  In particular a non-speech frame leaves a pending
    onset confirmation in place, and a forced cut does not change the
    phase. *)
Theorem processFrame_steps_the_phase (frame : Float32Array) (w : World) :
  let isSpeech := detectSpeech (self w) (calculateEnergy frame) in
  result (processFrame frame) w = isSpeech
  /\ phase (self (after (processFrame frame) w)) = nextPhase isSpeech (phase (self w)).
Proof.
  cbv zeta. split; [apply result_processFrame|].
  rewrite <- result_processFrame. apply phase_after_processFrame.
Qed.

(* ================================================================== *)
(** * The phase is backed by a pending timer *)
(* ================================================================== *)

(** Decide a [backedOn] goal from the hypotheses once the pending lists
    and the fields are explicit. *)
Ltac backed_solve :=
  unfold backed, backedOn, phase in *;
  cbn [handleFor setHandleFor self rt] in *;
  repeat match goal with
         | |- context [pendingFor ?c ?w] =>
             let l := fresh "l" in set (l := pendingFor c w) in *; clearbody l
         | H : context [pendingFor ?c ?w] |- _ =>
             let l := fresh "l" in set (l := pendingFor c w) in *; clearbody l
         end;
  repeat match goal with
         | H : owned _ |- _ => clear H
         | H : handlesOk _ |- _ => clear H
         end;
  repeat match goal with
         | v : VAD |- _ => destruct v
         end;
  cbn in *;
  repeat match goal with
         | x : bool |- _ => destruct x
         | x : option nat |- _ => destruct x
         end;
  cbn in *;
  intuition (try congruence);
  try solve [ match goal with H : ?l ++ [_] = [] |- _ => now destruct l end ].

Section Coherent.

Lemma arm_held (c : Callback) (delayField : VAD -> Z) (w : World) (id : nat) :
  handleFor c (self w) = Some id ->
  after (arm (handleFor c) (setHandleFor c) c delayField) w = w.
Proof.
  intros H. unfold arm. rewrite after_bind.
  change (result (this (handleFor c)) w) with (handleFor c (self w)).
  change (after (this (handleFor c)) w) with w.
  rewrite H. reflexivity.
Qed.

Lemma pendingFor_cancel_same (c : Callback) (w : World) :
  owned w -> pendingFor c (after (cancel (handleFor c) (setHandleFor c)) w) = [].
Proof.
  intros Ho. apply owned_none_pending; [now apply owned_cancel|].
  destruct (self_after_cancel c w) as [E _]. rewrite E.
  destruct (handleFor c (self w)) eqn:H; [apply handleFor_set_same | exact H].
Qed.

Lemma pendingFor_arm_same (c : Callback) (delayField : VAD -> Z) (w : World) :
  handleFor c (self w) = None ->
  pendingFor c (after (arm (handleFor c) (setHandleFor c) c delayField) w)
  = pendingFor c w
    ++ [mkTimer (nextId (rt w)) (now (rt w) + timerDelay (delayField (self w))) c].
Proof.
  intros H. unfold arm. rewrite after_bind.
  change (result (this (handleFor c)) w) with (handleFor c (self w)).
  change (after (this (handleFor c)) w) with w.
  rewrite H. unfold pendingFor.
  cbn -[timerDelay Z.add]. rewrite filter_app. cbn -[timerDelay Z.add].
  destruct (Callback_eqb c c) eqn:Q; [reflexivity|].
  destruct c; discriminate.
Qed.

Lemma coherent_cancel_offset :
  preserves coherent (cancel speechEndTimer set_speechEndTimer).
Proof.
  intros w (Ho & Hh & Hb).
  split; [exact (owned_cancel OnSpeechEndTimer Ho)|].
  split; [exact (handlesOk_cancel OnSpeechEndTimer Hh)|].
  unfold backed.
  change (cancel speechEndTimer set_speechEndTimer)
    with (cancel (handleFor OnSpeechEndTimer) (setHandleFor OnSpeechEndTimer)).
  rewrite (pendingFor_cancel_same OnSpeechEndTimer Ho).
  rewrite (@pendingFor_cancel_other OnSpeechStartTimer OnSpeechEndTimer w); auto; try discriminate.
  destruct (self_after_cancel OnSpeechEndTimer w) as [E _]. rewrite E. clear E.
  destruct w as [r v]. backed_solve.
Qed.

Lemma coherent_cancel_onset :
  preserves coherent (cancel speechStartTimer set_speechStartTimer).
Proof.
  intros w (Ho & Hh & Hb).
  split; [exact (owned_cancel OnSpeechStartTimer Ho)|].
  split; [exact (handlesOk_cancel OnSpeechStartTimer Hh)|].
  unfold backed.
  change (cancel speechStartTimer set_speechStartTimer)
    with (cancel (handleFor OnSpeechStartTimer) (setHandleFor OnSpeechStartTimer)).
  rewrite (pendingFor_cancel_same OnSpeechStartTimer Ho).
  rewrite (@pendingFor_cancel_other OnSpeechEndTimer OnSpeechStartTimer w); auto; try discriminate.
  destruct (self_after_cancel OnSpeechStartTimer w) as [E _]. rewrite E. clear E.
  destruct w as [r v]. backed_solve.
Qed.

Lemma coherent_cancel_silence :
  preserves coherent (cancel silenceTimer set_silenceTimer).
Proof.
  intros w (Ho & Hh & Hb).
  split; [exact (owned_cancel OnSilenceTimer Ho)|].
  split; [exact (handlesOk_cancel OnSilenceTimer Hh)|].
  unfold backed.
  change (cancel silenceTimer set_silenceTimer)
    with (cancel (handleFor OnSilenceTimer) (setHandleFor OnSilenceTimer)).
  rewrite (@pendingFor_cancel_other OnSpeechStartTimer OnSilenceTimer w); auto; try discriminate.
  rewrite (@pendingFor_cancel_other OnSpeechEndTimer OnSilenceTimer w); auto; try discriminate.
  destruct (self_after_cancel OnSilenceTimer w) as [E _]. rewrite E. clear E.
  destruct w as [r v]. backed_solve.
Qed.

Lemma coherent_arm_silence (delayField : VAD -> Z) :
  preserves coherent (arm silenceTimer set_silenceTimer OnSilenceTimer delayField).
Proof.
  intros w (Ho & Hh & Hb).
  split; [exact (owned_arm OnSilenceTimer delayField Ho)|].
  split; [exact (handlesOk_arm OnSilenceTimer delayField Hh)|].
  unfold backed.
  change (arm silenceTimer set_silenceTimer OnSilenceTimer delayField)
    with (arm (handleFor OnSilenceTimer) (setHandleFor OnSilenceTimer) OnSilenceTimer delayField).
  rewrite (@pendingFor_arm_other OnSpeechStartTimer OnSilenceTimer delayField w); try discriminate.
  rewrite (@pendingFor_arm_other OnSpeechEndTimer OnSilenceTimer delayField w); try discriminate.
  destruct (self_after_arm OnSilenceTimer delayField w) as [E _]. rewrite E. clear E.
  destruct w as [r v]. backed_solve.
Qed.

Lemma coherent_arm_onset (delayField : VAD -> Z) (w : World) :
  coherent w -> isSpeaking (self w) = false -> speechEndTimer (self w) = None ->
  coherent (after (arm speechStartTimer set_speechStartTimer OnSpeechStartTimer delayField) w).
Proof.
  intros (Ho & Hh & Hb) Hs He.
  change (arm speechStartTimer set_speechStartTimer OnSpeechStartTimer delayField)
    with (arm (handleFor OnSpeechStartTimer) (setHandleFor OnSpeechStartTimer)
              OnSpeechStartTimer delayField).
  destruct (handleFor OnSpeechStartTimer (self w)) as [id|] eqn:E.
  { rewrite (arm_held _ _ _ E). exact (conj Ho (conj Hh Hb)). }
  split; [exact (owned_arm OnSpeechStartTimer delayField Ho)|].
  split; [exact (handlesOk_arm OnSpeechStartTimer delayField Hh)|].
  unfold backed.
  rewrite (pendingFor_arm_same _ _ _ E).
  rewrite (@pendingFor_arm_other OnSpeechEndTimer OnSpeechStartTimer delayField w); try discriminate.
  destruct (self_after_arm OnSpeechStartTimer delayField w) as [E' _]. rewrite E', E. clear E'.
  destruct w as [r v]. backed_solve.
Qed.

Lemma coherent_arm_offset (delayField : VAD -> Z) (w : World) :
  coherent w -> isSpeaking (self w) = true -> speechStartTimer (self w) = None ->
  coherent (after (arm speechEndTimer set_speechEndTimer OnSpeechEndTimer delayField) w).
Proof.
  intros (Ho & Hh & Hb) Hs He.
  change (arm speechEndTimer set_speechEndTimer OnSpeechEndTimer delayField)
    with (arm (handleFor OnSpeechEndTimer) (setHandleFor OnSpeechEndTimer)
              OnSpeechEndTimer delayField).
  destruct (handleFor OnSpeechEndTimer (self w)) as [id|] eqn:E.
  { rewrite (arm_held _ _ _ E). exact (conj Ho (conj Hh Hb)). }
  split; [exact (owned_arm OnSpeechEndTimer delayField Ho)|].
  split; [exact (handlesOk_arm OnSpeechEndTimer delayField Hh)|].
  unfold backed.
  rewrite (pendingFor_arm_same _ _ _ E).
  rewrite (@pendingFor_arm_other OnSpeechStartTimer OnSpeechEndTimer delayField w); try discriminate.
  destruct (self_after_arm OnSpeechEndTimer delayField w) as [E' _]. rewrite E', E. clear E'.
  destruct w as [r v]. backed_solve.
Qed.

Lemma handle_after_cancel (c : Callback) (w : World) :
  handleFor c (self (after (cancel (handleFor c) (setHandleFor c)) w)) = None.
Proof.
  destruct (self_after_cancel c w) as [E _]. rewrite E.
  destruct (handleFor c (self w)) eqn:H; [apply handleFor_set_same | exact H].
Qed.

Lemma coherent_handleSpeechStart : preserves coherent handleSpeechStart.
Proof.
  intros w Hw. unfold handleSpeechStart. rewrite after_bind. cbv beta.
  pose proof (coherent_cancel_offset Hw) as H1.
  pose proof (handle_after_cancel OnSpeechEndTimer w) as E1.
  change (cancel (handleFor OnSpeechEndTimer) (setHandleFor OnSpeechEndTimer))
    with (cancel speechEndTimer set_speechEndTimer) in E1.
  set (w1 := after (cancel speechEndTimer set_speechEndTimer) w) in *.
  rewrite after_bind.
  change (result (this isSpeaking) w1) with (isSpeaking (self w1)).
  change (after (this isSpeaking) w1) with w1.
  destruct (isSpeaking (self w1)) eqn:S; [exact H1 | now apply coherent_arm_onset].
Qed.

Lemma coherent_handleSpeechEnd : preserves coherent handleSpeechEnd.
Proof.
  intros w Hw. unfold handleSpeechEnd. rewrite after_bind. cbv beta.
  pose proof (coherent_cancel_onset Hw) as H1.
  pose proof (handle_after_cancel OnSpeechStartTimer w) as E1.
  change (cancel (handleFor OnSpeechStartTimer) (setHandleFor OnSpeechStartTimer))
    with (cancel speechStartTimer set_speechStartTimer) in E1.
  set (w1 := after (cancel speechStartTimer set_speechStartTimer) w) in *.
  rewrite after_bind.
  change (result (this isSpeaking) w1) with (isSpeaking (self w1)).
  change (after (this isSpeaking) w1) with w1.
  destruct (isSpeaking (self w1)) eqn:S; [now apply coherent_arm_offset | exact H1].
Qed.

(** Only the queue, the handle fields and the speaking flag matter. *)
Lemma coherent_same (w w' : World) :
  queue (rt w') = queue (rt w) ->
  nextId (rt w') = nextId (rt w) ->
  (forall c, handleFor c (self w') = handleFor c (self w)) ->
  isSpeaking (self w') = isSpeaking (self w) ->
  coherent w -> coherent w'.
Proof.
  intros Hq Hi Hh Hs (Ho & [Hf Hd] & Hb).
  split; [|split; [split|]].
  - unfold owned in *. rewrite Hq. eapply Forall_impl; [|exact Ho].
    intros t Ht; cbn in *. now rewrite Hh.
  - intros c id. rewrite Hh, Hi. apply Hf.
  - intros c c' id. rewrite !Hh. apply Hd.
  - unfold backed, pendingFor, backedOn, phase in *. rewrite Hq, Hs.
    pose proof (Hh OnSpeechStartTimer) as H1. pose proof (Hh OnSpeechEndTimer) as H2.
    cbn [handleFor] in H1, H2. rewrite H1, H2. exact Hb.
Qed.

Lemma coherent_assign (upd : VAD -> VAD) :
  keepsHandles upd -> (forall v, isSpeaking (upd v) = isSpeaking v) ->
  preserves coherent (assign upd).
Proof.
  intros K Hs w Hw. apply (coherent_same (w := w)); auto.
  - intros c. apply K.
  - apply Hs.
Qed.

Lemma coherent_forceEndSpeech (w : World) :
  coherent w -> isSpeaking (self w) = true -> coherent (after forceEndSpeech w).
Proof.
  intros Hw Hs. apply (coherent_same (w := w)); auto;
    destruct w as [[n q i] v];
    destruct v as [sr fs et ssd sed maxd mind sto spk sst set_ lst ab fb nf at_ sstT seT siT];
    cbn in Hs; subst spk; try intros c; symex; branch; try reflexivity;
    destruct c; reflexivity.
Qed.

Lemma coherent_handleSilenceTimeout (isSpeech : bool) :
  preserves coherent (handleSilenceTimeout isSpeech).
Proof.
  unfold handleSilenceTimeout.
  pres_with ltac:(idtac;
    lazymatch goal with
    | |- preserves _ (cancel silenceTimer _) => exact coherent_cancel_silence
    | |- preserves _ (arm silenceTimer _ _ _) => exact (coherent_arm_silence _)
    | |- preserves _ (assign _) =>
        apply coherent_assign; [keeps_handles | intros []; reflexivity]
    end).
Qed.

Lemma coherent_transition (isSpeech speaking : bool) :
  preserves coherent (transition isSpeech speaking).
Proof.
  unfold transition. destruct isSpeech, speaking; cbn [andb negb].
  - exact coherent_cancel_offset.
  - exact coherent_handleSpeechStart.
  - exact coherent_handleSpeechEnd.
  - apply preserves_skip.
Qed.

Lemma transition_keeps_flag (isSpeech speaking : bool) (w : World) :
  isSpeaking (self (after (transition isSpeech speaking) w)) = isSpeaking (self w).
Proof.
  destruct w as [[n q i] v].
  destruct v as [sr fs et ssd sed maxd mind sto spk sst set_ lst ab fb nf at_ sstT seT siT].
  unfold transition. destruct isSpeech, speaking; cbn [andb negb];
    symex; branch; reflexivity.
Qed.

Lemma coherent_processFrame (frame : Float32Array) :
  preserves coherent (processFrame frame).
Proof.
  intros w Hw. rewrite processFrame_normal_form. cbv zeta.
  set (d := detectSpeech (self w) (calculateEnergy frame)).
  assert (H0 : coherent (buffered frame w)).
  { apply (coherent_same (w := w)); auto; unfold buffered; cbv zeta; fold d;
      try intros c; destruct d; try reflexivity; destruct c; reflexivity. }
  assert (S0 : isSpeaking (self (buffered frame w)) = isSpeaking (self w)).
  { unfold buffered; cbv zeta; fold d. destruct d; reflexivity. }
  rewrite after_bind. cbv beta.
  pose proof (coherent_transition d (isSpeaking (self w)) H0) as H1.
  pose proof (transition_keeps_flag d (isSpeaking (self w)) (buffered frame w)) as S1.
  rewrite S0 in S1.
  set (w1 := after (transition d (isSpeaking (self w))) (buffered frame w)) in *.
  rewrite after_bind. cbv beta.
  apply coherent_handleSilenceTimeout.
  destruct (forcedCut w) eqn:F; [|exact H1].
  apply coherent_forceEndSpeech; [exact H1|].
  rewrite S1. unfold forcedCut in F.
  destruct (isSpeaking (self w)); [reflexivity | discriminate].
Qed.

Lemma pendingFor_drop_own (c : Callback) (id : nat) (w : World) :
  owned w -> handleFor c (self w) = Some id ->
  dropTimer id (pendingFor c w) = [].
Proof.
  unfold owned, pendingFor, dropTimer. intros Ho Hc.
  induction Ho as [|t q Ht _ IH]; cbn [filter]; [reflexivity|].
  destruct (Callback_eqb (cb t) c) eqn:Q; [|exact IH].
  apply Callback_eqb_eq in Q. rewrite Q, Hc in Ht. injection Ht as ->.
  cbn [filter]. now rewrite Nat.eqb_refl.
Qed.

Lemma pendingFor_drop_other (c c' : Callback) (id : nat) (w : World) :
  owned w -> handlesOk w -> handleFor c' (self w) = Some id -> c <> c' ->
  dropTimer id (pendingFor c w) = pendingFor c w.
Proof.
  intros Ho [_ Hd] Hc Hne. apply dropTimer_absent, Forall_forall.
  intros t Ht. apply In_pendingFor in Ht as [Hin Hcb].
  unfold owned in Ho. rewrite Forall_forall in Ho. specialize (Ho t Hin).
  rewrite Hcb in Ho. intros E. rewrite E in Ho. apply Hne. exact (Hd c c' id Ho Hc).
Qed.

(** What a timer closure does to the fields the phase depends on. *)
Lemma runCallback_effect (c : Callback) (w : World) :
  let w' := after (runCallback c) w in
  queue (rt w') = queue (rt w)
  /\ isSpeaking (self w')
     = match c with
       | OnSpeechStartTimer => true
       | OnSpeechEndTimer => false
       | OnSilenceTimer => isSpeaking (self w)
       end
  /\ speechStartTimer (self w') = speechStartTimer (self w)
  /\ speechEndTimer (self w') = speechEndTimer (self w).
Proof.
  destruct w as [[n q i] v].
  destruct v as [sr fs et ssd sed maxd mind sto spk sst set_ lst ab fb nf at_ sstT seT siT].
  destruct c; cbn [runCallback]; try destruct spk; symex; branch; repeat split; reflexivity.
Qed.

Lemma coherent_fire (t : Timer) (w : World) :
  coherent w -> In t (queue (rt w)) -> coherent (after (fire t) w).
Proof.
  intros (Ho & Hh & Hb) Hin.
  split; [now apply owned_fire|]. split; [now apply handlesOk_fire|].
  unfold fire. rewrite after_bind. cbv beta.
  set (w1 := after _ w).
  destruct (runCallback_effect (cb t) w1) as (Eq & Es & E1 & E2).
  assert (Hp : forall c, pendingFor c (after (runCallback (cb t)) w1)
                         = dropTimer (tid t) (pendingFor c w)).
  { intros c. unfold pendingFor at 1. rewrite Eq. subst w1.
    cbn [after fst snd rt queue]. apply dropTimer_filter. }
  assert (Hown : handleFor (cb t) (self w) = Some (tid t)).
  { unfold owned in Ho. rewrite Forall_forall in Ho. now apply Ho. }
  assert (Hne : pendingFor (cb t) w <> []).
  { intros E. assert (Hi : In t (pendingFor (cb t) w)) by now apply In_pendingFor.
    rewrite E in Hi. exact Hi. }
  unfold backed, backedOn, phase. rewrite !Hp, Es, E1, E2.
  change (self w1) with (self w).
  destruct (cb t) eqn:Ec.
  - rewrite (pendingFor_drop_own OnSpeechStartTimer Ho Hown).
    rewrite (@pendingFor_drop_other OnSpeechEndTimer OnSpeechStartTimer (tid t) w);
      auto; try discriminate.
    clear Hp Hown Eq Es E1 E2 w1 Hin. destruct w as [r v]. backed_solve.
  - rewrite (pendingFor_drop_own OnSpeechEndTimer Ho Hown).
    rewrite (@pendingFor_drop_other OnSpeechStartTimer OnSpeechEndTimer (tid t) w);
      auto; try discriminate.
    clear Hp Hown Eq Es E1 E2 w1 Hin. destruct w as [r v]. backed_solve.
  - rewrite (@pendingFor_drop_other OnSpeechStartTimer OnSilenceTimer (tid t) w);
      auto; try discriminate.
    rewrite (@pendingFor_drop_other OnSpeechEndTimer OnSilenceTimer (tid t) w);
      auto; try discriminate.
Qed.

Lemma coherent_reset : preserves coherent reset.
Proof.
  intros w (Ho & Hh & Hb).
  split; [now apply owned_reset|]. split; [now apply handlesOk_reset|].
  unfold backed, pendingFor. rewrite (reset_clears_queue Ho).
  destruct (reset_fields w) as (-> & _).
  unfold backedOn, phase. cbn. repeat split; intros; congruence.
Qed.

Lemma coherent_boot (t0 : Z) (config : AudioConfig) : coherent (boot t0 config).
Proof.
  destruct (wellFormed_boot t0 config) as (Ho & Hh & _).
  split; [exact Ho|]. split; [exact Hh|].
  unfold backed, backedOn, phase. cbn. repeat split; intros; congruence.
Qed.

End Coherent.

(* ================================================================== *)
(** * Invariants of a run *)
(* ================================================================== *)

Section RunInvariant.
Context {engine : Engine}.
Variable P : World -> Prop.
Hypothesis P_frame : forall frame, preserves P (processFrame frame).
Hypothesis P_assemble :
  forall f : VAD -> list float, preserves P (assign (fun v => set_frameBuffer (f v) v)).
Hypothesis P_fire : forall t w, P w -> In t (queue (rt w)) -> P (after (fire t) w).
Hypothesis P_clock :
  forall w n, P w -> P (mkWorld (mkRuntime n (queue (rt w)) (nextId (rt w))) (self w)).
Hypothesis P_reset : preserves P reset.
Hypothesis P_updateConfig :
  forall config w, P w -> P (mkWorld (rt w) (updateConfig config (self w))).

Lemma invariant_step (a : Action) (w w' : World) (tr : list Obs) :
  P w -> step a w = Some (w', tr) -> P w'.
Proof.
  intros Hw. destruct a; [taken_block | cbn [step] ..].
  - destruct (processAccepted audioData w) as [[r w1] out] eqn:E.
    destruct r; [|discriminate]. intros [= <- _].
    replace w1 with (after (processAccepted audioData) w) by (unfold after; now rewrite E).
    apply preserves_processAccepted;
      [exact P_frame | intros b; exact (P_assemble (fun _ => b))
      | exact (P_assemble (fun v => frameBuffer v ++ audioData)) | exact Hw].
  - destruct (processFrame frame w) as [[r w1] out] eqn:E. intros [= <- _].
    replace w1 with (after (processFrame frame) w) by (unfold after; now rewrite E).
    now apply P_frame.
  - destruct (advanceTimersByTime ms w) as [[r w1] out] eqn:E. intros [= <- _].
    replace w1 with (after (advanceTimersByTime ms) w) by (unfold after; now rewrite E).
    apply preserves_advanceTimersByTime; auto.
  - destruct (reset w) as [[r w1] out] eqn:E. intros [= <- _].
    replace w1 with (after reset w) by (unfold after; now rewrite E).
    now apply P_reset.
  - intros [= <- _]. now apply P_updateConfig.
  - now intros [= <- _].
Qed.

Lemma invariant_run (script : list Action) :
  forall w w' tr, P w -> run script w = Some (w', tr) -> P w'.
Proof.
  induction script as [|a script IH]; intros w w' tr Hw; cbn [run].
  - now intros [= <- _].
  - destruct (step a w) as [[w1 o1]|] eqn:E; [|discriminate].
    destruct (run script w1) as [[w2 o2]|] eqn:R; [|discriminate].
    intros [= <- _]. eapply IH; [|exact R]. eapply invariant_step; eauto.
Qed.

End RunInvariant.

Section CoherentRuns.
Context {engine : Engine}.

Lemma coherent_run (script : list Action) (w w' : World) (tr : list Obs) :
  coherent w -> run script w = Some (w', tr) -> coherent w'.
Proof.
  apply invariant_run.
  - exact coherent_processFrame.
  - intros f. apply coherent_assign; [intros [] ?; reflexivity | reflexivity].
  - exact coherent_fire.
  - intros w0 n. apply coherent_same; try reflexivity.
  - exact coherent_reset.
  - intros config w0. apply coherent_same; reflexivity.
Qed.

End CoherentRuns.

(** X7 (the timers of [handleSpeechStart] and [handleSpeechEnd], over any
    use of a constructed detector).  In every state a detector can reach,
    an onset timer is pending exactly when the detector is confirming a
    start (not speaking, [speechStartTimer] set), and an offset timer is
    pending exactly when it is confirming an end (speaking,
    [speechEndTimer] set).  The handles that the timer closures leave
    behind after firing are therefore never mistaken for a running
    timer. *)
Theorem confirmations_are_backed_by_pending_timers {engine : Engine}
        (script : list Action) (t0 : Z) (config : AudioConfig)
        (w : World) (tr : list Obs) :
  run script (boot t0 config) = Some (w, tr) ->
  (phase (self w) = ConfirmingStart <-> pendingFor OnSpeechStartTimer w <> [])
  /\ (phase (self w) = ConfirmingEnd <-> pendingFor OnSpeechEndTimer w <> []).
Proof.
  intros R.
  destruct (coherent_run script (coherent_boot t0 config) R) as (_ & _ & H1 & H2 & _).
  split; symmetry; assumption.
Qed.

Lemma confirmations_are_backed_by_pending_timers_witness :
  let w := after (processFrame speechFrame) (boot 0 testConfig) in
  (phase (self w) = ConfirmingStart <-> pendingFor OnSpeechStartTimer w <> [])
  /\ (phase (self w) = ConfirmingEnd <-> pendingFor OnSpeechEndTimer w <> []).
Proof.
  apply (@confirmations_are_backed_by_pending_timers node
           [ProcessFrame speechFrame] 0 testConfig
           (after (processFrame speechFrame) (boot 0 testConfig))
           [Decided true]).
  vm_compute. reflexivity.
Defined.

(** X8 ([processFrame], [handleSpeechStart], [handleSpeechEnd]).  No
    decision is lost on a detector in use: after a frame decided speech
    while not speaking, the onset timer named by [speechStartTimer] is
    pending; after a frame decided non-speech while speaking, the offset
    timer named by [speechEndTimer] is pending -- also when that frame
    forced a cut. *)
Theorem decisions_leave_their_timer_pending {engine : Engine}
        (script : list Action) (t0 : Z) (config : AudioConfig)
        (w : World) (tr : list Obs) (frame : Float32Array) :
  run script (boot t0 config) = Some (w, tr) ->
  let w' := after (processFrame frame) w in
  let decision := result (processFrame frame) w in
  (isSpeaking (self w) = false -> decision = true ->
   exists t, In t (queue (rt w')) /\ cb t = OnSpeechStartTimer
             /\ speechStartTimer (self w') = Some (tid t))
  /\ (isSpeaking (self w) = true -> decision = false ->
      exists t, In t (queue (rt w')) /\ cb t = OnSpeechEndTimer
                /\ speechEndTimer (self w') = Some (tid t)).
Proof.
  intros R. cbv zeta.
  pose proof (coherent_run script (coherent_boot t0 config) R) as Hw.
  destruct (coherent_processFrame frame Hw) as (Ho & _ & H1 & H2 & _).
  pose proof (phase_after_processFrame frame w) as Hp.
  unfold owned in Ho. rewrite Forall_forall in Ho.
  assert (Hex : forall c, pendingFor c (after (processFrame frame) w) <> [] ->
                exists t, In t (queue (rt (after (processFrame frame) w))) /\ cb t = c
                          /\ handleFor c (self (after (processFrame frame) w)) = Some (tid t)).
  { intros c Hne. destruct (pendingFor c _) as [|t l] eqn:E; [now contradict Hne|].
    assert (Hin : In t (pendingFor c (after (processFrame frame) w)))
      by (rewrite E; now left).
    apply In_pendingFor in Hin as [Hin Hc]. exists t. repeat split; auto.
    rewrite <- Hc. now apply Ho. }
  split; intros Hs Hd; rewrite Hd in Hp.
  - apply (Hex OnSpeechStartTimer), H1. rewrite Hp.
    unfold phase. rewrite Hs. now destruct (speechStartTimer (self w)).
  - apply (Hex OnSpeechEndTimer), H2. rewrite Hp.
    unfold phase. rewrite Hs. now destruct (speechEndTimer (self w)).
Qed.

Lemma decisions_leave_their_timer_pending_witness :
  let w := boot 0 testConfig in
  let w' := after (processFrame speechFrame) w in
  exists t, In t (queue (rt w')) /\ cb t = OnSpeechStartTimer
            /\ speechStartTimer (self w') = Some (tid t).
Proof.
  cbv zeta.
  apply (proj1 (@decisions_leave_their_timer_pending node
                  [] 0 testConfig (boot 0 testConfig) [] speechFrame eq_refl));
    reflexivity.
Defined.

(** X9 (the closure scheduled by [handleSpeechStart]).  When the onset
    timer fires on a detector in use, the detector was confirming a start
    and is now inside a segment: ['speechStart'] is emitted once, the start
    and last-speech times are the firing time, and of the samples buffered
    so far the most recent [floor(sampleRate * 0.3)] (all of them, if there
    are fewer) are kept as the beginning of the segment. *)
Theorem onset_timer_confirms_speech {engine : Engine}
        (script : list Action) (t0 : Z) (config : AudioConfig)
        (w : World) (tr : list Obs) (t : Timer) :
  run script (boot t0 config) = Some (w, tr) ->
  In t (queue (rt w)) -> cb t = OnSpeechStartTimer ->
  let w' := after (fire t) w in
  let firedAt := Z.max (now (rt w)) (due t) in
  let preSpeechSamples := JS.Math_floor (JS.Z2F (sampleRate (self w)) * 0.3) in
  events (fire t) w = [SpeechStart false]
  /\ phase (self w) = ConfirmingStart
  /\ phase (self w') = Active
  /\ pendingFor OnSpeechStartTimer w' = []
  /\ speechStartTime (self w') = Some firedAt
  /\ lastSpeechTime (self w') = Some firedAt
  /\ (exists dropped, audioBuffer (self w) = dropped ++ audioBuffer (self w'))
  /\ length (audioBuffer (self w'))
     = Nat.min (length (audioBuffer (self w))) (Z.to_nat preSpeechSamples).
Proof.
  intros R Hin Hc. cbv zeta.
  pose proof (coherent_run script (coherent_boot t0 config) R) as Hw.
  pose proof (@coherent_fire t w Hw Hin) as (_ & _ & F1 & _).
  destruct Hw as (_ & _ & H1 & _ & H3 & _).
  assert (Hcs : phase (self w) = ConfirmingStart).
  { apply H1. intros E.
    assert (Hi : In t (pendingFor OnSpeechStartTimer w)) by now apply In_pendingFor.
    rewrite E in Hi. exact Hi. }
  assert (Hact : phase (self (after (fire t) w)) = Active).
  { specialize (H3 Hcs). revert H3. clear -Hc.
    unfold fire. rewrite after_bind. cbv beta. set (w1 := after _ w).
    destruct (runCallback_effect (cb t) w1) as (_ & Es & _ & E2).
    unfold phase. rewrite Es, E2, Hc. change (self w1) with (self w).
    now intros ->. }
  assert (Hnone : pendingFor OnSpeechStartTimer (after (fire t) w) = []).
  { destruct (pendingFor OnSpeechStartTimer (after (fire t) w)) eqn:E; [reflexivity|].
    assert (X : phase (self (after (fire t) w)) = ConfirmingStart)
      by (apply F1; discriminate).
    rewrite Hact in X. discriminate. }
  split; [|split; [exact Hcs|split; [exact Hact|split; [exact Hnone|]]]];
    clear -Hc;
    destruct t as [id d c]; cbn [cb] in Hc; subst c;
    destruct w as [[n q i] v];
    destruct v as [sr fs et ssd sed maxd mind sto spk sst set_ lst ab fb nf at_ sstT seT siT];
    unfold fire; cbn [cb runCallback]; symex.
  - reflexivity.
  - split; [reflexivity|]. split; [reflexivity|]. split.
    + eexists. symmetry. apply firstn_skipn.
    + rewrite length_skipn. lia.
Qed.

Lemma onset_timer_confirms_speech_witness :
  let w := after (processFrame speechFrame) (boot 0 testConfig) in
  let t := mkTimer 0 300 OnSpeechStartTimer in
  let w' := after (fire t) w in
  events (fire t) w = [SpeechStart false]
  /\ phase (self w) = ConfirmingStart
  /\ phase (self w') = Active
  /\ pendingFor OnSpeechStartTimer w' = []
  /\ speechStartTime (self w') = Some 300
  /\ lastSpeechTime (self w') = Some 300
  /\ (exists dropped, audioBuffer (self w) = dropped ++ audioBuffer (self w'))
  /\ length (audioBuffer (self w')) = 480%nat.
Proof.
  cbv zeta.
  apply (@onset_timer_confirms_speech node
           [ProcessFrame speechFrame] 0 testConfig
           (after (processFrame speechFrame) (boot 0 testConfig))
           [Decided true] (mkTimer 0 300 OnSpeechStartTimer)).
  - vm_compute. reflexivity.
  - vm_compute. left. reflexivity.
  - reflexivity.
Defined.

(* ================================================================== *)
(** * A NaN noise floor *)
(* ================================================================== *)

Section Poisoned.
Context {engine : Engine}.

Lemma lt_nan_l (x : float) : PrimFloat.ltb nan x = false.
Proof. rewrite ltb_spec, Prim2SF_nan. reflexivity. Qed.

Lemma detectSpeech_nan_floor (v : VAD) (energy : float) :
  noiseFloor v = nan -> detectSpeech v energy = false.
Proof.
  intros H. unfold detectSpeech. cbv zeta. rewrite H.
  change (nan * 3)%float with nan.
  unfold JS.Math_max. change (JS.isNaN nan) with true. rewrite orb_true_r.
  unfold JS.gt. apply lt_nan_l.
Qed.

Lemma updateNoiseFloor_nan_floor (energy : float) (v : VAD) :
  noiseFloor v = nan -> noiseFloor (updateNoiseFloor energy false v) = nan.
Proof.
  intros H. unfold updateNoiseFloor. cbn [negb]. cbv zeta.
  destruct v; cbn in *. subst. now rewrite nan_mul_r, nan_add_r.
Qed.

Lemma updateNoiseFloor_nan_energy (v : VAD) :
  noiseFloor (updateNoiseFloor nan false v) = nan.
Proof.
  unfold updateNoiseFloor. cbn [negb]. cbv zeta.
  unfold set_adaptiveThreshold, set_noiseFloor. cbn [noiseFloor].
  change (0.01 * nan)%float with nan. apply nan_add_l.
Qed.

Lemma poisoned_processFrame (frame : Float32Array) (w : World) :
  noiseFloor (self w) = nan ->
  result (processFrame frame) w = false
  /\ noiseFloor (self (after (processFrame frame) w)) = nan.
Proof.
  intros H. rewrite result_processFrame.
  split; [now apply detectSpeech_nan_floor|].
  apply (@stable_processFrame _ (@noiseFloorIs_stable nan)).
  rewrite detectSpeech_nan_floor by exact H.
  now apply updateNoiseFloor_nan_floor.
Qed.

Lemma poisoned_processLoop (fuel : nat) :
  forall w frames,
    noiseFloor (self w) = nan ->
    result (processLoop fuel) w = Some frames ->
    Forall (fun fd => snd fd = false) frames
    /\ noiseFloor (self (after (processLoop fuel) w)) = nan.
Proof.
  induction fuel as [|fuel IH]; intros w frames H; [discriminate|].
  unfold result, after. rewrite processLoop_S.
  destruct (frameSize (self w) <=? Z.of_nat (length (frameBuffer (self w)))).
  - cbv zeta. cbn [fst snd].
    set (frame := newFloat32Array _). set (w1 := mkWorld _ _).
    destruct (poisoned_processFrame frame w1 H) as [Hd Hn].
    destruct (result (processLoop fuel) (after (processFrame frame) w1))
      as [more|] eqn:Hr; [|discriminate].
    cbn [option_map]. intros [= <-].
    destruct (IH _ more Hn Hr) as [Hall Hn'].
    split; [constructor; [exact Hd | exact Hall] | exact Hn'].
  - cbn [fst snd]. intros [= <-]. split; [constructor | exact H].
Qed.

Lemma poisoned_step (a : Action) (w w' : World) (tr : list Obs) :
  noiseFloor (self w) = nan -> step a w = Some (w', tr) ->
  noiseFloor (self w') = nan /\ ~ In (Decided true) tr.
Proof.
  intros H. destruct a; [taken_block | cbn [step] ..].
  - destruct (processAccepted audioData w) as [[r w1] out] eqn:E.
    destruct r as [frames|]; [|discriminate]. intros [= <- <-].
    pose proof (processAccepted_run audioData w) as Er. rewrite E in Er.
    set (fuel := S _) in Er. set (w0 := mkWorld _ _) in Er.
    destruct (@poisoned_processLoop fuel w0 frames H) as [Hall Hn].
    { unfold result. now rewrite <- Er. }
    unfold after in Hn. rewrite <- Er in Hn. split; [exact Hn|].
    intros Hin. apply in_app_or in Hin as [Hin | Hin].
    + apply in_map_iff in Hin as (fd & Hfd & Hin).
      rewrite Forall_forall in Hall. specialize (Hall fd Hin). congruence.
    + apply in_map_iff in Hin as (e & He & _). discriminate.
  - destruct (processFrame frame w) as [[d w1] out] eqn:E. intros [= <- <-].
    destruct (poisoned_processFrame frame w H) as [Hd Hn].
    unfold result in Hd. unfold after in Hn. rewrite E in Hd, Hn. cbn in Hd, Hn.
    split; [exact Hn|]. intros [Hin | Hin]; [congruence|].
    apply in_map_iff in Hin as (e & He & _). discriminate.
  - destruct (advanceTimersByTime ms w) as [[r w1] out] eqn:E. intros [= <- <-].
    split.
    + replace w1 with (after (advanceTimersByTime ms) w) by (unfold after; now rewrite E).
      now apply (@stable_advanceTimersByTime _ (@noiseFloorIs_stable nan)).
    + intros Hin. apply in_map_iff in Hin as (e & He & _). discriminate.
  - destruct (reset w) as [[r w1] out] eqn:E. intros [= <- <-].
    split.
    + replace w1 with (after reset w) by (unfold after; now rewrite E).
      destruct (reset_fields w) as (-> & _). exact H.
    + intros Hin. apply in_map_iff in Hin as (e & He & _). discriminate.
  - intros [= <- <-]. split; [exact H | intros []].
  - intros [= <- <-]. split; [exact H | intros [Hin | []]; discriminate].
Qed.

Lemma poisoned_run (script : list Action) :
  forall w w' tr,
    noiseFloor (self w) = nan -> run script w = Some (w', tr) ->
    noiseFloor (self w') = nan /\ ~ In (Decided true) tr.
Proof.
  induction script as [|a script IH]; intros w w' tr H; cbn [run].
  - intros [= <- <-]. split; [exact H | intros []].
  - destruct (step a w) as [[w1 o1]|] eqn:E; [|discriminate].
    destruct (run script w1) as [[w2 o2]|] eqn:R; [|discriminate].
    intros [= <- <-].
    destruct (poisoned_step a w H E) as [H1 N1].
    destruct (IH _ _ _ H1 R) as [H2 N2].
    split; [exact H2|]. intros Hin. apply in_app_or in Hin as [Hin | Hin]; auto.
Qed.

End Poisoned.

(** X10 ([detectSpeech], [updateNoiseFloor], [reset], [updateConfig]).  A
    frame with a NaN sample silences the detector for good: the noise floor
    becomes NaN, and from then on no frame is decided speech, whatever is
    fed and whatever is called -- [reset()] and [updateConfig()] included,
    since neither assigns [noiseFloor]. *)
Theorem nan_sample_silences_the_detector {engine : Engine}
        (frame : Float32Array) (script : list Action)
        (w w' : World) (tr : list Obs) :
  In nan frame ->
  run (ProcessFrame frame :: script) w = Some (w', tr) ->
  noiseFloor (self w') = nan /\ ~ In (Decided true) tr.
Proof.
  intros Hnan. cbn [run step].
  destruct (processFrame frame w) as [[d w1] out] eqn:E.
  destruct (run script w1) as [[w2 o2]|] eqn:R; [|discriminate].
  intros [= <- <-].
  assert (Hd : d = false).
  { change d with (fst (fst (d, w1, out))). rewrite <- E.
    change (result (processFrame frame) w = false).
    rewrite result_processFrame, (calculateEnergy_nan _ Hnan).
    unfold detectSpeech. cbv zeta. apply gt_nan. }
  assert (H1 : noiseFloor (self w1) = nan).
  { change w1 with (snd (fst (d, w1, out))). rewrite <- E.
    change (noiseFloor (self (after (processFrame frame) w)) = nan).
    apply (@stable_processFrame _ (@noiseFloorIs_stable nan)).
    rewrite (calculateEnergy_nan _ Hnan).
    replace (detectSpeech (self w) nan) with false
      by (symmetry; unfold detectSpeech; cbv zeta; apply gt_nan).
    apply updateNoiseFloor_nan_energy. }
  destruct (poisoned_run script w1 H1 R) as [H2 N2].
  split; [exact H2|]. subst d.
  intros [Hin | Hin]; [discriminate|].
  apply in_app_or in Hin as [Hin | Hin]; [|now apply N2].
  apply in_map_iff in Hin as (e & He & _). discriminate.
Qed.

Lemma nan_sample_silences_the_detector_witness :
  let w1 := after (processFrame nanFrame) (boot 0 testConfig) in
  let w' := after (processFrame speechFrame) (after reset w1) in
  noiseFloor (self w') = nan
  /\ ~ In (Decided true) [Decided false; Decided false].
Proof.
  cbv zeta.
  apply (@nan_sample_silences_the_detector node
           nanFrame [Reset; ProcessFrame speechFrame] (boot 0 testConfig)
           (after (processFrame speechFrame)
                  (after reset (after (processFrame nanFrame) (boot 0 testConfig))))
           [Decided false; Decided false]).
  - left. reflexivity.
  - vm_compute. reflexivity.
Defined.

(* ================================================================== *)
(** * What a run emits *)
(* ================================================================== *)

Section RunEvents.
Context {engine : Engine}.
Variable P : World -> Prop.
Variable Q : Event -> Prop.
Hypothesis G_frame : forall frame, guards P Q (processFrame frame).
Hypothesis G_assemble :
  forall f : VAD -> list float, preserves P (assign (fun v => set_frameBuffer (f v) v)).
Hypothesis G_fire :
  forall t w, P w -> In t (queue (rt w)) ->
              P (after (fire t) w) /\ Forall Q (events (fire t) w).
Hypothesis G_clock :
  forall w n, P w -> P (mkWorld (mkRuntime n (queue (rt w)) (nextId (rt w))) (self w)).
Hypothesis G_reset : guards P Q reset.
Hypothesis G_updateConfig :
  forall config w, P w -> P (mkWorld (rt w) (updateConfig config (self w))).

Lemma guards_processLoop (fuel : nat) : guards P Q (processLoop fuel).
Proof.
  induction fuel as [|fuel IH]; intros w Hw.
  - split; [exact Hw | constructor].
  - unfold after, events. rewrite processLoop_S.
    destruct (frameSize (self w) <=? Z.of_nat (length (frameBuffer (self w))));
      [|split; [exact Hw | constructor]].
    cbv zeta. cbn [fst snd].
    set (frame := newFloat32Array _). set (w1 := mkWorld _ _).
    assert (H1 : P w1) by (apply (G_assemble (fun _ => _) Hw)).
    destruct (G_frame frame H1) as [H2 E2].
    destruct (IH _ H2) as [H3 E3].
    split; [exact H3 | apply Forall_app; split; assumption].
Qed.

Lemma guards_processAccepted (audioData : Float32Array) :
  guards P Q (processAccepted audioData).
Proof.
  intros w Hw. unfold after, events. rewrite processAccepted_run.
  apply guards_processLoop.
  apply (G_assemble (fun v => frameBuffer v ++ audioData) Hw).
Qed.

Lemma guards_advanceLoop (rounds : nat) (target : Z) :
  guards P Q (advanceLoop rounds target).
Proof.
  induction rounds as [|rounds IH]; intros w Hw.
  - split; [exact Hw | constructor].
  - rewrite after_advanceLoop_S, events_advanceLoop_S.
    destruct (earliest (queue (rt w))) as [t|] eqn:E; [|split; [exact Hw | constructor]].
    destruct (due t <=? target); [|split; [exact Hw | constructor]].
    destruct (G_fire t Hw (earliest_In _ E)) as [H1 E1].
    destruct (IH _ H1) as [H2 E2].
    split; [exact H2 | apply Forall_app; split; assumption].
Qed.

Lemma guards_advanceTimersByTime (ms : Z) :
  guards P Q (advanceTimersByTime ms).
Proof.
  intros w Hw. rewrite after_advanceTimersByTime, events_advanceTimersByTime.
  cbv zeta. destruct (guards_advanceLoop (length (queue (rt w)))
                        (now (rt w) + Z.max 0 ms) Hw) as [H1 E1].
  split; [now apply G_clock | exact E1].
Qed.

Lemma guarded_step (a : Action) (w w' : World) (tr : list Obs) :
  P w -> step a w = Some (w', tr) ->
  P w' /\ forall e, In (Emitted e) tr -> Q e.
Proof.
  assert (Hmap : forall out, Forall Q out -> forall e, In (Emitted e) (map Emitted out) -> Q e).
  { intros out Hall e Hin. apply in_map_iff in Hin as (e' & [= ->] & Hin).
    rewrite Forall_forall in Hall. now apply Hall. }
  intros Hw. destruct a; [taken_block | cbn [step] ..].
  - destruct (processAccepted audioData w) as [[r w1] out] eqn:E.
    destruct r as [frames|]; [|discriminate]. intros [= <- <-].
    destruct (guards_processAccepted audioData Hw) as [H1 E1].
    unfold after, events in H1, E1. rewrite E in H1, E1. cbn [fst snd] in H1, E1.
    split; [exact H1|]. intros e Hin. apply in_app_or in Hin as [Hin | Hin].
    + apply in_map_iff in Hin as (fd & Hfd & _). discriminate.
    + now apply (Hmap out).
  - destruct (processFrame frame w) as [[d w1] out] eqn:E. intros [= <- <-].
    destruct (G_frame frame Hw) as [H1 E1].
    unfold after, events in H1, E1. rewrite E in H1, E1. cbn [fst snd] in H1, E1.
    split; [exact H1|]. intros e [Hin | Hin]; [discriminate | now apply (Hmap out)].
  - destruct (advanceTimersByTime ms w) as [[r w1] out] eqn:E. intros [= <- <-].
    destruct (guards_advanceTimersByTime ms Hw) as [H1 E1].
    unfold after, events in H1, E1. rewrite E in H1, E1. cbn [fst snd] in H1, E1.
    split; [exact H1 | now apply Hmap].
  - destruct (reset w) as [[r w1] out] eqn:E. intros [= <- <-].
    destruct (G_reset Hw) as [H1 E1].
    unfold after, events in H1, E1. rewrite E in H1, E1. cbn [fst snd] in H1, E1.
    split; [exact H1 | now apply Hmap].
  - intros [= <- <-]. split; [now apply G_updateConfig | intros e []].
  - intros [= <- <-]. split; [exact Hw | intros e [Hin | []]; discriminate].
Qed.

Lemma guarded_run (script : list Action) :
  forall w w' tr,
    P w -> run script w = Some (w', tr) ->
    P w' /\ forall e, In (Emitted e) tr -> Q e.
Proof.
  induction script as [|a script IH]; intros w w' tr Hw; cbn [run].
  - intros [= <- <-]. split; [exact Hw | intros e []].
  - destruct (step a w) as [[w1 o1]|] eqn:E; [|discriminate].
    destruct (run script w1) as [[w2 o2]|] eqn:R; [|discriminate].
    intros [= <- <-].
    destruct (guarded_step a Hw E) as [H1 E1].
    destruct (IH _ _ _ H1 R) as [H2 E2].
    split; [exact H2|]. intros e Hin. apply in_app_or in Hin as [Hin | Hin]; auto.
Qed.

End RunEvents.

Section Bookkeeping.
Context {engine : Engine}.

Lemma bookkept_processFrame (frame : Float32Array) :
  guards bookkept properChunk (processFrame frame).
Proof.
  intros w.
  destruct w as [[n q i] v].
  destruct v as [sr fs et ssd sed maxd mind sto spk sst set_ lst ab fb nf at_ sstT seT siT].
  unfold bookkept. cbn [self minChunkDuration isSpeaking speechStartTime].
  intros [-> Hb].
  remember bookkept as B eqn:HB. remember properChunk as C eqn:HC.
  destruct (detectSpeech
              (mkVAD sr fs et ssd sed maxd 1000 sto spk sst set_ lst ab fb nf at_ sstT seT siT)
              (calculateEnergy frame)) eqn:D;
    destruct spk;
    try (destruct sst as [t0|];
         [destruct (t0 =? 0) eqn:Z0;
          destruct (maxd <=? n - t0) eqn:Mx; destruct (1000 <=? n - t0) eqn:Mn|]);
    symex; rewrite ?D; symex_more; branch; subst B C;
    (split; [unfold bookkept; cbn; intuition congruence|]);
    repeat constructor; cbn; try lia; try congruence.
Qed.

Lemma bookkept_fire (t : Timer) (w : World) :
  bookkept w -> In t (queue (rt w)) ->
  bookkept (after (fire t) w) /\ Forall properChunk (events (fire t) w).
Proof.
  intros Hw _. revert Hw.
  destruct t as [id d c].
  destruct w as [[n q i] v].
  destruct v as [sr fs et ssd sed maxd mind sto spk sst set_ lst ab fb nf at_ sstT seT siT].
  unfold bookkept. cbn [self minChunkDuration isSpeaking speechStartTime].
  intros [-> Hb].
  remember bookkept as B eqn:HB. remember properChunk as C eqn:HC.
  unfold fire. cbn [cb].
  destruct c; cbn [runCallback]; try destruct spk;
    try destruct (1000 <=? Z.max n d - toNumber sst) eqn:Mn;
    symex; branch; subst B C;
    (split; [unfold bookkept; cbn; intuition congruence|]);
    repeat constructor; cbn; try lia; intuition congruence.
Qed.

Lemma bookkept_reset : guards bookkept properChunk reset.
Proof.
  intros w [Hm _]. destruct (reset_fields w) as (Hs & _ & _ & He).
  rewrite He. split; [|constructor].
  unfold bookkept. rewrite Hs. cbn. split; [exact Hm|]. split; congruence.
Qed.

Lemma bookkept_boot (t0 : Z) (config : AudioConfig) : bookkept (boot t0 config).
Proof. split; [reflexivity|]. cbn. split; congruence. Qed.

Lemma bookkept_run (script : list Action) (t0 : Z) (config : AudioConfig)
      (w : World) (tr : list Obs) :
  run script (boot t0 config) = Some (w, tr) ->
  bookkept w /\ forall e, In (Emitted e) tr -> properChunk e.
Proof.
  apply guarded_run; [| | | | | | apply bookkept_boot].
  - exact bookkept_processFrame.
  - intros f w0 H; exact H.
  - exact bookkept_fire.
  - intros w0 n H; exact H.
  - exact bookkept_reset.
  - intros c w0 H; exact H.
Qed.

End Bookkeeping.

(** X12 ([endSpeech], [forceEndSpeech], the closure of [handleSpeechStart],
    [reset]).  On a detector in use the speaking flag is set exactly while
    a segment start time is recorded, and every ['speechEnd'] that is
    emitted -- on silence or on a forced cut -- reports a duration of at
    least the minimum of 1000 ms together with the time its segment
    started. *)
Theorem emitted_chunks_are_proper {engine : Engine}
        (script : list Action) (t0 : Z) (config : AudioConfig)
        (w : World) (tr : list Obs) :
  run script (boot t0 config) = Some (w, tr) ->
  (isSpeaking (self w) = true <-> speechStartTime (self w) <> None)
  /\ forall d, In (Emitted (SpeechEnd d)) tr ->
               1000 <= duration d /\ timestamp d <> None.
Proof.
  intros R. destruct (@bookkept_run _ script t0 config w tr R) as [[_ Hb] He].
  split; [exact Hb|]. intros d Hin. exact (He _ Hin).
Qed.

Lemma emitted_chunks_are_proper_witness :
  let w := after (advanceTimersByTime 1000)
             (after (processFrame silenceFrame)
                (after (advanceTimersByTime 300)
                   (after (processFrame speechFrame) (boot 0 testConfig)))) in
  let tr := [Decided true; Emitted (SpeechStart false); Decided false;
             Emitted (SpeechEnd (mkSpeechEndData (speechFrame ++ silenceFrame)
                                                 1000 (Some 300) silence))] in
  (isSpeaking (self w) = true <-> speechStartTime (self w) <> None)
  /\ forall d, In (Emitted (SpeechEnd d)) tr ->
               1000 <= duration d /\ timestamp d <> None.
Proof.
  cbv zeta.
  apply (@emitted_chunks_are_proper node
           [ProcessFrame speechFrame; AdvanceTime 300;
            ProcessFrame silenceFrame; AdvanceTime 1000] 0 testConfig).
  vm_compute. reflexivity.
Defined.

(* ================================================================== *)
(** * Timers do not pile up *)
(* ================================================================== *)

Section UniqueIds.
Context {engine : Engine}.

Lemma filter_keeps_distinct {A K} (key : A -> K) (keep : A -> bool) :
  forall q : list A, NoDup (map key q) -> NoDup (map key (filter keep q)).
Proof.
  intros q Hnd. induction q as [|x q IH]; cbn [map filter] in *; [constructor|].
  inversion Hnd as [|? ? Hx Hq]; subst.
  destruct (keep x); cbn [map]; [|now apply IH].
  constructor; [|now apply IH].
  intros Hin. apply Hx. apply in_map_iff in Hin as (y & Hy & Hin).
  apply filter_In in Hin as [Hin _]. apply in_map_iff. now exists y.
Qed.

Lemma uniqueIds_assign (upd : VAD -> VAD) : preserves uniqueIds (assign upd).
Proof. intros w H; exact H. Qed.

Lemma uniqueIds_clearTimeout (id : nat) : preserves uniqueIds (clearTimeout id).
Proof.
  intros w [Hn Hf]. split; cbn.
  - now apply filter_keeps_distinct.
  - unfold dropTimer. apply Forall_forall. intros t Ht.
    apply filter_In in Ht as [Ht _]. rewrite Forall_forall in Hf. now apply Hf.
Qed.

Lemma uniqueIds_setTimeout (c : Callback) (delay : Z) :
  preserves uniqueIds (setTimeout c delay).
Proof.
  intros w [Hn Hf]. split; cbn -[timerDelay Z.add].
  - rewrite map_app. cbn [map tid].
    revert Hn Hf. generalize (nextId (rt w)). generalize (queue (rt w)).
    induction l as [|t l IH]; cbn [map app]; intros n Hn Hf.
    + constructor; [intros [] | constructor].
    + inversion Hn as [|? ? Hx Hl]; subst. inversion Hf as [|? ? Ht Hf']; subst.
      constructor; [|now apply IH].
      intros Hin. apply in_app_or in Hin as [Hin | [Hin | []]]; [now apply Hx | lia].
  - apply Forall_app. split.
    + eapply Forall_impl; [|exact Hf]. intros t Ht; cbn in *. lia.
    + constructor; [cbn; lia | constructor].
Qed.

Lemma uniqueIds_processFrame (frame : Float32Array) :
  preserves uniqueIds (processFrame frame).
Proof.
  unfold_methods. unfold cancel, arm, skip.
  pres_with ltac:(first [apply uniqueIds_assign | apply uniqueIds_setTimeout
                        | apply uniqueIds_clearTimeout]).
Qed.

Lemma uniqueIds_reset : preserves uniqueIds reset.
Proof.
  unfold_methods. unfold cancel, arm, skip.
  pres_with ltac:(first [apply uniqueIds_assign | apply uniqueIds_setTimeout
                        | apply uniqueIds_clearTimeout]).
Qed.

Lemma uniqueIds_fire (t : Timer) (w : World) :
  uniqueIds w -> In t (queue (rt w)) -> uniqueIds (after (fire t) w).
Proof.
  intros Hw _. revert w Hw. change (preserves uniqueIds (fire t)).
  unfold fire. apply preserves_bind.
  - intros w [Hn Hf]. split; cbn.
    + now apply filter_keeps_distinct.
    + unfold dropTimer. apply Forall_forall. intros t' Ht.
      apply filter_In in Ht as [Ht _]. rewrite Forall_forall in Hf. now apply Hf.
  - intros _. destruct (cb t); cbn [runCallback]; unfold_methods;
      pres_with ltac:(apply uniqueIds_assign).
Qed.

Lemma uniqueIds_run (script : list Action) (w w' : World) (tr : list Obs) :
  uniqueIds w -> run script w = Some (w', tr) -> uniqueIds w'.
Proof.
  apply invariant_run.
  - exact uniqueIds_processFrame.
  - intros f w0 H; exact H.
  - exact uniqueIds_fire.
  - intros w0 n H; exact H.
  - exact uniqueIds_reset.
  - intros c w0 H; exact H.
Qed.

(** With distinct handles, the timers a field accounts for are at most
    one. *)
Lemma pendingFor_at_most_one (c : Callback) (w : World) :
  owned w -> uniqueIds w ->
  pendingFor c w = []
  \/ exists t, pendingFor c w = [t] /\ handleFor c (self w) = Some (tid t).
Proof.
  intros Ho [Hn _].
  assert (Hall : forall t, In t (pendingFor c w) -> handleFor c (self w) = Some (tid t)).
  { intros t Ht. apply In_pendingFor in Ht as [Hin Hc].
    unfold owned in Ho. rewrite Forall_forall in Ho. rewrite <- Hc. now apply Ho. }
  assert (Hnd : NoDup (map tid (pendingFor c w))) by now apply filter_keeps_distinct.
  destruct (pendingFor c w) as [|t1 [|t2 l]]; [now left | right | exfalso].
  - exists t1. split; [reflexivity | apply Hall; now left].
  - assert (E1 := Hall t1 (or_introl eq_refl)).
    assert (E2 := Hall t2 (or_intror (or_introl eq_refl))).
    rewrite E1 in E2. injection E2 as E.
    inversion Hnd as [|? ? Hx _]; subst. apply Hx. left. now symmetry.
Qed.

End UniqueIds.

(** X13 (the guards [if (!this.timer)] of [handleSpeechStart],
    [handleSpeechEnd] and [handleSilenceTimeout]).  Timers do not pile up:
    on a detector in use at most one timer per closure is pending, and it
    is the one whose handle the field holds -- so a confirmation or an
    alarm cannot fire twice for one scheduling, and [clearTimeout] on the
    field cancels all there is. *)
Theorem at_most_one_timer_per_closure {engine : Engine}
        (script : list Action) (t0 : Z) (config : AudioConfig)
        (w : World) (tr : list Obs) (c : Callback) :
  run script (boot t0 config) = Some (w, tr) ->
  pendingFor c w = []
  \/ exists t, pendingFor c w = [t] /\ handleFor c (self w) = Some (tid t).
Proof.
  intros R. apply pendingFor_at_most_one.
  - exact (proj1 (wellFormed_run script (wellFormed_boot t0 config) R)).
  - apply (uniqueIds_run script (w := boot t0 config) (tr := tr)); [|exact R].
    split; constructor.
Qed.

Lemma at_most_one_timer_per_closure_witness :
  let w := after (processFrame speechFrame)
             (after (processFrame speechFrame) (boot 0 testConfig)) in
  pendingFor OnSpeechStartTimer w = []
  \/ exists t, pendingFor OnSpeechStartTimer w = [t]
               /\ handleFor OnSpeechStartTimer (self w) = Some (tid t).
Proof.
  cbv zeta.
  apply (@at_most_one_timer_per_closure node
           [ProcessFrame speechFrame; ProcessFrame speechFrame] 0 testConfig
           (after (processFrame speechFrame)
                  (after (processFrame speechFrame) (boot 0 testConfig)))
           [Decided true; Decided true] OnSpeechStartTimer).
  vm_compute. reflexivity.
Defined.

(* ================================================================== *)
(** * The configured threshold is only a seed *)
(* ================================================================== *)

Section Threshold.
Variable x : float.

Lemma processFrame_ignoresThreshold (frame : Float32Array) :
  ignores (set_energyThreshold x) (processFrame frame).
Proof. unfold_methods. unfold cancel, arm, skip. ignores_field. Qed.

Lemma reset_ignoresThreshold : ignores (set_energyThreshold x) reset.
Proof. unfold_methods. unfold cancel, arm, skip. ignores_field. Qed.

Lemma runCallback_ignoresThreshold (c : Callback) :
  ignores (set_energyThreshold x) (runCallback c).
Proof.
  destruct c; cbn [runCallback]; unfold_methods; unfold cancel, arm, skip;
    ignores_field.
Qed.

Lemma fire_ignoresThreshold (t : Timer) : ignores (set_energyThreshold x) (fire t).
Proof.
  unfold fire. apply ignores_bind; [intros w; reflexivity|].
  intros _. apply runCallback_ignoresThreshold.
Qed.

Lemma processLoop_ignoresThreshold (fuel : nat) :
  ignores (set_energyThreshold x) (processLoop fuel).
Proof.
  induction fuel as [|fuel IH]; cbn [processLoop]; [apply ignores_ret|].
  unfold splice0.
  ignores_with ltac:(first [apply processFrame_ignoresThreshold | exact IH]).
Qed.

Lemma processAccepted_ignoresThreshold (audioData : Float32Array) :
  ignores (set_energyThreshold x) (processAccepted audioData).
Proof.
  unfold processAccepted, processAudioFuel.
  ignores_with ltac:(apply processLoop_ignoresThreshold).
Qed.

Lemma advanceLoop_ignoresThreshold (rounds : nat) (target : Z) :
  ignores (set_energyThreshold x) (advanceLoop rounds target).
Proof.
  induction rounds as [|rounds IH]; [apply ignores_ret|].
  intros w. unfold result, after, events. cbn [advanceLoop].
  change (queue (rt (lift (set_energyThreshold x) w))) with (queue (rt w)).
  destruct (earliest (queue (rt w))) as [t|]; [|reflexivity].
  destruct (due t <=? target); [|reflexivity].
  exact (@ignores_bind (set_energyThreshold x) _ _ (fire t)
           (fun _ => advanceLoop rounds target)
           (fire_ignoresThreshold t) (fun _ => IH) w).
Qed.

Lemma advanceTimersByTime_ignoresThreshold (ms : Z) :
  ignores (set_energyThreshold x) (advanceTimersByTime ms).
Proof.
  intros w. unfold result, after, events, advanceTimersByTime. cbv zeta.
  change (queue (rt (lift (set_energyThreshold x) w))) with (queue (rt w)).
  change (now (rt (lift (set_energyThreshold x) w))) with (now (rt w)).
  unfold bind. rewrite advanceLoop_ignoresThreshold.
  unfold result, after, events.
  destruct (advanceLoop _ _ w) as [[r w'] o]. reflexivity.
Qed.

End Threshold.

Section ThresholdRuns.
Context {engine : Engine}.

Lemma sameButThreshold_lift (x : float) (w : World) :
  sameButThreshold w (lift (set_energyThreshold x) w).
Proof. split; [reflexivity | now exists x]. Qed.

Lemma sameButThreshold_inv (w1 w2 : World) :
  sameButThreshold w1 w2 -> exists x, w2 = lift (set_energyThreshold x) w1.
Proof.
  intros [Hr [x Hs]]. exists x. destruct w2 as [r2 v2]. cbn in Hr, Hs. subst.
  reflexivity.
Qed.

Lemma step_sameButThreshold (a : Action) (w1 w2 : World) :
  sameButThreshold w1 w2 -> keepsThreshold a = true ->
  match step a w1, step a w2 with
  | Some (w1', tr1), Some (w2', tr2) => sameButThreshold w1' w2' /\ tr1 = tr2
  | None, None => True
  | _, _ => False
  end.
Proof.
  intros R K. apply sameButThreshold_inv in R as [x ->].
  destruct a; [rewrite !step_ProcessAudio | cbn [step] ..].
  - destruct (maxArguments <? _)%Z; [exact I|].
    rewrite (processAccepted_ignoresThreshold x audioData w1).
    unfold result, after, events.
    destruct (processAccepted audioData w1) as [[r w'] o]. cbn [fst snd].
    destruct r; [|exact I]. split; [apply sameButThreshold_lift | reflexivity].
  - rewrite (processFrame_ignoresThreshold x frame w1).
    unfold result, after, events.
    destruct (processFrame frame w1) as [[r w'] o]. cbn [fst snd].
    split; [apply sameButThreshold_lift | reflexivity].
  - rewrite (advanceTimersByTime_ignoresThreshold x ms w1).
    unfold result, after, events.
    destruct (advanceTimersByTime ms w1) as [[r w'] o]. cbn [fst snd].
    split; [apply sameButThreshold_lift | reflexivity].
  - rewrite (reset_ignoresThreshold x w1).
    unfold result, after, events.
    destruct (reset w1) as [[r w'] o]. cbn [fst snd].
    split; [apply sameButThreshold_lift | reflexivity].
  - split; [|reflexivity]. cbn [keepsThreshold] in K.
    destruct config as [[t|] st]; cbn [upd_vadThreshold] in K; [|discriminate].
    split; [reflexivity|]. exists t. cbn [self lift].
    unfold updateConfig, orElseF. cbn [upd_vadThreshold upd_silenceTimeout].
    rewrite K. destruct w1 as [r v]; destruct v; reflexivity.
  - split; [apply sameButThreshold_lift | reflexivity].
Qed.

Lemma run_sameButThreshold (script : list Action) :
  forall w1 w2,
    sameButThreshold w1 w2 -> forallb keepsThreshold script = true ->
    observations (run script w2) = observations (run script w1).
Proof.
  induction script as [|a script IH]; intros w1 w2 R K; [reflexivity|].
  cbn [forallb] in K. apply andb_true_iff in K as [Ka K].
  pose proof (step_sameButThreshold a R Ka) as S.
  cbn [run].
  destruct (step a w1) as [[w1' tr1]|], (step a w2) as [[w2' tr2]|];
    try contradiction; [|reflexivity].
  destruct S as [R' ->]. specialize (IH _ _ R' K).
  unfold observations in *.
  destruct (run script w1') as [[u1 o1]|], (run script w2') as [[u2 o2]|];
    cbn in *; congruence.
Qed.

Lemma bind_this_run {A B} (f : VAD -> A) (k : A -> M B) (w : World) :
  bind (this f) k w = k (f (self w)) w.
Proof. unfold bind, this. now destruct (k (f (self w)) w) as [[b w2] o]. Qed.

Lemma bind_assign_run {B} (upd : VAD -> VAD) (k : unit -> M B) (w : World) :
  bind (assign upd) k w = k tt (mkWorld (rt w) (upd (self w))).
Proof. unfold bind, assign. now destruct (k tt _) as [[b w2] o]. Qed.

(** After the threshold update of a frame that both decide non-speech, two
    detectors that differed in their thresholds differ in
    [energyThreshold] only. *)
Lemma levels_after_non_speech {B} (K : bool -> unit -> M B)
      (energy x a : float) (w : World) :
  (forall u, ignores (set_energyThreshold x) (K false u)) ->
  let m := bind (this (fun v => detectSpeech v energy))
                (fun d => bind (assign (updateNoiseFloor energy d)) (K d)) in
  let w2 := lift (fun v => set_adaptiveThreshold a (set_energyThreshold x v)) w in
  detectSpeech (self w) energy = false ->
  detectSpeech (self w2) energy = false ->
  m w2 = (result m w, lift (set_energyThreshold x) (after m w), events m w).
Proof.
  intros HK m w2 D1 D2. unfold result, after, events, m.
  rewrite !bind_this_run. cbv beta. rewrite D1, D2. rewrite !bind_assign_run.
  change (mkWorld (rt w2) (updateNoiseFloor energy false (self w2)))
    with (lift (set_energyThreshold x)
               (mkWorld (rt w) (updateNoiseFloor energy false (self w)))).
  rewrite (HK tt). reflexivity.
Qed.

Lemma non_speech_frame_levels_thresholds
      (frame : Float32Array) (x a : float) (w : World) :
  let w2 := lift (fun v => set_adaptiveThreshold a (set_energyThreshold x v)) w in
  result (processFrame frame) w = false ->
  result (processFrame frame) w2 = false ->
  processFrame frame w2
  = (result (processFrame frame) w,
     lift (set_energyThreshold x) (after (processFrame frame) w),
     events (processFrame frame) w).
Proof.
  cbv zeta. intros D1 D2. rewrite result_processFrame in D1, D2.
  unfold processFrame. cbv zeta.
  apply levels_after_non_speech; [|exact D1|exact D2].
  intros u. unfold_methods. unfold cancel, arm, skip. ignores_field.
Qed.

End ThresholdRuns.

(** X14 ([detectSpeech], [updateNoiseFloor], [updateConfig]).  The
    configured [vadThreshold] is only a seed: once a frame has been decided
    non-speech, the threshold in use is five times the noise floor, and
    from then on the detector behaves -- decisions, events, status --
    exactly as one configured with any other threshold that also decided
    that frame non-speech; only an [updateConfig] without a [vadThreshold]
    brings the stored value back. *)
Theorem configured_threshold_is_only_a_seed {engine : Engine}
        (frame : Float32Array) (x a : float) (w : World) (script : list Action) :
  let w2 := lift (fun v => set_adaptiveThreshold a (set_energyThreshold x v)) w in
  result (processFrame frame) w = false ->
  result (processFrame frame) w2 = false ->
  forallb keepsThreshold script = true ->
  observations (run (ProcessFrame frame :: script) w2)
  = observations (run (ProcessFrame frame :: script) w).
Proof.
  cbv zeta. intros D1 D2 K.
  pose proof (non_speech_frame_levels_thresholds frame x a w D1 D2) as E.
  cbv zeta in E. cbn [run step]. rewrite E.
  unfold result, after, events.
  destruct (processFrame frame w) as [[d w'] o] eqn:Ew. cbn [fst snd].
  pose proof (run_sameButThreshold script
                (sameButThreshold_lift x w') K) as R.
  unfold observations in *.
  destruct (run script w') as [[u1 o1]|],
           (run script (lift (set_energyThreshold x) w')) as [[u2 o2]|];
    cbn in *; congruence.
Qed.

Lemma configured_threshold_is_only_a_seed_witness :
  let script := [ProcessFrame faintFrame; AdvanceTime 300; GetStatus] in
  observations (run (ProcessFrame silenceFrame :: script)
                    (boot 0 (mkAudioConfig 16000 0.5%float 10000)))
  = observations (run (ProcessFrame silenceFrame :: script) (boot 0 testConfig)).
Proof.
  cbv zeta.
  apply (@configured_threshold_is_only_a_seed node
           silenceFrame 0.5%float 0.5%float (boot 0 testConfig)
           [ProcessFrame faintFrame; AdvanceTime 300; GetStatus]);
    vm_compute; reflexivity.
Defined.

(* ================================================================== *)
(** * The countdowns of the two confirmations *)
(* ================================================================== *)

Section Countdowns.

Lemma cancel_frame (c : Callback) (w : World) :
  let w' := after (cancel (handleFor c) (setHandleFor c)) w in
  now (rt w') = now (rt w)
  /\ nextId (rt w') = nextId (rt w)
  /\ isSpeaking (self w') = isSpeaking (self w)
  /\ speechStartDelay (self w') = speechStartDelay (self w)
  /\ speechEndDelay (self w') = speechEndDelay (self w)
  /\ forall c', c' <> c -> handleFor c' (self w') = handleFor c' (self w).
Proof.
  cbv zeta. unfold cancel. rewrite after_bind.
  change (result (this (handleFor c)) w) with (handleFor c (self w)).
  change (after (this (handleFor c)) w) with w.
  destruct (handleFor c (self w)); [|repeat split].
  repeat split; try (destruct c; reflexivity).
  intros c' Hne. cbn. now apply handleFor_set_other.
Qed.

Lemma buffered_frame (frame : Float32Array) (w : World) :
  let b := buffered frame w in
  rt b = rt w
  /\ isSpeaking (self b) = isSpeaking (self w)
  /\ speechStartDelay (self b) = speechStartDelay (self w)
  /\ speechEndDelay (self b) = speechEndDelay (self w)
  /\ forall c, handleFor c (self b) = handleFor c (self w).
Proof.
  cbv zeta. unfold buffered. cbv zeta.
  destruct (detectSpeech (self w) (calculateEnergy frame)); repeat split;
    intros c; destruct c; reflexivity.
Qed.

Lemma coherent_buffered (frame : Float32Array) (w : World) :
  coherent w -> coherent (buffered frame w).
Proof.
  destruct (buffered_frame frame w) as (Hr & Hs & _ & _ & Hh).
  apply coherent_same; auto; now rewrite Hr.
Qed.

(** A speech frame while not speaking: the onset countdown starts unless
    it is running already. *)
Lemma handleSpeechStart_countdown (w : World) :
  owned w -> handlesOk w -> isSpeaking (self w) = false ->
  pendingFor OnSpeechStartTimer (after handleSpeechStart w)
  = match speechStartTimer (self w) with
    | Some _ => pendingFor OnSpeechStartTimer w
    | None => [mkTimer (nextId (rt w))
                       (now (rt w) + timerDelay (speechStartDelay (self w)))
                       OnSpeechStartTimer]
    end.
Proof.
  intros Ho Hh Hs. unfold handleSpeechStart. rewrite after_bind. cbv beta.
  change (cancel speechEndTimer set_speechEndTimer)
    with (cancel (handleFor OnSpeechEndTimer) (setHandleFor OnSpeechEndTimer)).
  destruct (cancel_frame OnSpeechEndTimer w) as (Hn & Hi & Hsp & Hd & _ & Hother).
  assert (Hp := @pendingFor_cancel_other OnSpeechStartTimer OnSpeechEndTimer w
                  ltac:(discriminate) Ho Hh).
  specialize (Hother OnSpeechStartTimer ltac:(discriminate)). cbn [handleFor] in Hother.
  set (w1 := after (cancel (handleFor OnSpeechEndTimer) (setHandleFor OnSpeechEndTimer)) w) in *.
  rewrite after_bind.
  change (result (this isSpeaking) w1) with (isSpeaking (self w1)).
  change (after (this isSpeaking) w1) with w1.
  rewrite Hsp, Hs.
  change (arm speechStartTimer set_speechStartTimer OnSpeechStartTimer speechStartDelay)
    with (arm (handleFor OnSpeechStartTimer) (setHandleFor OnSpeechStartTimer)
              OnSpeechStartTimer speechStartDelay).
  destruct (speechStartTimer (self w)) as [id|] eqn:E.
  - rewrite (@arm_held OnSpeechStartTimer speechStartDelay w1 id Hother). exact Hp.
  - rewrite (@pendingFor_arm_same OnSpeechStartTimer speechStartDelay w1 Hother).
    rewrite Hp, (@owned_none_pending OnSpeechStartTimer w Ho E), Hn, Hi, Hd.
    reflexivity.
Qed.

(** A non-speech frame while speaking: the offset countdown starts unless
    it is running already. *)
Lemma handleSpeechEnd_countdown (w : World) :
  owned w -> handlesOk w -> isSpeaking (self w) = true ->
  pendingFor OnSpeechEndTimer (after handleSpeechEnd w)
  = match speechEndTimer (self w) with
    | Some _ => pendingFor OnSpeechEndTimer w
    | None => [mkTimer (nextId (rt w))
                       (now (rt w) + timerDelay (speechEndDelay (self w)))
                       OnSpeechEndTimer]
    end.
Proof.
  intros Ho Hh Hs. unfold handleSpeechEnd. rewrite after_bind. cbv beta.
  change (cancel speechStartTimer set_speechStartTimer)
    with (cancel (handleFor OnSpeechStartTimer) (setHandleFor OnSpeechStartTimer)).
  destruct (cancel_frame OnSpeechStartTimer w) as (Hn & Hi & Hsp & _ & Hd & Hother).
  assert (Hp := @pendingFor_cancel_other OnSpeechEndTimer OnSpeechStartTimer w
                  ltac:(discriminate) Ho Hh).
  specialize (Hother OnSpeechEndTimer ltac:(discriminate)). cbn [handleFor] in Hother.
  set (w1 := after (cancel (handleFor OnSpeechStartTimer) (setHandleFor OnSpeechStartTimer)) w) in *.
  rewrite after_bind.
  change (result (this isSpeaking) w1) with (isSpeaking (self w1)).
  change (after (this isSpeaking) w1) with w1.
  rewrite Hsp, Hs.
  change (arm speechEndTimer set_speechEndTimer OnSpeechEndTimer speechEndDelay)
    with (arm (handleFor OnSpeechEndTimer) (setHandleFor OnSpeechEndTimer)
              OnSpeechEndTimer speechEndDelay).
  destruct (speechEndTimer (self w)) as [id|] eqn:E.
  - rewrite (@arm_held OnSpeechEndTimer speechEndDelay w1 id Hother). exact Hp.
  - rewrite (@pendingFor_arm_same OnSpeechEndTimer speechEndDelay w1 Hother).
    rewrite Hp, (@owned_none_pending OnSpeechEndTimer w Ho E), Hn, Hi, Hd.
    reflexivity.
Qed.

(** The silence alarm leaves the two confirmations alone. *)
Lemma handleSilenceTimeout_keeps_confirmations
      (c : Callback) (isSpeech : bool) (w : World) :
  c <> OnSilenceTimer -> owned w -> handlesOk w ->
  pendingFor c (after (handleSilenceTimeout isSpeech) w) = pendingFor c w.
Proof.
  intros Hc Ho Hh. unfold handleSilenceTimeout. destruct isSpeech.
  - rewrite after_bind. cbv beta. change (after Date_now w) with w.
    rewrite after_bind. cbv beta.
    set (w1 := after (assign _) w).
    assert (Ho1 : owned w1) by (apply owned_assign; [keeps_handles | exact Ho]).
    assert (Hh1 : handlesOk w1) by (apply handlesOk_assign; [keeps_handles | exact Hh]).
    change (cancel silenceTimer set_silenceTimer)
      with (cancel (handleFor OnSilenceTimer) (setHandleFor OnSilenceTimer)).
    now rewrite (@pendingFor_cancel_other c OnSilenceTimer w1).
  - rewrite after_bind. cbv beta.
    change (after (this lastSpeechTime) w) with w.
    destruct (truthyTime _); [|reflexivity].
    change (arm silenceTimer set_silenceTimer OnSilenceTimer silenceTimeout)
      with (arm (handleFor OnSilenceTimer) (setHandleFor OnSilenceTimer)
                OnSilenceTimer silenceTimeout).
    now apply pendingFor_arm_other.
Qed.

Lemma forceEndSpeech_runtime (w : World) : rt (after forceEndSpeech w) = rt w.
Proof.
  destruct w as [[n q i] v].
  destruct v as [sr fs et ssd sed maxd mind sto spk sst set_ lst ab fb nf at_ sstT seT siT].
  destruct spk; symex; branch; reflexivity.
Qed.

(** What comes after the transition in [processFrame] leaves the two
    confirmations alone. *)
Lemma tail_keeps_confirmations
      (c : Callback) (isSpeech forced : bool) (w : World) :
  c <> OnSilenceTimer -> owned w -> handlesOk w ->
  pendingFor c (after ((if forced then forceEndSpeech else skip) ;;
                       handleSilenceTimeout isSpeech) w)
  = pendingFor c w.
Proof.
  intros Hc Ho Hh. rewrite after_bind. cbv beta.
  set (w1 := after (if forced then forceEndSpeech else skip) w).
  assert (Ho1 : owned w1).
  { subst w1. destruct forced; [|exact Ho]. clear Hh. revert w Ho.
    change (preserves owned forceEndSpeech).
    unfold_methods. pres_with owned_leaf. }
  assert (Hh1 : handlesOk w1).
  { subst w1. destruct forced; [|exact Hh]. clear Ho Ho1. revert w Hh.
    change (preserves handlesOk forceEndSpeech).
    unfold_methods. pres_with handles_leaf. }
  rewrite handleSilenceTimeout_keeps_confirmations by assumption.
  subst w1. destruct forced; [|reflexivity].
  unfold pendingFor. now rewrite forceEndSpeech_runtime.
Qed.

End Countdowns.

(** X15 ([processFrame], [handleSpeechStart], [handleSpeechEnd]).  The
    countdowns of a detector in use.  A speech frame in [Idle] starts the
    onset countdown, due [speechStartDelay] = 300 ms later; a non-speech
    frame in [Active] starts the offset countdown, due [speechEndDelay] =
    1000 ms later.  A countdown that is running is not restarted by further
    frames of the same kind; the onset countdown is not stopped by
    non-speech frames either, whereas a speech frame stops the offset
    countdown. *)
Theorem confirmation_countdowns {engine : Engine}
        (script : list Action) (t0 : Z) (config : AudioConfig)
        (w : World) (tr : list Obs) (frame : Float32Array) :
  run script (boot t0 config) = Some (w, tr) ->
  let w' := after (processFrame frame) w in
  match phase (self w), result (processFrame frame) w with
  | Idle, true =>
      pendingFor OnSpeechStartTimer w'
      = [mkTimer (nextId (rt w)) (now (rt w) + 300) OnSpeechStartTimer]
  | Idle, false => pendingFor OnSpeechStartTimer w' = []
  | ConfirmingStart, _ =>
      pendingFor OnSpeechStartTimer w' = pendingFor OnSpeechStartTimer w
  | Active, false =>
      pendingFor OnSpeechEndTimer w'
      = [mkTimer (nextId (rt w)) (now (rt w) + 1000) OnSpeechEndTimer]
  | Active, true => pendingFor OnSpeechEndTimer w' = []
  | ConfirmingEnd, false =>
      pendingFor OnSpeechEndTimer w' = pendingFor OnSpeechEndTimer w
  | ConfirmingEnd, true => pendingFor OnSpeechEndTimer w' = []
  end.
Proof.
  intros R. cbv zeta.
  pose proof (coherent_run script (coherent_boot t0 config) R) as Hw.
  destruct (wellFormed_run script (wellFormed_boot t0 config) R)
    as (_ & _ & _ & Hsd & Hed & _).
  rewrite result_processFrame, processFrame_normal_form. cbv zeta.
  set (d := detectSpeech (self w) (calculateEnergy frame)).
  pose proof (coherent_buffered frame Hw) as Hb.
  destruct (buffered_frame frame w) as (Hr & Hs & Hsd' & Hed' & Hh).
  pose proof (Hh OnSpeechStartTimer) as H1. pose proof (Hh OnSpeechEndTimer) as H2.
  cbn [handleFor] in H1, H2.
  assert (Hq : forall c, pendingFor c (buffered frame w) = pendingFor c w)
    by (intros c; unfold pendingFor; now rewrite Hr).
  rewrite after_bind. cbv beta.
  pose proof (coherent_transition d (isSpeaking (self w)) Hb) as (Ho1 & Hh1 & _).
  set (w1 := after (transition d (isSpeaking (self w))) (buffered frame w)) in *.
  rewrite !tail_keeps_confirmations by (assumption || discriminate).
  subst w1. destruct Hb as (Ho & Hhk & _).
  unfold phase, transition.
  destruct (isSpeaking (self w)) eqn:S.
  - destruct (speechEndTimer (self w)) as [id|] eqn:E;
      destruct d; cbn [andb negb].
    + apply (pendingFor_cancel_same OnSpeechEndTimer Ho).
    + rewrite (handleSpeechEnd_countdown Ho Hhk Hs), H2. apply Hq.
    + apply (pendingFor_cancel_same OnSpeechEndTimer Ho).
    + rewrite (handleSpeechEnd_countdown Ho Hhk Hs), H2, Hr, Hed', Hed. reflexivity.
  - destruct (speechStartTimer (self w)) as [id|] eqn:E;
      destruct d; cbn [andb negb].
    + rewrite (handleSpeechStart_countdown Ho Hhk Hs), H1. apply Hq.
    + apply Hq.
    + rewrite (handleSpeechStart_countdown Ho Hhk Hs), H1, Hr, Hsd', Hsd. reflexivity.
    + rewrite Hq. apply owned_none_pending; [|exact E].
      destruct Hw as (Hown & _). exact Hown.
Qed.

Lemma confirmation_countdowns_witness :
  pendingFor OnSpeechStartTimer (after (processFrame speechFrame) (boot 0 testConfig))
  = [mkTimer 0 300 OnSpeechStartTimer].
Proof.
  apply (@confirmation_countdowns node [] 0 testConfig (boot 0 testConfig) []
                                  speechFrame eq_refl).
Defined.

(* ================================================================== *)
(** * Silence is kept *)
(* ================================================================== *)

Section Unheard.
Context {engine : Engine}.

(** A non-speech frame on a detector that has heard no speech only updates
    the threshold and is appended to the segment buffer. *)
Lemma unheard_frame (frame : Float32Array) (w : World) :
  unheard w -> result (processFrame frame) w = false ->
  after (processFrame frame) w = buffered frame w.
Proof.
  intros (Hs & Hl & _). rewrite result_processFrame. intros D.
  destruct w as [[n q i] v].
  destruct v as [sr fs et ssd sed maxd mind sto spk sst set_ lst ab fb nf at_ sstT seT siT].
  cbn in Hs, Hl. subst spk lst. cbn [self] in D.
  unfold buffered. cbn [self rt]. cbv zeta. rewrite D.
  symex. rewrite ?D. symex_more. reflexivity.
Qed.

Lemma unheard_buffered (frame : Float32Array) (w : World) :
  unheard w -> result (processFrame frame) w = false ->
  unheard (buffered frame w)
  /\ audioBuffer (self (buffered frame w)) = audioBuffer (self w) ++ frame
  /\ frameBuffer (self (buffered frame w)) = frameBuffer (self w)
  /\ frameSize (self (buffered frame w)) = frameSize (self w).
Proof.
  intros (Hs & Hl & Hq). rewrite result_processFrame. intros D.
  unfold unheard, buffered. cbv zeta. rewrite D.
  destruct w as [r v]; destruct v; cbn in *. auto.
Qed.

Lemma unheard_processLoop (fuel : nat) :
  forall w frames,
    unheard w ->
    result (processLoop fuel) w = Some frames ->
    Forall (fun fd => snd fd = false) frames ->
    unheard (after (processLoop fuel) w)
    /\ held (after (processLoop fuel) w) = held w.
Proof.
  induction fuel as [|fuel IH]; intros w frames Hu; [discriminate|].
  unfold result, after. rewrite processLoop_S.
  destruct (frameSize (self w) <=? Z.of_nat (length (frameBuffer (self w))));
    [|cbn [fst snd]; auto].
  cbv zeta. cbn [fst snd].
  set (k := Z.to_nat (frameSize (self w))).
  set (frame := newFloat32Array (firstn k (frameBuffer (self w)))).
  set (w1 := mkWorld (rt w) (set_frameBuffer (skipn k (frameBuffer (self w))) (self w))).
  destruct (result (processLoop fuel) (after (processFrame frame) w1))
    as [more|] eqn:Hr; [|discriminate].
  cbn [option_map]. intros [= <-] Hall.
  inversion Hall as [|? ? Hd Hmore]; subst. cbn [snd] in Hd.
  assert (Hu1 : unheard w1) by (destruct Hu as (? & ? & ?); repeat split; assumption).
  rewrite (unheard_frame frame Hu1 Hd) in *.
  destruct (unheard_buffered frame Hu1 Hd) as (Hu2 & Ha & Hb & _).
  destruct (IH _ more Hu2 Hr Hmore) as [Hu3 Hh].
  split; [exact Hu3|]. rewrite Hh.
  unfold held. rewrite Ha, Hb. subst frame w1. cbn [self audioBuffer frameBuffer set_frameBuffer].
  unfold newFloat32Array. rewrite <- app_assoc, <- map_app, firstn_skipn.
  destruct w as [r v]; destruct v; reflexivity.
Qed.

Lemma unheard_step (a : Action) (w w' : World) (tr : list Obs) :
  unheard w -> feedsOnly a = true ->
  step a w = Some (w', tr) -> ~ In (Decided true) tr ->
  unheard w' /\ held w' = held w ++ newFloat32Array (blocksOf [a]).
Proof.
  intros Hu Hf. destruct a; try discriminate Hf;
    [rewrite step_ProcessAudio | cbn [step] ..]; cbn [blocksOf].
  - destruct (maxArguments <? _)%Z; [discriminate|].
    destruct (processAccepted audioData w) as [[r w1] out] eqn:E.
    destruct r as [frames|]; [|discriminate]. intros [= <- <-] Hno.
    rewrite processAccepted_run in E.
    set (w0 := mkWorld _ _) in E. set (fuel := S _) in E.
    assert (Hu0 : unheard w0) by (destruct Hu as (? & ? & ?); repeat split; assumption).
    destruct (@unheard_processLoop fuel w0 frames Hu0) as [Hu1 Hh].
    { unfold result. now rewrite E. }
    { apply Forall_forall. intros fd Hin.
      destruct (snd fd) eqn:Hd; [|reflexivity]. exfalso. apply Hno.
      apply in_or_app. left. apply in_map_iff. exists fd. now rewrite Hd. }
    unfold after in Hu1, Hh. rewrite E in Hu1, Hh. cbn [fst snd] in Hu1, Hh.
    split; [exact Hu1|]. rewrite Hh. unfold held. subst w0.
    cbn [self]. rewrite app_nil_r. unfold newFloat32Array.
    destruct w as [r v]; destruct v; cbn. now rewrite map_app, app_assoc.
  - destruct (advanceTimersByTime ms w) as [[r w1] out] eqn:E. intros [= <- <-] _.
    assert (Ew : w1 = after (advanceTimersByTime ms) w) by (unfold after; now rewrite E).
    rewrite after_advanceTimersByTime in Ew. cbv zeta in Ew.
    destruct Hu as (Hs & Hl & Hq). rewrite Hq in Ew. cbn [length advanceLoop] in Ew.
    change (after skip w) with w in Ew. rewrite Hq in Ew. subst w1.
    split; [repeat split; assumption|].
    unfold held. cbn. now rewrite app_nil_r.
  - intros [= <- <-] _. split.
    + destruct Hu as (Hs & Hl & Hq). repeat split; assumption.
    + unfold held. cbn. now rewrite app_nil_r.
  - intros [= <- <-] _. split; [exact Hu|].
    unfold held. cbn. now rewrite app_nil_r.
Qed.

Lemma unheard_run (script : list Action) :
  forall w w' tr,
    unheard w -> forallb feedsOnly script = true ->
    run script w = Some (w', tr) -> ~ In (Decided true) tr ->
    unheard w' /\ held w' = held w ++ newFloat32Array (blocksOf script).
Proof.
  induction script as [|a script IH]; intros w w' tr Hu Hf; cbn [run].
  - intros [= <- <-] _. split; [exact Hu|]. cbn. now rewrite app_nil_r.
  - cbn [forallb] in Hf. apply andb_true_iff in Hf as [Ha Hf].
    destruct (step a w) as [[w1 o1]|] eqn:E; [|discriminate].
    destruct (run script w1) as [[w2 o2]|] eqn:R; [|discriminate].
    intros [= <- <-] Hno.
    destruct (unheard_step a Hu Ha E) as [Hu1 H1].
    { intros Hin. apply Hno. apply in_or_app. now left. }
    destruct (IH _ _ _ Hu1 Hf R) as [Hu2 H2].
    { intros Hin. apply Hno. apply in_or_app. now right. }
    split; [exact Hu2|]. rewrite H2, H1, <- app_assoc. f_equal.
    unfold newFloat32Array. rewrite <- map_app. f_equal.
    destruct a; try discriminate Ha; cbn [blocksOf]; now rewrite ?app_nil_r.
Qed.

End Unheard.

(** X16 ([processFrame], [processAudio], [getStatus]).  As long as no frame
    is decided speech, a constructed detector that is only fed blocks keeps
    every sample it was given: the segment buffer followed by the
    assembler's remainder is the whole input stream (as binary32 values),
    so [bufferLength + frameBufferLength] reported by [getStatus] is the
    number of samples fed so far.  Nothing trims [audioBuffer] before the
    first onset. *)
Theorem silence_is_buffered_without_bound {engine : Engine}
        (script : list Action) (t0 : Z) (config : AudioConfig)
        (w : World) (tr : list Obs) :
  forallb feedsOnly script = true ->
  run script (boot t0 config) = Some (w, tr) ->
  ~ In (Decided true) tr ->
  audioBuffer (self w) ++ newFloat32Array (frameBuffer (self w))
  = newFloat32Array (blocksOf script)
  /\ (st_bufferLength (getStatus (self w))
      + st_frameBufferLength (getStatus (self w)))%nat
     = length (blocksOf script)
  /\ st_isSpeaking (getStatus (self w)) = false.
Proof.
  intros Hf R Hno.
  assert (Hu : unheard (boot t0 config)) by (repeat split).
  destruct (unheard_run script Hu Hf R Hno) as [(Hs & _) Hh].
  unfold held in Hh. cbn in Hh.
  split; [exact Hh|]. split; [|exact Hs].
  unfold getStatus. cbn [st_bufferLength st_frameBufferLength].
  apply (f_equal (@length float)) in Hh.
  unfold newFloat32Array in Hh. rewrite length_app, !length_map in Hh. exact Hh.
Qed.

Lemma silence_is_buffered_without_bound_witness :
  let script := [ProcessAudio (repeat 0%float 1000); AdvanceTime 60000;
                 ProcessAudio (repeat 0%float 1000)] in
  let w := after (processAudio (repeat 0%float 1000))
             (after (advanceTimersByTime 60000)
                (after (processAudio (repeat 0%float 1000)) (boot 0 testConfig))) in
  audioBuffer (self w) ++ newFloat32Array (frameBuffer (self w))
  = newFloat32Array (blocksOf script)
  /\ (st_bufferLength (getStatus (self w))
      + st_frameBufferLength (getStatus (self w)))%nat
     = length (blocksOf script)
  /\ st_isSpeaking (getStatus (self w)) = false.
Proof.
  cbv zeta.
  apply (@silence_is_buffered_without_bound node
           [ProcessAudio (repeat 0%float 1000); AdvanceTime 60000;
            ProcessAudio (repeat 0%float 1000)] 0 testConfig
           (after (processAudio (repeat 0%float 1000))
              (after (advanceTimersByTime 60000)
                 (after (processAudio (repeat 0%float 1000)) (boot 0 testConfig))))
           [Decided false; Decided false; Decided false; Decided false]).
  - reflexivity.
  - vm_compute. reflexivity.
  - intros H. repeat (destruct H as [H | H]; [discriminate|]). exact H.
Defined.

(* ================================================================== *)
(** * The order of the events *)
(* ================================================================== *)

Section Listening.
Context {engine : Engine}.

Lemma hearAll_app (s : Listening) (a b : list Event) :
  hearAll s (a ++ b)
  = match hearAll s a with Some s' => hearAll s' b | None => None end.
Proof.
  revert s. induction a as [|e a IH]; intros s; cbn [app hearAll]; [reflexivity|].
  destruct (hear s e); [apply IH | reflexivity].
Qed.

Lemma respects_seq (w w1 w2 : World) (s : Listening) (o1 o2 : list Event) :
  (forall s0, attuned w s0 -> exists s', hearAll s0 o1 = Some s' /\ attuned w1 s') ->
  (forall s0, attuned w1 s0 -> exists s', hearAll s0 o2 = Some s' /\ attuned w2 s') ->
  attuned w s ->
  exists s', hearAll s (o1 ++ o2) = Some s' /\ attuned w2 s'.
Proof.
  intros H1 H2 Hw. destruct (H1 s Hw) as (s1 & E1 & A1).
  destruct (H2 s1 A1) as (s2 & E2 & A2).
  exists s2. rewrite hearAll_app, E1. auto.
Qed.

Lemma respects_processFrame (frame : Float32Array) : respects (processFrame frame).
Proof.
  intros w s.
  destruct w as [[n q i] v].
  destruct v as [sr fs et ssd sed maxd mind sto spk sst set_ lst ab fb nf at_ sstT seT siT].
  unfold attuned. cbn [self minChunkDuration maxChunkDuration isSpeaking].
  intros (Hc & Hs & -> & ->).
  remember attuned as Att eqn:HA.
  destruct (detectSpeech
              (mkVAD sr fs et ssd sed 3000 1000 sto spk sst set_ lst ab fb nf at_ sstT seT siT)
              (calculateEnergy frame)) eqn:D;
    destruct spk;
    try (destruct sst as [t0|];
         [destruct (t0 =? 0) eqn:Z0;
          destruct (3000 <=? n - t0) eqn:Mx; destruct (1000 <=? n - t0) eqn:Mn|]);
    try (exfalso; apply Z.leb_le in Mx; apply Z.leb_gt in Mn; lia);
    try (rewrite (Hs eq_refl));
    symex; rewrite ?D; symex_more; branch; subst Att;
    eexists; (split; [reflexivity|]); unfold attuned; cbn;
    repeat split; auto; try discriminate; intros; try discriminate; auto.
Qed.

Lemma respects_fire (t : Timer) (w : World) (s : Listening) :
  attuned w s ->
  exists s', hearAll s (events (fire t) w) = Some s' /\ attuned (after (fire t) w) s'.
Proof.
  destruct t as [id d c].
  destruct w as [[n q i] v].
  destruct v as [sr fs et ssd sed maxd mind sto spk sst set_ lst ab fb nf at_ sstT seT siT].
  unfold attuned. cbn [self minChunkDuration maxChunkDuration isSpeaking].
  intros (Hc & Hs & -> & ->).
  remember attuned as Att eqn:HA.
  unfold fire. cbn [cb].
  destruct c; cbn [runCallback]; try destruct spk;
    try destruct (1000 <=? Z.max n d - toNumber sst) eqn:Mn;
    try (rewrite (Hs eq_refl));
    symex; branch; subst Att;
    try (destruct s; try (now contradict Hc));
    eexists; (split; [reflexivity|]); unfold attuned; cbn;
    repeat split; auto; try discriminate; intros; try discriminate; auto.
Qed.

Lemma respects_reset : respects reset.
Proof.
  intros w s (Hc & _ & Hm & Hx). destruct (reset_fields w) as (Hs & _ & _ & He).
  rewrite He. exists s. split; [reflexivity|].
  unfold attuned. rewrite Hs. cbn. repeat split; auto. discriminate.
Qed.

Lemma respects_processLoop (fuel : nat) : respects (processLoop fuel).
Proof.
  induction fuel as [|fuel IH]; intros w s Hw.
  - exists s. split; [reflexivity | exact Hw].
  - unfold after, events. rewrite processLoop_S.
    destruct (frameSize (self w) <=? Z.of_nat (length (frameBuffer (self w))));
      [|exists s; split; [reflexivity | exact Hw]].
    cbv zeta. cbn [fst snd].
    set (frame := newFloat32Array _). set (w1 := mkWorld _ _).
    apply (@respects_seq w1 (after (processFrame frame) w1)).
    + intros s0. apply respects_processFrame.
    + intros s0. apply IH.
    + exact Hw.
Qed.

Lemma respects_advanceLoop (rounds : nat) (target : Z) :
  respects (advanceLoop rounds target).
Proof.
  induction rounds as [|rounds IH]; intros w s Hw.
  - exists s. split; [reflexivity | exact Hw].
  - rewrite after_advanceLoop_S, events_advanceLoop_S.
    destruct (earliest (queue (rt w))) as [t|];
      [|exists s; split; [reflexivity | exact Hw]].
    destruct (due t <=? target); [|exists s; split; [reflexivity | exact Hw]].
    apply (@respects_seq w (after (fire t) w)).
    + intros s0. apply respects_fire.
    + intros s0. apply IH.
    + exact Hw.
Qed.

Lemma eventsOf_app (a b : list Obs) : eventsOf (a ++ b) = eventsOf a ++ eventsOf b.
Proof. apply flat_map_app. Qed.

Lemma eventsOf_emitted (out : list Event) : eventsOf (map Emitted out) = out.
Proof.
  induction out as [|e out IH]; cbn [map]; [reflexivity|].
  change (eventsOf (Emitted e :: map Emitted out))
    with (e :: eventsOf (map Emitted out)).
  now rewrite IH.
Qed.

Lemma eventsOf_decided {A} (f : A -> bool) (l : list A) :
  eventsOf (map (fun x => Decided (f x)) l) = [].
Proof. induction l as [|x l IH]; cbn; [reflexivity | exact IH]. Qed.

Lemma respects_step (a : Action) (w w' : World) (tr : list Obs) (s : Listening) :
  attuned w s -> step a w = Some (w', tr) ->
  exists s', hearAll s (eventsOf tr) = Some s' /\ attuned w' s'.
Proof.
  intros Hw. destruct a; [taken_block | cbn [step] ..].
  - destruct (processAccepted audioData w) as [[r w1] out] eqn:E.
    destruct r as [frames|]; [|discriminate]. intros [= <- <-].
    rewrite eventsOf_app, eventsOf_emitted, (eventsOf_decided snd). cbn [app].
    rewrite processAccepted_run in E.
    set (w0 := mkWorld _ _) in E. set (fuel := S _) in E.
    assert (H0 : attuned w0 s) by exact Hw.
    destruct (respects_processLoop fuel H0) as (s' & E' & A').
    unfold after, events in E', A'. rewrite E in E', A'. now exists s'.
  - destruct (processFrame frame w) as [[d w1] out] eqn:E. intros [= <- <-].
    change (eventsOf (Decided d :: map Emitted out))
      with (eventsOf (map Emitted out)).
    rewrite eventsOf_emitted.
    destruct (respects_processFrame frame Hw) as (s' & E' & A').
    unfold after, events in E', A'. rewrite E in E', A'. now exists s'.
  - destruct (advanceTimersByTime ms w) as [[r w1] out] eqn:E. intros [= <- <-].
    rewrite eventsOf_emitted.
    assert (Ew : w1 = after (advanceTimersByTime ms) w) by (unfold after; now rewrite E).
    assert (Eo : out = events (advanceTimersByTime ms) w) by (unfold events; now rewrite E).
    rewrite after_advanceTimersByTime in Ew. rewrite events_advanceTimersByTime in Eo.
    cbv zeta in Ew.
    destruct (respects_advanceLoop (length (queue (rt w)))
                (now (rt w) + Z.max 0 ms) Hw) as (s' & E' & A').
    exists s'. subst out w1. split; [exact E' | exact A'].
  - destruct (reset w) as [[r w1] out] eqn:E. intros [= <- <-].
    rewrite eventsOf_emitted.
    destruct (respects_reset Hw) as (s' & E' & A').
    unfold after, events in E', A'. rewrite E in E', A'. now exists s'.
  - intros [= <- <-]. exists s. split; [reflexivity | exact Hw].
  - intros [= <- <-]. exists s. split; [reflexivity | exact Hw].
Qed.

Lemma respects_run (script : list Action) :
  forall w w' tr s,
    attuned w s -> run script w = Some (w', tr) ->
    exists s', hearAll s (eventsOf tr) = Some s' /\ attuned w' s'.
Proof.
  induction script as [|a script IH]; intros w w' tr s Hw; cbn [run].
  - intros [= <- <-]. exists s. split; [reflexivity | exact Hw].
  - destruct (step a w) as [[w1 o1]|] eqn:E; [|discriminate].
    destruct (run script w1) as [[w2 o2]|] eqn:R; [|discriminate].
    intros [= <- <-].
    destruct (respects_step a Hw E) as (s1 & E1 & A1).
    destruct (IH _ _ _ _ A1 R) as (s2 & E2 & A2).
    exists s2. rewrite eventsOf_app, hearAll_app, E1. auto.
Qed.

End Listening.

(** X17 ([endSpeech], [forceEndSpeech], the closure of [handleSpeechStart],
    [processFrame]).  The events of a detector in use come in an order a
    listener can rely on: a ['speechEnd'] is emitted only for a segment that
    a ['speechStart'] has announced and that has not been ended since; a
    ['speechEnd'] with reason [max_duration] is followed at once by
    ['speechStart'] with reason ['continued'], which is emitted in no other
    place; and while the detector reports [isSpeaking], a segment is
    open. *)
Theorem events_come_in_order {engine : Engine}
        (script : list Action) (t0 : Z) (config : AudioConfig)
        (w : World) (tr : list Obs) :
  run script (boot t0 config) = Some (w, tr) ->
  exists s, hearAll Closed (eventsOf tr) = Some s
            /\ s <> Cut
            /\ (isSpeaking (self w) = true -> s = Opened).
Proof.
  intros R.
  assert (H0 : attuned (boot t0 config) Closed).
  { unfold attuned. cbn. repeat split; discriminate. }
  destruct (respects_run script H0 R) as (s & E & Hc & Hs & _).
  exists s. auto.
Qed.

Lemma events_come_in_order_witness :
  let w := after (advanceTimersByTime 1000)
             (after (processFrame silenceFrame)
                (after (advanceTimersByTime 300)
                   (after (processFrame speechFrame) (boot 0 testConfig)))) in
  let tr := [Decided true; Emitted (SpeechStart false); Decided false;
             Emitted (SpeechEnd (mkSpeechEndData (speechFrame ++ silenceFrame)
                                                 1000 (Some 300) silence))] in
  exists s, hearAll Closed (eventsOf tr) = Some s
            /\ s <> Cut
            /\ (isSpeaking (self w) = true -> s = Opened).
Proof.
  cbv zeta.
  apply (@events_come_in_order node
           [ProcessFrame speechFrame; AdvanceTime 300;
            ProcessFrame silenceFrame; AdvanceTime 1000] 0 testConfig).
  vm_compute. reflexivity.
Defined.
